(** * WeaveCode / Debug Slicer: the multi-region sandbox engine

    A shallow embedding of the "Multi-Region Edition" of the extension
    (the second TypeScript unit of [src/unnamed/part_000], lines 261-639)
    together with the single-region helpers of [src/src/extension.ts] that
    the multi-region code is compared with.

    Conventions of the embedding:
    - a JavaScript string is the list of its UTF-16 code units ([list N]);
    - a JavaScript number holding a line number is an integer ([Z]);
    - a JavaScript [Map<string, string>] is a [gmap (list N) (list N)];
    - objects that are shared by reference (the [SandboxMapping] captured by
      a timer closure and stored in [sandboxMap]) live in an explicit heap;
    - the VS Code API (documents, [applyEdit], [save], timers) is the
      environment: its answers label the events of the transition system
      and the calls made to it are recorded in an effect log. *)

From Stdlib Require Import ZArith List Ascii String Lia Bool Sorted.
From stdpp Require Import base option list gmap strings fin_maps pretty.

Open Scope Z_scope.

(** ** JavaScript strings *)

Abbreviation jsstring := (list N).

Definition LF : N := 10%N.
Definition CR : N := 13%N.

(** The code units of an ASCII literal. *)
Fixpoint str (s : string) : jsstring :=
  match s with
  | EmptyString => []
  | String a r => N_of_ascii a :: str r
  end.

(** [U+2702 U+FE0F]: the scissors emoji of the separator, two code units. *)
Definition SCISSORS : jsstring := [9986%N; 65039%N].

(** [\d] of a JavaScript regular expression: the ten ASCII digits. *)
Definition is_digit (c : N) : bool := ((48 <=? c) && (c <=? 57))%N.

(** Consume the literal [p] at the head of [s]. *)
Fixpoint strip_prefix (p s : jsstring) : option jsstring :=
  match p with
  | [] => Some s
  | a :: p' =>
      match s with
      | [] => None
      | b :: s' => if N.eqb a b then strip_prefix p' s' else None
      end
  end.

(** The greedy [\d*]: the longest run of digits at the head of [s], and
    what follows it. *)
Fixpoint take_digits (s : jsstring) : jsstring * jsstring :=
  match s with
  | [] => ([], [])
  | c :: t =>
      if is_digit c
      then let '(d, r) := take_digits t in (c :: d, r)
      else ([], s)
  end.

(** ** [SEPARATOR_REGEX] (part_000:283)

    [/\/\* ✂️ --- DEBUG SLICE: (region_\d+) --- ✂️ \*\/\r?\n/g]

    [match_separator s] matches the expression at the head of [s] (a sticky
    match, as [String.prototype.split] performs it) and returns the capture
    group with the text that follows the match.  The greedy [\d+] never has
    to give a digit back, because the next pattern character is a space; the
    optional [\r] never has to be given back, because the next pattern
    character is [\n]: the match is deterministic. *)

Definition SEP_OPEN : jsstring :=
  str "/* " ++ SCISSORS ++ str " --- DEBUG SLICE: ".
Definition SEP_CLOSE : jsstring :=
  str " --- " ++ SCISSORS ++ str " */".
Definition REGION_ : jsstring := str "region_".

Definition match_newline (s : jsstring) : option jsstring :=
  match s with
  | c :: t =>
      if N.eqb c CR then
        match t with
        | d :: t' => if N.eqb d LF then Some t' else None
        | [] => None
        end
      else if N.eqb c LF then Some t
      else None
  | [] => None
  end.

Definition match_separator (s : jsstring) : option (jsstring * jsstring) :=
  s1 ← strip_prefix SEP_OPEN s;
  s2 ← strip_prefix REGION_ s1;
  let '(ds, s3) := take_digits s2 in
  match ds with
  | [] => None
  | _ :: _ =>
      s4 ← strip_prefix SEP_CLOSE s3;
      s5 ← match_newline s4;
      Some (REGION_ ++ ds, s5)
  end.

(** ** [sandboxText.split(SEPARATOR_REGEX)] (part_000:487)

    ECMAScript's [split] scans the text from the left; where the separator
    matches at the current position it closes the current piece, emits the
    capture group, and continues after the match; elsewhere it moves one
    code unit on.  The text left at the end is the last piece.  A match of
    [SEPARATOR_REGEX] is never empty, so the empty-match rule of [split] is
    not needed.

    [skip] counts the code units of a match that are still to be passed
    over; it makes the recursion structural.  [split_from_match] below
    states the equation of the ECMAScript algorithm. *)
Fixpoint split_from (skip : nat) (cur s : jsstring) : list jsstring :=
  match s with
  | [] => [cur]
  | c :: t =>
      match skip with
      | S k => split_from k cur t
      | O =>
          match match_separator s with
          | Some (cap, rest) =>
              cur :: cap :: split_from (length t - length rest) [] t
          | None => split_from O (cur ++ [c]) t
          end
      end
  end.

Definition split_SEPARATOR_REGEX (sandboxText : jsstring) : list jsstring :=
  split_from O [] sandboxText.

(** ** [code.replace(/\r?\n\r?\n$/, '')] (part_000:496)

    Without the [m] flag [$] is the end of the input, and without [g] only
    the leftmost match is replaced: the first position from which the whole
    remaining text is [\r?\n\r?\n] is where the text is cut. *)
Definition is_blank_tail (s : jsstring) : bool :=
  bool_decide (s = [CR; LF; CR; LF]) || bool_decide (s = [LF; CR; LF])
  || bool_decide (s = [CR; LF; LF]) || bool_decide (s = [LF; LF]).

Fixpoint replace_blank_tail (code : jsstring) : jsstring :=
  if is_blank_tail code then []
  else match code with
       | [] => []
       | c :: t => c :: replace_blank_tail t
       end.

(** ** [newCode.split(/\r?\n/)] (part_000:529) *)
Fixpoint split_lines_from (cur s : jsstring) : list jsstring :=
  match s with
  | [] => [cur]
  | c :: t =>
      if N.eqb c LF then cur :: split_lines_from [] t
      else if N.eqb c CR then
        match t with
        | d :: t' =>
            if N.eqb d LF then cur :: split_lines_from [] t'
            else split_lines_from (cur ++ [c]) t
        | [] => split_lines_from (cur ++ [c]) t
        end
      else split_lines_from (cur ++ [c]) t
  end.

Definition split_newlines (s : jsstring) : list jsstring :=
  split_lines_from [] s.

(** ** The parse loop (part_000:490-498) *)

(** [parts] from index 1 on: [for (i = 1; i < parts.length; i += 2)].
    [parts[i + 1]] past the end is [undefined] and [code.replace] would
    throw a [TypeError]: [None]. *)
Fixpoint parseCodeBlocks (parts : list jsstring)
    (parsedCodeBlocks : gmap jsstring jsstring)
    : option (gmap jsstring jsstring) :=
  match parts with
  | [] => Some parsedCodeBlocks
  | regionId :: rest =>
      match rest with
      | [] => None
      | code :: rest' =>
          parseCodeBlocks rest'
            (<[regionId := replace_blank_tail code]> parsedCodeBlocks)
      end
  end.

Definition parseSandboxText (sandboxText : jsstring)
    : option (gmap jsstring jsstring) :=
  parseCodeBlocks (tail (split_SEPARATOR_REGEX sandboxText)) ∅.

(** The sequence of region ids in the order they are read. *)
Fixpoint part_ids (parts : list jsstring) : list jsstring :=
  match parts with
  | regionId :: _ :: rest' => regionId :: part_ids rest'
  | _ => []
  end.

Definition parsed_ids (sandboxText : jsstring) : list jsstring :=
  part_ids (tail (split_SEPARATOR_REGEX sandboxText)).

(** The separator line the generator writes for [id] (part_000:471). *)
Definition separator_line (id : jsstring) : jsstring :=
  SEP_OPEN ++ id ++ SEP_CLOSE ++ [LF].

Definition region_id (idx : nat) : jsstring :=
  REGION_ ++ str (pretty.pretty idx).


(** ** Types and state (part_000:267-282) *)

Record Range := mkRange { startLine : Z; endLine : Z }.

Record RegionMapping := mkRegion {
  id : jsstring;               (* e.g. "region_0" *)
  originalRange : Range;       (* the current position in the original file *)
  originalContent : jsstring   (* the pristine backup text for discarding *)
}.

(** A timer handle returned by [setTimeout]. *)
Abbreviation handle := nat.

Record SandboxMapping := mkMapping {
  originalUri : string;
  regions : list RegionMapping;
  isLive : bool;
  debounce : option handle;
  backupUri : option string;
  mutex : bool
}.

Global Instance Range_eq_dec : EqDecision Range.
Proof. solve_decision. Defined.
Global Instance RegionMapping_eq_dec : EqDecision RegionMapping.
Proof. solve_decision. Defined.
Global Instance SandboxMapping_eq_dec : EqDecision SandboxMapping.
Proof. solve_decision. Defined.

(** ** The documents of the Document Store

    A [vscode.TextDocument] is given by its lines (without terminators) and
    its end-of-line sequence ([\n] or [\r\n]). *)
Record TextDocument := mkDoc {
  docLines : list jsstring;
  docEol : jsstring
}.

Definition lineCount (d : TextDocument) : Z := Z.of_nat (length (docLines d)).

(** [doc.lineAt(n).text]; [lineAt] throws on a line that does not exist. *)
Definition lineAt (d : TextDocument) (n : Z) : option jsstring :=
  if bool_decide (0 <= n < lineCount d) then docLines d !! Z.to_nat n
  else None.

Fixpoint join (sep : jsstring) (l : list jsstring) : jsstring :=
  match l with
  | [] => []
  | [x] => x
  | x :: rest => x ++ sep ++ join sep rest
  end.

Definition getText (d : TextDocument) : jsstring := join (docEol d) (docLines d).

Definition jslen (s : jsstring) : Z := Z.of_nat (length s).

(** [doc.offsetAt(new Position(line, character))]: the position is first
    validated (clamped into the document), then the lengths of the lines
    before it, each with its terminator, are added up. *)
Definition offsetAt (d : TextDocument) (line character : Z) : Z :=
  let line' := Z.max 0 (Z.min line (lineCount d - 1)) in
  let before := take (Z.to_nat line') (docLines d) in
  let len := default 0 (jslen <$> docLines d !! Z.to_nat line') in
  let character' :=
    if bool_decide (line < 0) then 0
    else if bool_decide (lineCount d - 1 < line) then len
    else Z.max 0 (Z.min character len) in
  foldr (fun l acc => jslen l + jslen (docEol d) + acc) 0 before + character'.

(** [s.substring(a, b)]: both indices are clamped to the string and
    swapped when [a > b]. *)
Definition substring (s : jsstring) (a b : Z) : jsstring :=
  let a' := Z.max 0 (Z.min a (jslen s)) in
  let b' := Z.max 0 (Z.min b (jslen s)) in
  let lo := Z.min a' b' in
  let hi := Z.max a' b' in
  take (Z.to_nat (hi - lo)) (drop (Z.to_nat lo) s).

(** ** The Symbol Provider's tree (vscode.DocumentSymbol) *)

Inductive SymbolKind :=
  | File | Module_ | Namespace | Package | Class_ | Method | Property
  | Field | Constructor | Enum | Interface | Function_ | Variable_
  | Constant | String_ | Number | Boolean | Array | Object | Key | Null
  | EnumMember | Struct | Event | Operator | TypeParameter.

Global Instance SymbolKind_eq_dec : EqDecision SymbolKind.
Proof. solve_decision. Defined.

(** A symbol with the first and last line of its [range]. *)
#[local] Set Warnings "-register-all".
Inductive DocumentSymbol :=
  Symbol (kind : SymbolKind) (range : Range) (children : list DocumentSymbol).

Definition kind (s : DocumentSymbol) : SymbolKind :=
  match s with Symbol k _ _ => k end.
Definition range (s : DocumentSymbol) : Range :=
  match s with Symbol _ r _ => r end.
Definition children (s : DocumentSymbol) : list DocumentSymbol :=
  match s with Symbol _ _ c => c end.

(** [validContainers.includes(kind)] (part_000:546-551). *)
Definition validContainers : list SymbolKind :=
  [Function_; Method; Class_; Constructor].

Definition isValidContainer (k : SymbolKind) : bool :=
  bool_decide (k ∈ validContainers).

(** [symbol.range.start.line <= targetLine && symbol.range.end.line >= targetLine] *)
Definition encloses (targetLine : Z) (s : DocumentSymbol) : bool :=
  (startLine (range s) <=? targetLine) && (endLine (range s) >=? targetLine).

(** ** [findSymbolAtLine] (part_000:542-579)

    [selectMatch] is the body of the [if] of the loop (part_000:557-575)
    once the recursive call on the children has returned [childMatch]:
    what the function returns for the first symbol of the list that
    encloses the target line. *)
Definition selectMatch (symbol : DocumentSymbol)
    (childMatch : option DocumentSymbol) : DocumentSymbol :=
  let bestMatch : option DocumentSymbol :=
    if isValidContainer (kind symbol) then Some symbol else None in
  let bestMatch :=
    match childMatch with
    | Some c => if isValidContainer (kind c) then Some c else bestMatch
    | None => bestMatch
    end in
  match bestMatch with
  | Some b => b
  | None => symbol
  end.

(** [visitSymbol] handles an enclosing symbol; its inner [fix] is the
    recursive call [findSymbolAtLine(symbol.children, targetLine)]. *)
Fixpoint visitSymbol (targetLine : Z) (symbol : DocumentSymbol) : DocumentSymbol :=
  match symbol with
  | Symbol _ _ chn =>
      selectMatch symbol
        ((fix find (symbols : list DocumentSymbol) : option DocumentSymbol :=
            match symbols with
            | [] => None
            | s :: rest =>
                if encloses targetLine s then Some (visitSymbol targetLine s)
                else find rest
            end) chn)
  end.

Fixpoint findSymbolAtLine (symbols : list DocumentSymbol) (targetLine : Z)
    : option DocumentSymbol :=
  match symbols with
  | [] => None
  | symbol :: rest =>
      if encloses targetLine symbol then Some (visitSymbol targetLine symbol)
      else findSymbolAtLine rest targetLine
  end.

(** ** [openUnifiedSandbox], steps 2 to 4 (part_000:436-472) *)

(** Step 2: the range of one target line. *)
Definition lineToRange (origDoc : TextDocument) (symbols : list DocumentSymbol)
    (line : Z) : Range :=
  match findSymbolAtLine symbols line with
  | Some sym => mkRange (startLine (range sym)) (endLine (range sym))
  | None => mkRange (Z.max 0 (line - 4)) (Z.min (lineCount origDoc - 1) (line + 4))
  end.

(** [ranges.sort((a, b) => a.startLine - b.startLine)]: the sort of an
    array is stable, so it is the insertion of each range before the first
    later range that does not start before it. *)
Fixpoint insertRange (r : Range) (l : list Range) : list Range :=
  match l with
  | [] => [r]
  | y :: l' =>
      if startLine r <=? startLine y then r :: y :: l'
      else y :: insertRange r l'
  end.

Definition sortRanges (ranges : list Range) : list Range :=
  foldr insertRange [] ranges.

(** Step 3: one turn of the merge loop.  [mergedRanges] is an array that is
    pushed to, and whose last element is updated in place. *)
Definition mergeStep (mergedRanges : list Range) (r : Range) : list Range :=
  match last mergedRanges with
  | None => mergedRanges ++ [r]
  | Some lst =>
      if startLine r <=? endLine lst + 2
      then <[ (length mergedRanges - 1)%nat :=
                mkRange (startLine lst) (Z.max (endLine lst) (endLine r)) ]>
             mergedRanges
      else mergedRanges ++ [r]
  end.

Definition mergeRanges (ranges : list Range) : list Range :=
  foldl mergeStep [] (sortRanges ranges).

(** Step 4: the text of one region and its block of the sandbox. *)
Definition regionContent (origDoc : TextDocument) (r : Range) : option jsstring :=
  endText ← lineAt origDoc (endLine r);
  let startOffset := offsetAt origDoc (startLine r) 0 in
  let endOffset := offsetAt origDoc (endLine r) (jslen endText) in
  Some (substring (getText origDoc) startOffset endOffset).

(** [`/* ✂️ --- DEBUG SLICE: ${id} --- ✂️ */\n${content}\n\n`] *)
Definition regionBlock (rid content : jsstring) : jsstring :=
  separator_line rid ++ content ++ [LF; LF].

(** The [forEach] of step 4, from index [idx] on: the regions pushed and
    the text appended.  [None] when [lineAt] throws. *)
Fixpoint generateFrom (origDoc : TextDocument) (idx : nat)
    (mergedRanges : list Range) : option (list RegionMapping * jsstring) :=
  match mergedRanges with
  | [] => Some ([], [])
  | r :: rest =>
      content ← regionContent origDoc r;
      '(rs, text) ← generateFrom origDoc (S idx) rest;
      Some (mkRegion (region_id idx) r content :: rs,
            regionBlock (region_id idx) content ++ text)
  end.

(** The sandbox text of a list of regions, as step 4 builds it. *)
Definition sandboxTextOf (rs : list RegionMapping) : jsstring :=
  concat ((fun r => regionBlock (id r) (originalContent r)) <$> rs).

(** ** [applySandboxSegmentsToOriginal]: the pure parts (part_000:485-539) *)

(** One replacement of the bulk edit:
    [edit.replace(originalUri, new Range(startLine, 0, endLine, endChar), newCode)].
    [newText] is [None] when the value passed is [undefined]. *)
Record TextEdit := mkEdit {
  editStartLine : Z;
  editStartChar : Z;
  editEndLine : Z;
  editEndChar : Z;
  newText : option jsstring
}.

Global Instance TextEdit_eq_dec : EqDecision TextEdit.
Proof. solve_decision. Defined.

(** The loop that builds the bulk edit from the current ranges
    (part_000:510-516).  [None] when [lineAt] throws. *)
Fixpoint buildEdit (parsedCodeBlocks : gmap jsstring jsstring)
    (originalDoc : TextDocument) (rs : list RegionMapping)
    : option (list TextEdit) :=
  match rs with
  | [] => Some []
  | region :: rest =>
      let newCode := parsedCodeBlocks !! id region in
      let endLine' :=
        Z.min (endLine (originalRange region)) (lineCount originalDoc - 1) in
      endText ← lineAt originalDoc endLine';
      edits ← buildEdit parsedCodeBlocks originalDoc rest;
      Some (mkEdit (startLine (originalRange region)) 0 endLine'
              (jslen endText) newCode :: edits)
  end.

(** The shift calculus (part_000:526-538).  The regions are updated in
    place, in order; [parsedCodeBlocks.get(region.id)!] is [undefined] for
    an id the buffer does not have, and [newCode.split] then throws: the
    regions before it keep their new ranges, the others are untouched, and
    the flag is [false]. *)
Fixpoint shiftCalculus (parsedCodeBlocks : gmap jsstring jsstring)
    (currentShift : Z) (rs : list RegionMapping) : list RegionMapping * bool :=
  match rs with
  | [] => ([], true)
  | region :: rest =>
      match parsedCodeBlocks !! id region with
      | None => (region :: rest, false)
      | Some newCode =>
          let newCodeLineCount := Z.of_nat (length (split_newlines newCode)) in
          let oldLineCount :=
            endLine (originalRange region) - startLine (originalRange region) + 1 in
          let startLine' := startLine (originalRange region) + currentShift in
          let endLine' := startLine' + newCodeLineCount - 1 in
          let '(rest', ok) :=
            shiftCalculus parsedCodeBlocks
              (currentShift + (newCodeLineCount - oldLineCount)) rest in
          (mkRegion (id region) (mkRange startLine' endLine')
             (originalContent region) :: rest', ok)
      end
  end.

(** ** The extension as a transition system

    Effects: the calls the extension makes to VS Code, in the order made. *)

Inductive message :=
  | SeparatorDeleted   (* "Live Sync Error: A ✂️ separator was deleted. Undo ..." *)
  | NotRegistered      (* "Not a registered sandbox." *)
  | ChangesKept        (* "Changes kept. Cleaning up sandbox..." *)
  | SandboxDiscarded   (* "Sandbox discarded. All segments reverted." *)
  | ErrorDiscarding    (* "Error discarding: " + e *)
  | LiveSyncEnabled    (* "Live Sync Enabled." *)
  | LiveSyncDisabled   (* "Live Sync Disabled." *)
  | SandboxCreated (segments : nat) (* "Sandbox created with N segments. ..." *)
  (* messages of the single-region edition (src/src/extension.ts) *)
  | NotRegisteredSandbox (* "This document is not a registered sandbox ..." *)
  | ChangesApplied     (* "Sandbox changes applied to original file." *)
  | FailedToApply      (* "Failed to apply edits to original file." *)
  | ErrorApplying.     (* "Error applying sandbox: " + e *)

Inductive effect :=
  | ShowErrorMessage (m : message)
  | ShowInformationMessage (m : message)
  | ConsoleError                       (* console.error('Sync error:', err) *)
  | OpenTextDocument (uri : string)
  | OpenUntitled (content : jsstring)  (* openTextDocument({content}) + show *)
  | ApplyEdit (uri : string) (edits : list TextEdit)
  | SaveDocument (uri : string)
  | FsDelete (uri : string)
  | FsWriteFile (uri : string) (content : jsstring)
  | FsCreateDirectory (uri : string)
  | ConsoleWarn                        (* console.warn('Could not write backup:', err) *)
  | CloseActiveEditor.

Global Instance message_eq_dec : EqDecision message.
Proof. solve_decision. Defined.
Global Instance effect_eq_dec : EqDecision effect.
Proof. solve_decision. Defined.

(** Where a suspended live-sync cycle waits (the three [await]s of
    [applySandboxSegmentsToOriginal] that follow the guard). *)
Inductive stage :=
  | AwaitOpenTextDocument   (* part_000:507 *)
  | AwaitApplyEdit          (* part_000:518 *)
  | AwaitSave.              (* part_000:521 *)

(** A suspended invocation of the timer callback: the mapping object and
    the locals of [applySandboxSegmentsToOriginal] it closes over. *)
Record task := mkTask {
  taskMapping : nat;
  taskParsed : gmap jsstring jsstring;
  taskStage : stage
}.

Record World := mkWorld {
  sandboxMap : gmap string nat;          (* the registry: doc uri -> object *)
  heap : gmap nat SandboxMapping;        (* the mapping objects *)
  buffers : gmap string jsstring;        (* the text of the sandbox docs *)
  timers : gmap handle (nat * string);   (* pending callbacks: (mapping, doc) *)
  tasks : gmap nat task;                 (* suspended live-sync cycles *)
  nextId : nat;                          (* fresh objects, handles, tasks *)
  log : list effect                      (* calls made so far, oldest first *)
}.

Definition initial : World := mkWorld ∅ ∅ ∅ ∅ ∅ 0%nat [].

Definition with_sandboxMap (x : gmap string nat) (w : World) : World :=
  mkWorld x (heap w) (buffers w) (timers w) (tasks w) (nextId w) (log w).
Definition with_heap (x : gmap nat SandboxMapping) (w : World) : World :=
  mkWorld (sandboxMap w) x (buffers w) (timers w) (tasks w) (nextId w) (log w).
Definition with_buffers (x : gmap string jsstring) (w : World) : World :=
  mkWorld (sandboxMap w) (heap w) x (timers w) (tasks w) (nextId w) (log w).
Definition with_timers (x : gmap handle (nat * string)) (w : World) : World :=
  mkWorld (sandboxMap w) (heap w) (buffers w) x (tasks w) (nextId w) (log w).
Definition with_tasks (x : gmap nat task) (w : World) : World :=
  mkWorld (sandboxMap w) (heap w) (buffers w) (timers w) x (nextId w) (log w).
Definition fresh_id (w : World) : World :=
  mkWorld (sandboxMap w) (heap w) (buffers w) (timers w) (tasks w)
    (S (nextId w)) (log w).
Definition emit (e : effect) (w : World) : World :=
  mkWorld (sandboxMap w) (heap w) (buffers w) (timers w) (tasks w) (nextId w)
    (log w ++ [e]).

Definition set_regions (rs : list RegionMapping) (m : SandboxMapping) :=
  mkMapping (originalUri m) rs (isLive m) (debounce m) (backupUri m) (mutex m).
Definition set_isLive (b : bool) (m : SandboxMapping) :=
  mkMapping (originalUri m) (regions m) b (debounce m) (backupUri m) (mutex m).
Definition set_debounce (h : option handle) (m : SandboxMapping) :=
  mkMapping (originalUri m) (regions m) (isLive m) h (backupUri m) (mutex m).
Definition set_mutex (b : bool) (m : SandboxMapping) :=
  mkMapping (originalUri m) (regions m) (isLive m) (debounce m) (backupUri m) b.

(** A write to a field of the object at [l]. *)
Definition update (l : nat) (f : SandboxMapping -> SandboxMapping) (w : World) :=
  with_heap (alter f l (heap w)) w.

(** *** [openUnifiedSandbox] (part_000:429-483)

    The environment supplies the original document, the symbols of the
    Symbol Provider and the uri of the untitled document it creates.
    When [lineAt] throws in step 4 the function ends there. *)
Definition openUnifiedSandbox (uriStr : string) (targetLines : list Z)
    (origDoc : TextDocument) (symbols : list DocumentSymbol)
    (docKey : string) (w : World) : World :=
  let ranges := lineToRange origDoc symbols <$> targetLines in
  let mergedRanges := mergeRanges ranges in
  match generateFrom origDoc 0 mergedRanges with
  | None => w
  | Some (rs, sandboxText) =>
      let w := emit (OpenUntitled sandboxText) w in
      let w := with_buffers (<[docKey := sandboxText]> (buffers w)) w in
      let l := nextId w in
      let w := with_heap
                 (<[l := mkMapping uriStr rs false None None false]> (heap w))
                 (fresh_id w) in
      let w := with_sandboxMap (<[docKey := l]> (sandboxMap w)) w in
      emit (ShowInformationMessage (SandboxCreated (length rs))) w
  end.

(** *** [applySandboxCmd], the accept command (part_000:337-353)

    [active] is the uri of the active editor's document, if there is an
    active editor. *)
Definition applySandboxCmd (active : option string) (w : World) : World :=
  match active with
  | None => w
  | Some docUriStr =>
      match sandboxMap w !! docUriStr with
      | None => emit (ShowInformationMessage NotRegistered) w
      | Some l =>
          let w := emit (ShowInformationMessage ChangesKept) w in
          let w :=
            match heap w !! l ≫= backupUri with
            | Some b => emit (FsDelete b) w
            | None => w
            end in
          let w := with_sandboxMap (delete docUriStr (sandboxMap w)) w in
          emit CloseActiveEditor w
      end
  end.

(** The edit of the discard command (part_000:370-373): every region's
    current range is replaced by its backup text.  [None] when [lineAt]
    throws. *)
Fixpoint buildRestore (originalDoc : TextDocument) (rs : list RegionMapping)
    : option (list TextEdit) :=
  match rs with
  | [] => Some []
  | region :: rest =>
      endText ← lineAt originalDoc
                  (Z.min (endLine (originalRange region)) (lineCount originalDoc - 1));
      edits ← buildRestore originalDoc rest;
      Some (mkEdit (startLine (originalRange region)) 0
              (endLine (originalRange region)) (jslen endText)
              (Some (originalContent region)) :: edits)
  end.

(** *** [discardSandboxCmd], the revert command (part_000:356-388)

    [originalDoc] is what [openTextDocument] resolves to, [None] when it
    rejects.  The results of [applyEdit] and [save] are not looked at. *)
Definition discardSandboxCmd (active : option string)
    (originalDoc : option TextDocument) (w : World) : World :=
  match active with
  | None => w
  | Some docUriStr =>
      match sandboxMap w !! docUriStr ≫= (fun l => heap w !! l) with
      | None => w
      | Some mapping =>
          let w := emit (OpenTextDocument (originalUri mapping)) w in
          match originalDoc ≫= (fun d => buildRestore d (regions mapping)) with
          | None => emit (ShowErrorMessage ErrorDiscarding) w
          | Some edits =>
              let w := emit (ApplyEdit (originalUri mapping) edits) w in
              let w := emit (SaveDocument (originalUri mapping)) w in
              let w :=
                match backupUri mapping with
                | Some b => emit (FsDelete b) w
                | None => w
                end in
              let w := with_sandboxMap (delete docUriStr (sandboxMap w)) w in
              let w := emit CloseActiveEditor w in
              emit (ShowInformationMessage SandboxDiscarded) w
          end
      end
  end.

(** *** [toggleLiveSyncCmd] (part_000:390-399) *)
Definition toggleLiveSyncCmd (active : option string) (w : World) : World :=
  match active with
  | None => w
  | Some docUriStr =>
      match sandboxMap w !! docUriStr ≫= (fun l => (l,.) <$> heap w !! l) with
      | None => w
      | Some (l, mapping) =>
          let w := update l (set_isLive (negb (isLive mapping))) w in
          emit (ShowInformationMessage
                  (if negb (isLive mapping) then LiveSyncEnabled
                   else LiveSyncDisabled)) w
      end
  end.

(** *** [changeListener] (part_000:401-420)

    The document already has its new text when the listener runs.  A
    pending timer of the session is cleared and a new one is set; its
    callback closes over the mapping object and the document. *)
Definition changeListener (docKey : string) (isUntitled : bool)
    (text : jsstring) (w : World) : World :=
  let w := with_buffers (<[docKey := text]> (buffers w)) w in
  if negb isUntitled then w
  else
    match sandboxMap w !! docKey ≫= (fun l => (l,.) <$> heap w !! l) with
    | None => w
    | Some (l, mapping) =>
        if negb (isLive mapping) then w
        else
          let w :=
            match debounce mapping with
            | Some h => with_timers (delete h (timers w)) w
            | None => w
            end in
          let h := nextId w in
          let w := with_timers (<[h := (l, docKey)]> (timers w)) (fresh_id w) in
          update l (set_debounce (Some h)) w
    end.

(** The [catch] and [finally] of the timer callback (part_000:414-418). *)
Definition finishCycle (tid : option nat) (l : nat) (threw : bool) (w : World) : World :=
  let w := if threw then emit ConsoleError w else w in
  let w := update l (set_mutex false) w in
  match tid with
  | Some t => with_tasks (delete t (tasks w)) w
  | None => w
  end.

(** *** The timer callback (part_000:409-419) with
    [applySandboxSegmentsToOriginal] up to its first [await]
    (part_000:486-507) *)
Definition timerCallback (h : handle) (w : World) : World :=
  match timers w !! h with
  | None => w
  | Some (l, docKey) =>
      let w := with_timers (delete h (timers w)) w in
      match heap w !! l with
      | None => w
      | Some mapping =>
          if mutex mapping then w
          else
            let w := update l (set_mutex true) w in
            let sandboxText := default [] (buffers w !! docKey) in
            match parseSandboxText sandboxText with
            | None => finishCycle None l true w
            | Some parsedCodeBlocks =>
                if bool_decide (size parsedCodeBlocks ≠ length (regions mapping))
                then finishCycle None l false
                       (emit (ShowErrorMessage SeparatorDeleted) w)
                else
                  let w := emit (OpenTextDocument (originalUri mapping)) w in
                  with_tasks
                    (<[nextId w := mkTask l parsedCodeBlocks AwaitOpenTextDocument]>
                       (tasks w))
                    (fresh_id w)
            end
      end
  end.

Definition set_stage (t : nat) (tk : task) (st : stage) (w : World) : World :=
  with_tasks (<[t := mkTask (taskMapping tk) (taskParsed tk) st]> (tasks w)) w.

(** [openTextDocument] settles: the bulk edit is built from the current
    ranges and submitted (part_000:507-518). *)
Definition openSettled (t : nat) (originalDoc : option TextDocument)
    (w : World) : World :=
  match tasks w !! t with
  | Some (mkTask l parsed AwaitOpenTextDocument as tk) =>
      match heap w !! l with
      | None => w
      | Some mapping =>
          match originalDoc ≫= (fun d => buildEdit parsed d (regions mapping)) with
          | None => finishCycle (Some t) l true w
          | Some edits =>
              set_stage t tk AwaitApplyEdit
                (emit (ApplyEdit (originalUri mapping) edits) w)
          end
      end
  | _ => w
  end.

(** [applyEdit] settles (part_000:518-521). *)
Definition applyEditSettled (t : nat) (applied : option bool) (w : World) : World :=
  match tasks w !! t with
  | Some (mkTask l parsed AwaitApplyEdit as tk) =>
      match heap w !! l with
      | None => w
      | Some mapping =>
          match applied with
          | None => finishCycle (Some t) l true w
          | Some false => finishCycle (Some t) l false w
          | Some true =>
              set_stage t tk AwaitSave
                (emit (SaveDocument (originalUri mapping)) w)
          end
      end
  | _ => w
  end.

(** [save] settles: the shift calculus runs on the mapping object
    (part_000:521-538). *)
Definition saveSettled (t : nat) (saved : option bool) (w : World) : World :=
  match tasks w !! t with
  | Some (mkTask l parsed AwaitSave) =>
      match heap w !! l with
      | None => w
      | Some mapping =>
          match saved with
          | None => finishCycle (Some t) l true w
          | Some _ =>
              let '(rs, ok) := shiftCalculus parsed 0 (regions mapping) in
              finishCycle (Some t) l (negb ok) (update l (set_regions rs) w)
          end
      end
  | _ => w
  end.

(** [deactivate] (part_000:581-583). *)
Definition deactivate (w : World) : World := with_sandboxMap ∅ w.

(** The events of the host and what each one runs. *)
Inductive event :=
  | OpenFileSandbox (uriStr : string) (targetLines : list Z)
      (origDoc : TextDocument) (symbols : list DocumentSymbol) (docKey : string)
  | ApplySandbox (active : option string)
  | DiscardSandbox (active : option string) (originalDoc : option TextDocument)
  | ToggleLiveSync (active : option string)
  | DidChangeTextDocument (docKey : string) (isUntitled : bool) (text : jsstring)
  | TimerFired (h : handle)
  | OpenSettled (t : nat) (originalDoc : option TextDocument)
  | ApplyEditSettled (t : nat) (applied : option bool)
  | SaveSettled (t : nat) (saved : option bool)
  | Deactivate.

Definition step (w : World) (e : event) : World :=
  match e with
  | OpenFileSandbox u ls d syms k => openUnifiedSandbox u ls d syms k w
  | ApplySandbox a => applySandboxCmd a w
  | DiscardSandbox a d => discardSandboxCmd a d w
  | ToggleLiveSync a => toggleLiveSyncCmd a w
  | DidChangeTextDocument k u t => changeListener k u t w
  | TimerFired h => timerCallback h w
  | OpenSettled t d => openSettled t d w
  | ApplyEditSettled t a => applyEditSettled t a w
  | SaveSettled t s => saveSettled t s w
  | Deactivate => deactivate w
  end.

Definition run (w : World) (es : list event) : World := foldl step w es.

(** ** The single-region edition (src/src/extension.ts)

    The two paths of the single-region edition that the multi-region
    handlers are compared with: the accept command and the registration of
    a session with its backup. *)
Module SingleRegion.

Record SandboxMapping := mkMapping {
  originalUri : string;
  originalRange : Range;
  originalContent : jsstring;   (* exact original range content (backup) *)
  isLive : bool;
  debounce : option handle;
  backupUri : option string;    (* persisted backup path *)
  mutex : bool
}.

(** The replacement of the recorded range by [text]
    (extension.ts:221-228).  [None] when [lineAt] throws. *)
Definition replaceEdit (mapping : SandboxMapping) (originalDoc : TextDocument)
    (text : jsstring) : option TextEdit :=
  let endLine' :=
    Z.min (endLine (originalRange mapping)) (lineCount originalDoc - 1) in
  endText ← lineAt originalDoc endLine';
  Some (mkEdit (startLine (originalRange mapping)) 0 endLine' (jslen endText)
          (Some text)).

(** [applySandboxCmd] (extension.ts:204-249) for an active editor whose
    document has the text [newText]: the calls made, and whether the
    session was removed from the registry.  [originalDoc] and [applied]
    are the answers of [openTextDocument] and [applyEdit]. *)
Definition applySandboxCmd (mapping : option SandboxMapping)
    (newText : jsstring) (originalDoc : option TextDocument) (applied : bool)
    : list effect * bool :=
  match mapping with
  | None => ([ShowInformationMessage NotRegisteredSandbox], false)
  | Some mapping =>
      let uri := originalUri mapping in
      match originalDoc ≫= (fun d => replaceEdit mapping d newText) with
      | None => ([OpenTextDocument uri; ShowErrorMessage ErrorApplying], false)
      | Some edit =>
          if applied then
            ([OpenTextDocument uri; ApplyEdit uri [edit];
              OpenTextDocument uri; SaveDocument uri;
              ShowInformationMessage ChangesApplied]
             ++ match backupUri mapping with
                | Some b => [FsDelete b]
                | None => []
                end
             ++ [CloseActiveEditor], true)
          else
            ([OpenTextDocument uri; ApplyEdit uri [edit];
              ShowErrorMessage FailedToApply], false)
      end
  end.

(** The end of the [openInSandbox] handler (extension.ts:171-193): the
    mapping is registered, then the backup is persisted.  [dirOk] and
    [writeOk] say whether [createDirectory] and [writeFile] succeeded.
    The result is the mapping object as the handler leaves it, and the
    calls made. *)
Definition registerWithBackup (targetUri : string) (range : Range)
    (content : jsstring) (backupsDir backupPath : string)
    (dirOk writeOk : bool) : SandboxMapping * list effect :=
  let mapping := mkMapping targetUri range content false None None false in
  if negb dirOk then (mapping, [FsCreateDirectory backupsDir; ConsoleWarn])
  else if negb writeOk then
    (mapping, [FsCreateDirectory backupsDir; FsWriteFile backupPath content;
               ConsoleWarn])
  else
    (mkMapping targetUri range content false None (Some backupPath) false,
     [FsCreateDirectory backupsDir; FsWriteFile backupPath content]).

(** [findSymbolAtLine] of the single-region edition (extension.ts:35-50):
    an enclosing symbol is visited; what the search among its children
    returns is returned, the symbol itself when that is nothing. *)
Fixpoint visitSymbol (targetLine : Z) (symbol : DocumentSymbol) : DocumentSymbol :=
  match symbol with
  | Symbol _ _ chn =>
      match
        (fix find (symbols : list DocumentSymbol) : option DocumentSymbol :=
           match symbols with
           | [] => None
           | s :: rest =>
               if encloses targetLine s then Some (visitSymbol targetLine s)
               else find rest
           end) chn
      with
      | Some childMatch => childMatch
      | None => symbol
      end
  end.

Fixpoint findSymbolAtLine (symbols : list DocumentSymbol) (targetLine : Z)
    : option DocumentSymbol :=
  match symbols with
  | [] => None
  | symbol :: rest =>
      if encloses targetLine symbol then Some (visitSymbol targetLine symbol)
      else findSymbolAtLine rest targetLine
  end.

(** The lines [startLine, ..., endLine] of the loop (extension.ts:155). *)
Definition lineNumbers (startLine endLine : Z) : list Z :=
  (fun i : nat => startLine + Z.of_nat i)
    <$> seq 0 (Z.to_nat (endLine - startLine + 1)).

(** The snippet shown in the sandbox (extension.ts:154-158); [None] when
    [lineAt] throws. *)
Definition snippet (origDoc : TextDocument) (r : Range) : option jsstring :=
  snippetLines ← mapM (lineAt origDoc) (lineNumbers (startLine r) (endLine r));
  Some (join [LF] snippetLines).

End SingleRegion.

(** * Notions used in the statements *)

(** ** Texts and separators *)

Definition starts_no_digit (s : jsstring) : Prop :=
  match s with
  | [] => True
  | c :: _ => is_digit c = false
  end.

(** The text of a match: the literal, the id, the literal, the newline. *)
Definition is_newline (nl : jsstring) : Prop := nl = [LF] \/ nl = [CR; LF].
Definition all_digits (ds : jsstring) : Prop :=
  ds <> [] /\ Forall (fun c => is_digit c = true) ds.

Definition valid_id (i : jsstring) : Prop :=
  exists ds, all_digits ds /\ i = REGION_ ++ ds.

(** A separator line: a text that is exactly one match of the separator. *)
Definition is_separator_line (sep : jsstring) : Prop :=
  exists cap, match_separator sep = Some (cap, []).

(** A text is empty or ends with a line feed: it is made of whole lines. *)
Definition whole_lines (A : jsstring) : Prop := A = [] \/ last A = Some LF.

(** Whether the separator matches somewhere in a text. *)
Fixpoint has_separator (s : jsstring) : bool :=
  match s with
  | [] => false
  | _ :: t =>
      match match_separator s with
      | Some _ => true
      | None => has_separator t
      end
  end.

(** The pieces after the first one come in pairs: an id and its text. *)
Fixpoint flat_blocks (bs : list (jsstring * jsstring)) : list jsstring :=
  match bs with
  | [] => []
  | (i, c) :: r => i :: c :: flat_blocks r
  end.

(** One turn of the parse loop. *)
Definition store_block (m : gmap jsstring jsstring) (b : jsstring * jsstring)
    : gmap jsstring jsstring :=
  <[b.1 := replace_blank_tail b.2]> m.

(** The id and the text of the block the generator writes for a region. *)
Definition block_of (r : RegionMapping) : jsstring * jsstring :=
  (id r, originalContent r ++ [LF; LF]).

(** What is read back for each region of a rendered document: the code
    of the region and the entry of the parsed map. *)
Definition readBack (origDoc : TextDocument) (mergedRanges : list Range)
    : option (list (jsstring * option jsstring)) :=
  match generateFrom origDoc 0 mergedRanges with
  | None => None
  | Some (rs, text) =>
      match parseSandboxText text with
      | None => None
      | Some parsed =>
          Some ((fun r => (originalContent r, parsed !! id r)) <$> rs)
      end
  end.

(** The number of different ids among those read from a buffer. *)
Definition distinctIds (sandboxText : jsstring) : nat :=
  size (list_to_set (parsed_ids sandboxText) : gset jsstring).

(** ** Symbols *)

(** The path of the search: an enclosing symbol, then the first of its
    children that encloses the line, and so on down to a symbol none of
    whose children encloses the line. *)
Fixpoint descent (targetLine : Z) (symbol : DocumentSymbol) : list DocumentSymbol :=
  match symbol with
  | Symbol _ _ chn =>
      symbol ::
        (fix below (symbols : list DocumentSymbol) : list DocumentSymbol :=
           match symbols with
           | [] => []
           | s :: rest =>
               if encloses targetLine s then descent targetLine s else below rest
           end) chn
  end.

(** The symbols of a path that are valid containers, outermost first. *)
Definition containersOn (path : list DocumentSymbol) : list DocumentSymbol :=
  filter (fun s => isValidContainer (kind s) = true) path.

(** ** Ranges *)

(** The merge loop once its array is not empty: [cur] is the last element
    of [mergedRanges], the elements before it are final. *)
Fixpoint mergeFrom (cur : Range) (l : list Range) : list Range :=
  match l with
  | [] => [cur]
  | r :: l' =>
      if startLine r <=? endLine cur + 2
      then mergeFrom (mkRange (startLine cur) (Z.max (endLine cur) (endLine r))) l'
      else cur :: mergeFrom r l'
  end.

Definition starts_le (a b : Range) : Prop := startLine a <= startLine b.

(** [x] lies within [a]. *)
Definition within (x a : Range) : Prop :=
  startLine a <= startLine x /\ endLine x <= endLine a.

(** Each range starts more than two lines after the end of the one before. *)
Fixpoint gap_chain (l : list Range) : Prop :=
  match l with
  | a :: (b :: _) as l' => endLine a + 2 < startLine b /\ gap_chain l'
  | _ => True
  end.

(** The fixed window of step 2 (part_000:440). *)
Definition fallbackWindow (origDoc : TextDocument) (line : Z) : Range :=
  mkRange (Z.max 0 (line - 4)) (Z.min (lineCount origDoc - 1) (line + 4)).

(** ** The shift calculus as the specification words it *)

Definition lineCountOf (code : jsstring) : Z :=
  Z.of_nat (length (split_newlines code)).

(** Section 4.3, steps 1 to 5, over the regions' ranges paired with the
    number of lines of their new code. *)
Fixpoint shiftPerSpec (shift : Z) (rs : list (Range * Z)) : list Range :=
  match rs with
  | [] => []
  | (rg, newLineCount) :: rest =>
      let oldLineCount := endLine rg - startLine rg + 1 in
      let startLine' := startLine rg + shift in
      let endLine' := startLine' + newLineCount - 1 in
      mkRange startLine' endLine'
        :: shiftPerSpec (shift + (newLineCount - oldLineCount)) rest
  end.

Definition newLineCounts (parsed : gmap jsstring jsstring)
    (rs : list RegionMapping) : list (Range * Z) :=
  (fun r => (originalRange r, lineCountOf (default [] (parsed !! id r)))) <$> rs.

(** What the regions before index [i] have grown by. *)
Definition shiftBefore (rs : list (Range * Z)) (i : nat) : Z :=
  foldr (fun x acc => x.2 - (endLine x.1 - startLine x.1 + 1) + acc) 0 (take i rs).

(** The number of regions, from the first one on, whose id has a block in
    the parsed map: where the shift calculus stops. *)
Fixpoint knownPrefix (parsed : gmap jsstring jsstring) (rs : list RegionMapping)
    : nat :=
  match rs with
  | [] => 0
  | r :: rest =>
      match parsed !! id r with
      | Some _ => S (knownPrefix parsed rest)
      | None => 0
      end
  end.

(** ** Worlds *)

Definition rangesOf (w : World) (l : nat) : option (list Range) :=
  (fun m => originalRange <$> regions m) <$> heap w !! l.

Definition isApplyEdit (e : effect) : bool :=
  match e with ApplyEdit _ _ => true | _ => false end.
Definition isFsWriteFile (e : effect) : bool :=
  match e with FsWriteFile _ _ => true | _ => false end.

(** The outcome of a sync that the guard turned down: the error message
    was shown and nothing else happened. *)
Definition sync_rejected (w w' : World) : Prop :=
  log w' = log w ++ [ShowErrorMessage SeparatorDeleted] /\
  heap w' = heap w /\ tasks w' = tasks w /\ sandboxMap w' = sandboxMap w.

(** What holds of a session while its cycle [tid] is under way: the
    registry and the live flag are as they were, and the busy flag is set
    exactly as long as the cycle is suspended, at stage [st]. *)
Definition cycleInv (w0 : World) (l tid : nat) (live : bool)
    (st : option stage) (w : World) : Prop :=
  sandboxMap w = sandboxMap w0 /\
  exists m, heap w !! l = Some m /\ isLive m = live /\
    match tasks w !! tid with
    | Some tk => taskMapping tk = l /\ Some (taskStage tk) = st /\ mutex m = true
    | None => mutex m = false
    end.

(** The session [l] is busy with the cycle [tid], suspended at [st] with
    the blocks [parsed]; apart from the busy flag its mapping is [m]. *)
Definition cycleAt (w : World) (l tid : nat) (m : SandboxMapping)
    (parsed : gmap jsstring jsstring) (st : stage) : Prop :=
  heap w !! l = Some (set_mutex true m) /\
  tasks w !! tid = Some (mkTask l parsed st).

(** The cycle [tid] is over and the session [l] is not busy; apart from
    the busy flag its mapping is [m]. *)
Definition cycleOver (w : World) (l tid : nat) (m : SandboxMapping) : Prop :=
  heap w !! l = Some (set_mutex false m) /\ tasks w !! tid = None.

(** ** Lines and texts *)

(** The number of line feeds of a text. *)
Definition countLF (s : jsstring) : nat := length (filter (fun c => c = LF) s).

(** Lines, each followed by the end-of-line sequence. *)
Definition withEol (eol : jsstring) (ls : list jsstring) : jsstring :=
  concat ((fun l => l ++ eol) <$> ls).

(** The lines of a range. *)
Definition linesOf (d : TextDocument) (r : Range) : list jsstring :=
  take (Z.to_nat (endLine r - startLine r + 1))
    (drop (Z.to_nat (startLine r)) (docLines d)).

(** ** Regions and ranges *)

(** The number of lines of the range of a region. *)
Definition spanOf (r : RegionMapping) : Z :=
  endLine (originalRange r) - startLine (originalRange r) + 1.

(** The range of a region has as many lines as its code in the parsed map. *)
Definition fitted (parsed : gmap jsstring jsstring) (r : RegionMapping) : Prop :=
  exists code, parsed !! id r = Some code /\ spanOf r = lineCountOf code.

(** A line lies in a range; a line is a line of a document. *)
Definition contains (r : Range) (line : Z) : Prop :=
  startLine r <= line <= endLine r.

Definition onLine (d : TextDocument) (line : Z) : Prop := 0 <= line < lineCount d.

(** The first and the last line of a range are those of ranges of
    [inputs]. *)
Definition boundsFrom (inputs : list Range) (a : Range) : Prop :=
  (exists r, r ∈ inputs /\ startLine a = startLine r) /\
  (exists r, r ∈ inputs /\ endLine a = endLine r).

(** ** What holds of every world the extension can reach *)

Record wf_world (w : World) : Prop := mkWf {
  (* objects are allocated below [nextId]; a set busy flag has its cycle *)
  wf_heap : forall l m, heap w !! l = Some m ->
    (l < nextId w)%nat /\
    (mutex m = true -> exists t tk, tasks w !! t = Some tk /\ taskMapping tk = l);
  (* the registry points to objects *)
  wf_registry : forall k l, sandboxMap w !! k = Some l -> is_Some (heap w !! l);
  (* a pending timer is the [debounce] of the object it closes over *)
  wf_timers : forall h l k, timers w !! h = Some (l, k) ->
    (h < nextId w)%nat /\ exists m, heap w !! l = Some m /\ debounce m = Some h;
  (* a suspended cycle holds the busy flag of its object *)
  wf_tasks : forall t tk, tasks w !! t = Some tk ->
    (t < nextId w)%nat /\ exists m, heap w !! taskMapping tk = Some m /\ mutex m = true;
  (* and is the only one of that object *)
  wf_single : forall t1 t2 tk1 tk2,
    tasks w !! t1 = Some tk1 -> tasks w !! t2 = Some tk2 ->
    taskMapping tk1 = taskMapping tk2 -> t1 = t2
}.

(** ** What a session keeps for its whole life *)

(** The artifact, the ids and the backup texts of a mapping object. *)
Definition sessionIdentity (m : SandboxMapping)
    : string * list jsstring * list jsstring * option string :=
  (originalUri m, id <$> regions m, originalContent <$> regions m, backupUri m).

(** Every object of [h] is in [h'] with the same identity. *)
Definition keepsSessions (h h' : gmap nat SandboxMapping) : Prop :=
  forall l m, h !! l = Some m ->
    exists m', h' !! l = Some m' /\ sessionIdentity m' = sessionIdentity m.

(** Events that neither switch live sync nor revert. *)
Definition quiet (e : event) : bool :=
  match e with
  | ToggleLiveSync _ | DiscardSandbox _ _ => false
  | _ => true
  end.

(** No session is live, no timer is pending, no cycle is under way, and
    no edit was submitted. *)
Definition neverLive (w : World) : Prop :=
  timers w = ∅ /\ tasks w = ∅ /\
  (forall l m, heap w !! l = Some m -> isLive m = false) /\
  forallb (fun e => negb (isApplyEdit e)) (log w) = true.

(** * Scenarios

    The scenario of the specification: an artifact of 20 lines with two
    functions, on lines 0 to 5 and 10 to 18, sliced at lines 2 and 15. *)

Definition artifactUri : string := "file:///src/app.ts".
Definition sandboxUri : string := "untitled:Untitled-1".

Definition unlines (ls : list jsstring) : jsstring := join [LF] ls.

Definition artifact : TextDocument :=
  mkDoc ((fun i => str ("line " +:+ pretty i)) <$> seq 0 20) [LF].

Definition artifactSymbols : list DocumentSymbol :=
  [Symbol Function_ (mkRange 0 5) []; Symbol Function_ (mkRange 10 18) []].

(** A variable that holds a function, which holds a method and a
    second function; line 4 lies in all of them. *)
Definition nestedSymbols : list DocumentSymbol :=
  [Symbol Variable_ (mkRange 0 19)
     [Symbol Property (mkRange 0 1) [];
      Symbol Function_ (mkRange 2 12)
        [Symbol Method (mkRange 3 8) [Symbol Variable_ (mkRange 4 4) []];
         Symbol Function_ (mkRange 4 6) []]]].

Definition region0Code : jsstring :=
  unlines ((fun i => str ("line " +:+ pretty i)) <$> seq 0 6).
Definition region1Code : jsstring :=
  unlines ((fun i => str ("line " +:+ pretty i)) <$> seq 10 9).
Definition shortCode : jsstring := unlines [str "a"; str "b"; str "c"].

Definition slicedRegions : list RegionMapping :=
  [mkRegion (region_id 0) (mkRange 0 5) region0Code;
   mkRegion (region_id 1) (mkRange 10 18) region1Code].

Definition sliced : World :=
  step initial (OpenFileSandbox artifactUri [2; 15] artifact artifactSymbols sandboxUri).

(** The buffer after region_0 was cut down from six lines to three. *)
Definition editedText : jsstring :=
  regionBlock (region_id 0) shortCode ++ regionBlock (region_id 1) region1Code.

(** The same buffer without the separator line of region_1. *)
Definition deletedLineText : jsstring :=
  regionBlock (region_id 0) shortCode ++ region1Code ++ [LF; LF].

(** A buffer whose second separator names a region the session does not
    have, and one whose second separator was duplicated. *)
Definition unknownIdText : jsstring :=
  regionBlock (region_id 0) shortCode ++ regionBlock (region_id 7) region1Code.
Definition duplicateIdText : jsstring :=
  regionBlock (region_id 0) shortCode ++ regionBlock (region_id 1) (str "x")
  ++ regionBlock (region_id 1) (str "y").

(** Live sync is switched on and the buffer is edited: timer 1 is set. *)
Definition liveWith (text : jsstring) : World :=
  run sliced [ToggleLiveSync (Some sandboxUri);
              DidChangeTextDocument sandboxUri true text].

Definition liveEdited : World := liveWith editedText.

(** The mapping object of the scenario at that point. *)
Definition liveMapping : SandboxMapping :=
  mkMapping artifactUri slicedRegions true (Some 1%nat) None false.

(** A whole cycle where the environment accepts everything. *)
Definition fullCycle : list event :=
  [TimerFired 1; OpenSettled 2 (Some artifact);
   ApplyEditSettled 2 (Some true); SaveSettled 2 (Some true)].

Definition synced : World := run liveEdited fullCycle.

Definition awaitingSave : World :=
  run liveEdited [TimerFired 1; OpenSettled 2 (Some artifact);
                  ApplyEditSettled 2 (Some true)].

(** The cycle of the buffer with the unknown id, once [applyEdit] has
    answered [true]. *)
Definition unknownAwaitingSave : World :=
  run (liveWith unknownIdText)
    [TimerFired 1; OpenSettled 2 (Some artifact); ApplyEditSettled 2 (Some true)].

Definition editedParsed : gmap jsstring jsstring :=
  default ∅ (parseSandboxText editedText).

(** The session is ended while timer 1 is pending. *)
Definition reverted : World :=
  step liveEdited (DiscardSandbox (Some sandboxUri) (Some artifact)).
Definition accepted : World :=
  step liveEdited (ApplySandbox (Some sandboxUri)).
Definition staleCycle : list event :=
  [TimerFired 1; OpenSettled 2 (Some artifact)].

Definition restoreEdits : list TextEdit :=
  [mkEdit 0 0 5 6 (Some region0Code); mkEdit 10 0 18 7 (Some region1Code)].
Definition staleEdits : list TextEdit :=
  [mkEdit 0 0 5 6 (Some shortCode); mkEdit 10 0 18 7 (Some region1Code)].

(** The buffer is edited with live sync off (the default), then accepted. *)
Definition editedOffline : World :=
  step sliced (DidChangeTextDocument sandboxUri true editedText).
Definition acceptedOffline : World :=
  step editedOffline (ApplySandbox (Some sandboxUri)).

(** Documents for the round trip: a line that is a separator, and a line
    that ends with a carriage return. *)
Definition separatorDoc : TextDocument :=
  mkDoc [SEP_OPEN ++ region_id 7 ++ SEP_CLOSE; str "x"] [LF].
Definition carriageDoc : TextDocument := mkDoc [str "a" ++ [CR]] [LF].

(** The regions of the scenario after its cycle. *)
Definition syncedRegions : list RegionMapping :=
  [mkRegion (region_id 0) (mkRange 0 2) region0Code;
   mkRegion (region_id 1) (mkRange 7 15) region1Code].

(** The events that lead to [liveEdited], and a session that is edited
    and accepted with live sync off. *)
Definition liveEvents : list event :=
  [OpenFileSandbox artifactUri [2; 15] artifact artifactSymbols sandboxUri;
   ToggleLiveSync (Some sandboxUri);
   DidChangeTextDocument sandboxUri true editedText].
Definition offlineEvents : list event :=
  [OpenFileSandbox artifactUri [2; 15] artifact artifactSymbols sandboxUri;
   DidChangeTextDocument sandboxUri true editedText;
   ApplySandbox (Some sandboxUri)].

(** * Properties *)

(** ** The separator expression *)

Section Separator.

Implicit Types s r p cur : jsstring.

Lemma strip_prefix_Some p s r : strip_prefix p s = Some r <-> s = p ++ r.
Proof.
  revert s. induction p as [|a p IH]; intros s; simpl.
  - split; congruence.
  - destruct s as [|b s]; [split; discriminate|].
    destruct (N.eqb_spec a b) as [->|Hne].
    + rewrite IH. split; congruence.
    + split; [discriminate | congruence].
Qed.

Lemma strip_prefix_app p r : strip_prefix p (p ++ r) = Some r.
Proof. by apply strip_prefix_Some. Qed.

Lemma take_digits_spec s d r :
  take_digits s = (d, r) ->
  s = d ++ r /\ Forall (fun c => is_digit c = true) d /\ starts_no_digit r.
Proof.
  revert d r. induction s as [|c t IH]; intros d r; simpl.
  - intros [= <- <-]. by repeat split.
  - destruct (is_digit c) eqn:Hc.
    + destruct (take_digits t) as [d' r'] eqn:Ht. intros [= <- <-].
      destruct (IH _ _ eq_refl) as (-> & Hd & Hr).
      repeat split; [by constructor | done].
    + intros [= <- <-]. repeat split; [constructor | done].
Qed.

Lemma take_digits_app d r :
  Forall (fun c => is_digit c = true) d -> starts_no_digit r ->
  take_digits (d ++ r) = (d, r).
Proof.
  induction 1 as [|c d Hc _ IH]; intros Hr; simpl.
  - destruct r as [|c t]; [done|]. simpl in *. by rewrite Hr.
  - by rewrite Hc, IH.
Qed.

Lemma match_newline_Some s r :
  match_newline s = Some r <-> s = LF :: r \/ s = CR :: LF :: r.
Proof.
  unfold match_newline. destruct s as [|c t].
  { split; [discriminate | intros [?|?]; discriminate]. }
  destruct (N.eqb_spec c CR) as [->|Hcr].
  - destruct t as [|d t'].
    { split; [discriminate | intros [?|?]; discriminate]. }
    destruct (N.eqb_spec d LF) as [->|Hlf].
    + split; [intros [= ->]; by right | intros [[=]|[= ->]]; done].
    + split; [discriminate | intros [[=]|[= ? ?]]; congruence].
  - destruct (N.eqb_spec c LF) as [->|Hlf].
    + split; [intros [= ->]; by left | intros [[= ->]|[=]]; done].
    + split; [discriminate | intros [[= ? ?]|[= ? ?]]; congruence].
Qed.

Lemma SEP_CLOSE_no_digit r : starts_no_digit (SEP_CLOSE ++ r).
Proof. reflexivity. Qed.

Lemma SEP_OPEN_not_nil r : SEP_OPEN ++ r <> [].
Proof. discriminate. Qed.

Lemma LF_not_in_literals :
  (LF ∉ SEP_OPEN) /\ (LF ∉ REGION_) /\ (LF ∉ SEP_CLOSE).
Proof. repeat split; compute_done. Qed.

Lemma digit_not_LF c : is_digit c = true -> c <> LF.
Proof. intros H ->. discriminate. Qed.

#[local] Opaque SEP_OPEN SEP_CLOSE REGION_.

Lemma match_separator_Some s cap rest :
  match_separator s = Some (cap, rest) <->
  exists ds nl, all_digits ds /\ is_newline nl /\ cap = REGION_ ++ ds /\
    s = SEP_OPEN ++ REGION_ ++ ds ++ SEP_CLOSE ++ nl ++ rest.
Proof.
  unfold match_separator. split.
  - destruct (strip_prefix SEP_OPEN s) as [s1|] eqn:H1; simpl; [|done].
    destruct (strip_prefix REGION_ s1) as [s2|] eqn:H2; simpl; [|done].
    destruct (take_digits s2) as [ds s3] eqn:H3.
    destruct ds as [|d0 ds]; [done|].
    destruct (strip_prefix SEP_CLOSE s3) as [s4|] eqn:H4; simpl; [|done].
    destruct (match_newline s4) as [s5|] eqn:H5; simpl; [|done].
    intros [= <- <-].
    apply strip_prefix_Some in H1, H2, H4.
    apply take_digits_spec in H3 as (H3 & Hd & _).
    apply match_newline_Some in H5.
    exists (d0 :: ds), (if decide (s4 = LF :: s5) then [LF] else [CR; LF]).
    split; [by split|]. split; [case_decide; [by left | by right]|].
    split; [done|]. subst s s1 s2 s3.
    do 4 f_equal. case_decide; [done|]. by destruct H5.
  - intros (ds & nl & [Hne Hd] & Hnl & -> & ->).
    rewrite strip_prefix_app. simpl.
    rewrite strip_prefix_app. simpl.
    rewrite take_digits_app; [|done|apply SEP_CLOSE_no_digit].
    destruct ds as [|d0 ds]; [done|].
    rewrite strip_prefix_app. simpl.
    replace (match_newline (nl ++ rest)) with (Some rest); [done|].
    symmetry. apply match_newline_Some. destruct Hnl as [->| ->]; auto.
Qed.

(** The generator's separator line is a match. *)
Lemma match_separator_line ds rest :
  all_digits ds ->
  match_separator (separator_line (REGION_ ++ ds) ++ rest)
  = Some (REGION_ ++ ds, rest).
Proof.
  intros Hd. apply match_separator_Some. exists ds, [LF].
  split; [done|]. split; [by left|]. split; [done|].
  unfold separator_line. by rewrite <- !app_assoc.
Qed.

(** A match is never empty: what follows it is shorter. *)
Lemma match_separator_shorter s cap rest :
  match_separator s = Some (cap, rest) ->
  exists m, m <> [] /\ s = m ++ rest.
Proof.
  intros (ds & nl & _ & _ & _ & ->)%match_separator_Some.
  exists (SEP_OPEN ++ REGION_ ++ ds ++ SEP_CLOSE ++ nl).
  split; [apply SEP_OPEN_not_nil|]. by rewrite <- !app_assoc.
Qed.

End Separator.

(** ** [split] on the separator *)

Section Split.

Implicit Types s r cur : jsstring.

Lemma split_from_skip (a b : jsstring) cur :
  split_from (length a) cur (a ++ b) = split_from 0 cur b.
Proof.
  induction a as [|x a IH]; simpl; [|done].
  by destruct b.
Qed.

(** The two equations of the ECMAScript algorithm. *)
Lemma split_from_match s cap rest cur :
  match_separator s = Some (cap, rest) ->
  split_from 0 cur s = cur :: cap :: split_from 0 [] rest.
Proof.
  intros Hm. destruct (match_separator_shorter _ _ _ Hm) as (m & Hne & ->).
  destruct m as [|c m]; [done|].
  change ((c :: m) ++ rest) with (c :: (m ++ rest)) in *.
  cbn [split_from]. rewrite Hm. do 2 f_equal.
  rewrite length_app, Nat.add_sub. apply split_from_skip.
Qed.

Lemma split_from_nomatch c (t : jsstring) cur :
  match_separator (c :: t) = None ->
  split_from 0 cur (c :: t) = split_from 0 (cur ++ [c]) t.
Proof. intros Hm. cbn [split_from]. by rewrite Hm. Qed.

(** The first piece starts with whatever was already collected. *)
Lemma split_from_cur k cur s :
  exists p ps, split_from k [] s = p :: ps /\
               split_from k cur s = (cur ++ p) :: ps.
Proof.
  revert k cur. induction s as [|c t IH]; intros k cur.
  - exists [], []. simpl. by rewrite app_nil_r.
  - destruct k as [|k]; [|apply IH].
    cbn [split_from]. destruct (match_separator (c :: t)) as [[cap rest]|].
    + exists [], (cap :: split_from (length t - length rest) [] t).
      by rewrite app_nil_r.
    + destruct (IH 0%nat [c]) as (p & ps & H0 & H1).
      destruct (IH 0%nat (cur ++ [c])) as (p' & ps' & H0' & H1').
      rewrite H0 in H0'. injection H0' as <- <-.
      exists ([c] ++ p), ps. split; [done|].
      by rewrite H1', <- app_assoc.
Qed.

Lemma tail_split_from_cur cur s :
  tail (split_from 0 cur s) = tail (split_from 0 [] s).
Proof.
  destruct (split_from_cur 0 cur s) as (p & ps & -> & ->). done.
Qed.

(** Induction along the scan of [split]. *)
Lemma split_scan_ind (P : jsstring -> Prop) :
  P [] ->
  (forall s cap rest, match_separator s = Some (cap, rest) -> P rest -> P s) ->
  (forall c t, match_separator (c :: t) = None -> P t -> P (c :: t)) ->
  forall s, P s.
Proof.
  intros Hnil Hmatch Hstep s.
  remember (length s) as n eqn:Hn. revert s Hn.
  induction (lt_wf n) as [n _ IH]. intros s ->.
  destruct s as [|c t]; [done|].
  destruct (match_separator (c :: t)) as [[cap rest]|] eqn:Hm.
  - apply (Hmatch _ _ _ Hm).
    destruct (match_separator_shorter _ _ _ Hm) as (m & Hne & Heq).
    eapply IH; [|reflexivity]. rewrite Heq, length_app.
    destruct m; [done|simpl; lia].
  - apply Hstep; [done|]. eapply IH; [|reflexivity]. simpl; lia.
Qed.

(** ** The ids and the code blocks read from a buffer *)

Lemma parsed_ids_nil : parsed_ids [] = [].
Proof. reflexivity. Qed.

Lemma parsed_ids_match s cap rest :
  match_separator s = Some (cap, rest) ->
  parsed_ids s = cap :: parsed_ids rest.
Proof.
  intros Hm. unfold parsed_ids, split_SEPARATOR_REGEX.
  rewrite (split_from_match _ _ _ _ Hm). simpl.
  destruct (split_from_cur 0 [] rest) as (p & ps & -> & _). done.
Qed.

Lemma parsed_ids_nomatch c (t : jsstring) :
  match_separator (c :: t) = None -> parsed_ids (c :: t) = parsed_ids t.
Proof.
  intros Hm. unfold parsed_ids, split_SEPARATOR_REGEX.
  rewrite (split_from_nomatch _ _ _ Hm). by rewrite tail_split_from_cur.
Qed.

End Split.

(** ** A match lies within one line *)

Section Locality.

Implicit Types s r cur A B : jsstring.

(** The text of a match has one line feed, its last code unit. *)
Lemma match_text_one_LF ds nl :
  all_digits ds -> is_newline nl ->
  exists pre, SEP_OPEN ++ REGION_ ++ ds ++ SEP_CLOSE ++ nl = pre ++ [LF]
              /\ LF ∉ pre.
Proof.
  intros [_ Hd] Hnl.
  destruct LF_not_in_literals as (H1 & H2 & H3).
  assert (LF ∉ ds) as H4.
  { intros Hin. rewrite Forall_forall in Hd.
    by apply (digit_not_LF LF (Hd _ Hin)). }
  destruct Hnl as [-> | ->].
  - exists (SEP_OPEN ++ REGION_ ++ ds ++ SEP_CLOSE).
    split; [by rewrite <- !app_assoc|].
    rewrite !elem_of_app. tauto.
  - exists (SEP_OPEN ++ REGION_ ++ ds ++ SEP_CLOSE ++ [CR]).
    split; [by rewrite <- !app_assoc|].
    rewrite !elem_of_app, list_elem_of_singleton.
    intros [?|[?|[?|[?|?]]]]; try tauto. discriminate.
Qed.

(** A match at the head of [s] is a match at the head of [s ++ B]. *)
Lemma match_separator_app s B cap rest :
  match_separator s = Some (cap, rest) ->
  match_separator (s ++ B) = Some (cap, rest ++ B).
Proof.
  intros (ds & nl & Hd & Hnl & -> & ->)%match_separator_Some.
  apply match_separator_Some. exists ds, nl.
  split; [done|]. split; [done|]. split; [done|]. by rewrite <- !app_assoc.
Qed.

(** A match that starts in a text ending with a line feed ends in it. *)
Lemma match_separator_local A B cap rest :
  last A = Some LF ->
  match_separator (A ++ B) = Some (cap, rest) ->
  exists rest', match_separator A = Some (cap, rest') /\ rest = rest' ++ B.
Proof.
  intros [A0 ->]%last_Some (ds & nl & Hd & Hnl & -> & Heq)%match_separator_Some.
  destruct (match_text_one_LF ds nl Hd Hnl) as (pre & Hm & Hpre).
  assert ((A0 ++ [LF]) ++ B = (pre ++ [LF]) ++ rest) as Heq'.
  { rewrite Heq, <- Hm. by rewrite <- !app_assoc. }
  apply app_eq_inv in Heq' as [(k & HA & Hrest) | (k & Hm' & HB)].
  - exists k. split; [|done].
    apply match_separator_Some. exists ds, nl.
    split; [done|]. split; [done|]. split; [done|].
    rewrite HA, <- Hm. by rewrite <- !app_assoc.
  - destruct k as [|x k _] using rev_ind.
    + rewrite app_nil_r in Hm'. exists []. simpl in HB. subst B.
      split; [|done].
      apply match_separator_Some. exists ds, nl.
      split; [done|]. split; [done|]. split; [done|].
      by rewrite <- Hm', <- Hm, app_nil_r.
    + exfalso. rewrite !app_assoc in Hm'.
      apply app_inj_tail in Hm' as [Hpre' _].
      apply Hpre. rewrite Hpre'. rewrite !elem_of_app, list_elem_of_singleton.
      auto.
Qed.

Lemma match_separator_local_None A B :
  last A = Some LF ->
  match_separator A = None -> match_separator (A ++ B) = None.
Proof.
  intros HA Hn. destruct (match_separator (A ++ B)) as [[cap rest]|] eqn:Hm; [|done].
  destruct (match_separator_local _ _ _ _ HA Hm) as (r & Hr & _). congruence.
Qed.

Lemma whole_lines_tail c (t : jsstring) : whole_lines (c :: t) -> whole_lines t.
Proof.
  intros [?|H]; [done|]. destruct t as [|d t]; [by left|]. by right.
Qed.

Lemma whole_lines_suffix (m rest : jsstring) :
  whole_lines (m ++ rest) -> whole_lines rest.
Proof.
  induction m as [|c m IH]; [done|]. intros H. by apply IH, (whole_lines_tail c).
Qed.

Lemma whole_lines_cons_last c (t : jsstring) :
  whole_lines (c :: t) -> last (c :: t) = Some LF.
Proof. by intros [?|?]. Qed.

(** The ids read from whole lines followed by more text. *)
Lemma parsed_ids_app A B :
  whole_lines A -> parsed_ids (A ++ B) = parsed_ids A ++ parsed_ids B.
Proof.
  revert B. induction A as [|s cap rest Hm IH|c t Hm IH] using split_scan_ind;
    intros B HA.
  - done.
  - rewrite (parsed_ids_match _ _ _ Hm).
    rewrite (parsed_ids_match _ _ _ (match_separator_app _ B _ _ Hm)).
    simpl. f_equal. apply IH.
    destruct (match_separator_shorter _ _ _ Hm) as (m & _ & ->).
    by apply whole_lines_suffix in HA.
  - rewrite (parsed_ids_nomatch _ _ Hm).
    change ((c :: t) ++ B) with (c :: (t ++ B)).
    rewrite parsed_ids_nomatch.
    + apply IH. by apply whole_lines_tail in HA.
    + apply (match_separator_local_None (c :: t));
        [by apply whole_lines_cons_last | done].
Qed.

(** Whole lines without a separator are taken into the current piece. *)
Lemma split_from_separator_free X B cur :
  has_separator X = false -> whole_lines X ->
  split_from 0 cur (X ++ B) = split_from 0 (cur ++ X) B.
Proof.
  revert cur. induction X as [|c X IH]; intros cur Hfree HX.
  - by rewrite app_nil_r.
  - cbn [has_separator] in Hfree.
    destruct (match_separator (c :: X)) eqn:Hm; [done|].
    change ((c :: X) ++ B) with (c :: (X ++ B)).
    rewrite split_from_nomatch.
    + rewrite IH; [|done|by apply whole_lines_tail in HX].
      by rewrite <- app_assoc.
    + apply (match_separator_local_None (c :: X));
        [by apply whole_lines_cons_last | done].
Qed.

End Locality.

(** ** The parse loop *)

Section Parse.

Implicit Types s cur : jsstring.
Implicit Types bs : list (jsstring * jsstring).
Implicit Types m : gmap jsstring jsstring.

Lemma split_blocks s cur : exists bs, tail (split_from 0 cur s) = flat_blocks bs.
Proof.
  revert cur. induction s as [|s cap rest Hm IH|c t Hm IH] using split_scan_ind;
    intros cur.
  - by exists [].
  - rewrite (split_from_match _ _ _ _ Hm). simpl.
    destruct (IH []) as (bs & Hbs).
    destruct (split_from_cur 0 [] rest) as (p & ps & Hp & _).
    rewrite Hp in Hbs |- *. simpl in Hbs. exists ((cap, p) :: bs).
    simpl. by rewrite Hbs.
  - rewrite (split_from_nomatch _ _ _ Hm). apply IH.
Qed.

Lemma part_ids_flat bs : part_ids (flat_blocks bs) = bs.*1.
Proof. induction bs as [|[i c] r IH]; simpl; [done|]. by rewrite IH. Qed.

Lemma parseCodeBlocks_flat bs m :
  parseCodeBlocks (flat_blocks bs) m = Some (foldl store_block m bs).
Proof.
  revert m. induction bs as [|[i c] r IH]; intros m; simpl; [done|]. apply IH.
Qed.

(** The loop never reads past the end of [parts]. *)
Lemma parseSandboxText_total s : is_Some (parseSandboxText s).
Proof.
  unfold parseSandboxText, split_SEPARATOR_REGEX.
  destruct (split_blocks s []) as (bs & ->).
  rewrite parseCodeBlocks_flat. by eexists.
Qed.

Lemma dom_store_blocks bs m :
  dom (foldl store_block m bs) = dom m ∪ list_to_set bs.*1.
Proof.
  revert m. induction bs as [|[i c] r IH]; intros m; simpl.
  - by rewrite union_empty_r_L.
  - rewrite IH. unfold store_block. simpl. rewrite dom_insert_L.
    by rewrite (union_comm_L {[i]}), <- union_assoc_L.
Qed.

Lemma lookup_store_blocks_notin bs m i :
  i ∉ bs.*1 -> foldl store_block m bs !! i = m !! i.
Proof.
  revert m. induction bs as [|[j c] r IH]; intros m Hi; simpl; [done|].
  simpl in Hi. apply not_elem_of_cons in Hi as [Hne Hi].
  rewrite IH by done. unfold store_block. simpl. by rewrite lookup_insert_ne.
Qed.

Lemma lookup_store_blocks bs m i c :
  NoDup bs.*1 -> (i, c) ∈ bs ->
  foldl store_block m bs !! i = Some (replace_blank_tail c).
Proof.
  revert m. induction bs as [|[j d] r IH]; intros m Hnd Hin; simpl.
  - by apply elem_of_nil in Hin.
  - simpl in Hnd. apply NoDup_cons in Hnd as [Hj Hnd].
    apply elem_of_cons in Hin as [[= -> ->] | Hin].
    + rewrite lookup_store_blocks_notin by done.
      unfold store_block. simpl. by rewrite lookup_insert_eq.
    + by apply IH.
Qed.

(** The keys of the parsed map are the ids read from the buffer. *)
Lemma parseSandboxText_dom s m :
  parseSandboxText s = Some m -> dom m = list_to_set (parsed_ids s).
Proof.
  unfold parseSandboxText, parsed_ids, split_SEPARATOR_REGEX.
  destruct (split_blocks s []) as (bs & ->).
  rewrite parseCodeBlocks_flat, part_ids_flat. intros [= <-].
  by rewrite dom_store_blocks, dom_empty_L, union_empty_l_L.
Qed.

Lemma parseSandboxText_size s m :
  parseSandboxText s = Some m -> NoDup (parsed_ids s) ->
  size m = length (parsed_ids s).
Proof.
  intros Hp Hnd. rewrite <- size_dom, (parseSandboxText_dom _ _ Hp).
  by apply size_list_to_set.
Qed.

End Parse.

(** ** The guard on the number of parsed blocks *)

Lemma mutex_set_and_cleared (hp : gmap nat SandboxMapping) l mapping :
  hp !! l = Some mapping -> mutex mapping = false ->
  alter (set_mutex false) l (alter (set_mutex true) l hp) = hp.
Proof.
  intros Hl Hm. rewrite alter_alter_eq. apply alter_id.
  intros x Hx. rewrite Hl in Hx. injection Hx as <-.
  destruct mapping; simpl in *. by subst.
Qed.

Lemma guard_rejects w h l docKey mapping sandboxText parsed :
  timers w !! h = Some (l, docKey) -> heap w !! l = Some mapping ->
  mutex mapping = false -> buffers w !! docKey = Some sandboxText ->
  parseSandboxText sandboxText = Some parsed ->
  size parsed <> length (regions mapping) ->
  sync_rejected w (step w (TimerFired h)).
Proof.
  intros Ht Hl Hm Hb Hp Hsz. unfold step, timerCallback.
  rewrite Ht. simpl. rewrite Hl, Hm. simpl. rewrite Hb. simpl. rewrite Hp.
  rewrite bool_decide_eq_true_2 by done.
  unfold sync_rejected, finishCycle; simpl.
  split; [done|]. split; [|done]. by apply (mutex_set_and_cleared _ _ mapping).
Qed.

Lemma guard_passes w h l docKey mapping sandboxText parsed :
  timers w !! h = Some (l, docKey) -> heap w !! l = Some mapping ->
  mutex mapping = false -> buffers w !! docKey = Some sandboxText ->
  parseSandboxText sandboxText = Some parsed ->
  size parsed = length (regions mapping) ->
  log (step w (TimerFired h)) = log w ++ [OpenTextDocument (originalUri mapping)] /\
  heap (step w (TimerFired h)) !! l = Some (set_mutex true mapping) /\
  tasks (step w (TimerFired h)) =
    <[nextId w := mkTask l parsed AwaitOpenTextDocument]> (tasks w).
Proof.
  intros Ht Hl Hm Hb Hp Hsz. unfold step, timerCallback.
  rewrite Ht. simpl. rewrite Hl, Hm. simpl. rewrite Hb. simpl. rewrite Hp.
  rewrite bool_decide_eq_false_2 by (intros ?; done). simpl.
  by rewrite lookup_alter_eq, Hl.
Qed.

Lemma parsed_ids_delete_line (A sep B : jsstring) :
  whole_lines A -> is_separator_line sep ->
  exists cap, parsed_ids (A ++ sep ++ B) = parsed_ids A ++ cap :: parsed_ids B /\
              parsed_ids (A ++ B) = parsed_ids A ++ parsed_ids B.
Proof.
  intros HA [cap Hsep]. exists cap.
  rewrite (parsed_ids_app A (sep ++ B)), (parsed_ids_app A B) by done.
  split; [|done]. f_equal.
  by apply parsed_ids_match, (match_separator_app sep B cap []).
Qed.

Lemma deleted_line_fewer_ids (A sep B : jsstring) :
  whole_lines A -> is_separator_line sep ->
  length (parsed_ids (A ++ sep ++ B)) = S (length (parsed_ids (A ++ B))).
Proof.
  intros HA Hsep.
  destruct (parsed_ids_delete_line A sep B HA Hsep) as (cap & -> & ->).
  rewrite !length_app. simpl. lia.
Qed.

Lemma size_list_to_set_le (l : list jsstring) :
  (size (list_to_set l : gset jsstring) <= length l)%nat.
Proof.
  induction l as [|x l IH].
  - by rewrite list_to_set_nil, size_empty.
  - rewrite list_to_set_cons, size_union_alt, size_singleton. simpl.
    assert (size (list_to_set l ∖ {[x]} : gset jsstring)
            <= size (list_to_set l : gset jsstring))%nat.
    { by apply subseteq_size, subseteq_difference_l. }
    lia.
Qed.

Lemma parseSandboxText_distinct s m :
  parseSandboxText s = Some m -> size m = distinctIds s.
Proof.
  intros Hp. unfold distinctIds.
  by rewrite <- size_dom, (parseSandboxText_dom _ _ Hp).
Qed.

Lemma distinctIds_le s : (distinctIds s <= length (parsed_ids s))%nat.
Proof. apply size_list_to_set_le. Qed.

Lemma distinctIds_NoDup s :
  NoDup (parsed_ids s) -> distinctIds s = length (parsed_ids s).
Proof. apply size_list_to_set. Qed.

(** C2: what the guard on the number of parsed blocks does.  When the timer
    of a session that is not busy fires, the sync is turned down, with the
    separator error as the only thing that happens (no edit submitted, no
    cycle left pending, mapping objects, ranges and registry as before),
    exactly when the number of different ids read from the buffer is not
    the number of regions.  That is so whenever fewer ids than regions are
    read, whenever the ids read are all different and their number is not
    the number of regions, and after one separator line was deleted from a
    buffer that had as many separators as the session has regions.  It is
    not so for the buffer of the scenario in which a separator was
    duplicated: three ids are read for two regions, and the edit is
    submitted. *)
Theorem sync_aborts_on_delimiter_count :
  (forall w h l docKey mapping sandboxText,
     timers w !! h = Some (l, docKey) -> heap w !! l = Some mapping ->
     mutex mapping = false -> buffers w !! docKey = Some sandboxText ->
     (sync_rejected w (step w (TimerFired h)) <->
      distinctIds sandboxText <> length (regions mapping)) /\
     ((length (parsed_ids sandboxText) < length (regions mapping))%nat ->
      sync_rejected w (step w (TimerFired h))) /\
     (NoDup (parsed_ids sandboxText) ->
      length (parsed_ids sandboxText) <> length (regions mapping) ->
      sync_rejected w (step w (TimerFired h))) /\
     (forall A sep B,
        whole_lines A -> is_separator_line sep ->
        length (parsed_ids (A ++ sep ++ B)) = length (regions mapping) ->
        sandboxText = A ++ B ->
        sync_rejected w (step w (TimerFired h)))) /\
  (buffers (liveWith duplicateIdText) !! sandboxUri = Some duplicateIdText /\
   parsed_ids duplicateIdText = [region_id 0; region_id 1; region_id 1] /\
   length <$> rangesOf (liveWith duplicateIdText) 0 = Some 2%nat /\
   log (run (liveWith duplicateIdText) [TimerFired 1; OpenSettled 2 (Some artifact)]) =
     log (liveWith duplicateIdText) ++
     [OpenTextDocument artifactUri;
      ApplyEdit artifactUri
        [mkEdit 0 0 5 6 (Some shortCode); mkEdit 10 0 18 7 (Some (str "y"))]]).
Proof.
  split; [|repeat split; vm_compute; reflexivity].
  intros w h l docKey mapping sandboxText Ht Hl Hm Hb.
  destruct (parseSandboxText_total sandboxText) as [parsed Hp].
  pose proof (parseSandboxText_distinct _ _ Hp) as Hsz.
  assert (distinctIds sandboxText <> length (regions mapping) ->
          sync_rejected w (step w (TimerFired h))) as Hrej.
  { intros Hne. eapply guard_rejects; try done. by rewrite Hsz. }
  split; [split; [|done]|].
  - intros (Hlog & _) Heq. rewrite <- Hsz in Heq.
    destruct (guard_passes _ _ _ _ _ _ _ Ht Hl Hm Hb Hp Heq) as (Hlog' & _).
    rewrite Hlog' in Hlog. by apply app_inv_head in Hlog.
  - pose proof (distinctIds_le sandboxText) as Hle. split; [|split].
    + intros Hlt. apply Hrej. lia.
    + intros Hnd Hne. apply Hrej. by rewrite distinctIds_NoDup.
    + intros A sep B HA Hsep Hlen ->. apply Hrej.
      rewrite (deleted_line_fewer_ids A sep B HA Hsep) in Hlen. lia.
Qed.

(** ** Region ids: [region_] and a decimal number *)

Lemma str_app (a b : string) : str (a +:+ b) = str a ++ str b.
Proof. induction a as [|c a IH]; simpl; [done|]. by rewrite IH. Qed.

Lemma str_inj (a b : string) : str a = str b -> a = b.
Proof.
  revert b. induction a as [|c a IH]; intros [|d b]; simpl; try done.
  intros [= Hc Hab]. f_equal; [|by apply IH].
  by rewrite <- (ascii_N_embedding c), <- (ascii_N_embedding d), Hc.
Qed.

Lemma pretty_N_char_digit d : is_digit (N_of_ascii (pretty_N_char d)) = true.
Proof. unfold pretty_N_char. by repeat case_match. Qed.

Lemma pretty_N_go_digits x (s : string) :
  exists ds, Forall (fun c => is_digit c = true) ds /\
             str (pretty_N_go x s) = ds ++ str s /\
             ((0 < x)%N -> ds <> []).
Proof.
  revert s. induction (N.lt_wf_0 x) as [x _ IH]; intros s.
  assert (x = 0 ∨ 0 < x)%N as [->|Hx] by lia.
  - exists []. rewrite pretty_N_go_0. split; [constructor|]. split; [done|lia].
  - rewrite pretty_N_go_step by done.
    destruct (IH (x `div` 10)%N (N.div_lt x 10 Hx eq_refl)
                (String (pretty_N_char (x `mod` 10)) s)) as (ds & Hd & Heq & _).
    exists (ds ++ [N_of_ascii (pretty_N_char (x `mod` 10))]).
    split; [|split].
    + apply Forall_app. split; [done|]. constructor; [|constructor].
      apply pretty_N_char_digit.
    + rewrite Heq. simpl. by rewrite <- app_assoc.
    + intros _. by destruct ds.
Qed.

Lemma pretty_nat_digits (n : nat) : all_digits (str (pretty n)).
Proof.
  unfold pretty, pretty_nat, pretty, pretty_N.
  case_decide as H0.
  - split; [done|]. by repeat constructor.
  - destruct (pretty_N_go_digits (N.of_nat n) "") as (ds & Hd & Heq & Hne).
    rewrite Heq. simpl. rewrite app_nil_r. split; [apply Hne; lia | done].
Qed.

Lemma region_id_inj i j : region_id i = region_id j -> i = j.
Proof.
  unfold region_id. intros H%app_inv_head%str_inj. by apply (inj pretty).
Qed.

(** ** Rendering and reading back *)

Lemma replace_blank_tail_block (code : jsstring) :
  last code <> Some CR -> replace_blank_tail (code ++ [LF; LF]) = code.
Proof.
  induction code as [|a t IH]; intros Hlast; [done|].
  change ((a :: t) ++ [LF; LF]) with (a :: (t ++ [LF; LF])).
  cbn [replace_blank_tail].
  assert (is_blank_tail (a :: t ++ [LF; LF]) = false) as ->.
  { unfold is_blank_tail. rewrite !orb_false_iff, !bool_decide_eq_false.
    unfold LF, CR in *.
    destruct t as [|x [|y [|z t]]]; simpl; repeat split;
      intros Heq; simplify_eq/=; try done; by destruct t. }
  f_equal. apply IH. destruct t; [done|]. exact Hlast.
Qed.

Lemma whole_lines_block (c : jsstring) : whole_lines (c ++ [LF; LF]).
Proof.
  right. change (c ++ [LF; LF]) with (c ++ [LF] ++ [LF]).
  by rewrite app_assoc, last_snoc.
Qed.

Lemma split_sandboxTextOf (rs : list RegionMapping) (cur : jsstring) :
  Forall (fun r => valid_id (id r) /\
                   has_separator (originalContent r ++ [LF; LF]) = false) rs ->
  split_from 0 cur (sandboxTextOf rs) = cur :: flat_blocks (block_of <$> rs).
Proof.
  intros H. revert cur. induction H as [|r rs [(ds & Hds & Hid) Hfree] _ IH];
    intros cur; [done|].
  unfold sandboxTextOf. rewrite fmap_cons. cbn [concat].
  fold (sandboxTextOf rs). unfold regionBlock. rewrite Hid.
  rewrite <- (app_assoc (separator_line _)).
  rewrite (split_from_match _ _ _ _ (match_separator_line ds _ Hds)).
  rewrite <- Hid.
  rewrite split_from_separator_free; [|done|apply whole_lines_block].
  rewrite IH. done.
Qed.

Lemma generateFrom_spec origDoc idx mergedRanges rs text :
  generateFrom origDoc idx mergedRanges = Some (rs, text) ->
  text = sandboxTextOf rs /\
  forall i r, rs !! i = Some r -> id r = region_id (idx + i).
Proof.
  revert idx rs text. induction mergedRanges as [|rg rest IH]; intros idx rs text.
  - intros [= <- <-]. split; [done|]. intros i r. by rewrite lookup_nil.
  - cbn [generateFrom]. destruct (regionContent origDoc rg) as [c|]; [|done].
    simpl. destruct (generateFrom origDoc (S idx) rest) as [[rs' t']|] eqn:Hg; [|done].
    simpl. intros [= <- <-]. destruct (IH _ _ _ Hg) as [-> Hids].
    split; [done|]. intros [|i] r; simpl.
    + intros [= <-]. simpl. by rewrite Nat.add_0_r.
    + intros Hr. rewrite (Hids _ _ Hr). f_equal. lia.
Qed.

Lemma region_ids_NoDup (rs : list RegionMapping) k :
  (forall i r, rs !! i = Some r -> id r = region_id (k + i)) ->
  NoDup (id <$> rs).
Proof.
  intros Hids. apply NoDup_alt. intros i j x.
  rewrite !list_lookup_fmap. 
  destruct (rs !! i) as [ri|] eqn:Hi; [|done].
  destruct (rs !! j) as [rj|] eqn:Hj; [|done]. simpl.
  intros [= <-] [= Heq]. rewrite (Hids _ _ Hi), (Hids _ _ Hj) in Heq.
  apply region_id_inj in Heq. lia.
Qed.

Lemma roundtrip_regions (rs : list RegionMapping) k :
  (forall i r, rs !! i = Some r -> id r = region_id (k + i)) ->
  (forall r, r ∈ rs ->
     has_separator (originalContent r ++ [LF; LF]) = false /\
     last (originalContent r) <> Some CR) ->
  exists parsed,
    parseSandboxText (sandboxTextOf rs) = Some parsed /\
    size parsed = length rs /\
    forall r, r ∈ rs -> parsed !! id r = Some (originalContent r).
Proof.
  intros Hids Hc.
  assert (Forall (fun r => valid_id (id r) /\
            has_separator (originalContent r ++ [LF; LF]) = false) rs) as Hall.
  { apply Forall_forall. intros r Hr. split; [|by apply Hc].
    apply list_elem_of_lookup in Hr as [i Hi]. rewrite (Hids _ _ Hi).
    exists (str (pretty (k + i)%nat)). split; [apply pretty_nat_digits | done]. }
  assert (NoDup (block_of <$> rs).*1) as Hnd.
  { rewrite <- list_fmap_compose. by apply (region_ids_NoDup rs k). }
  exists (foldl store_block ∅ (block_of <$> rs)).
  unfold parseSandboxText, split_SEPARATOR_REGEX.
  rewrite split_sandboxTextOf by done. simpl.
  split; [apply parseCodeBlocks_flat|]. split.
  - rewrite <- size_dom, dom_store_blocks, dom_empty_L, union_empty_l_L.
    rewrite size_list_to_set by done. by rewrite !length_fmap.
  - intros r Hr. rewrite (lookup_store_blocks _ _ (id r) (originalContent r ++ [LF; LF])).
    + f_equal. apply replace_blank_tail_block. by apply Hc.
    + done.
    + apply (list_elem_of_fmap_2 block_of). done.
Qed.

(** C3 as stated fails.  Each pair is the code of a region and what is
    read back for its id from the rendered, unedited text; the statement
    would have the second be [Some] of the first.  A region whose code has
    a line that is a separator is read back as the empty text (the rest
    goes to the id of that line), and a code that ends with a carriage
    return loses it. *)
Lemma roundtrip_fails_on_separator_or_carriage_return :
  readBack separatorDoc [mkRange 0 1]
  = Some [(SEP_OPEN ++ region_id 7 ++ SEP_CLOSE ++ [LF] ++ str "x", Some [])] /\
  readBack carriageDoc [mkRange 0 0] = Some [(str "a" ++ [CR], Some (str "a"))].
Proof. split; vm_compute; reflexivity. Qed.

(** C3 (as amended): a text rendered by step 4 of [openUnifiedSandbox]
    is read back, block by block, as the code of each region, when no
    region's block contains a match of the separator and no region's code
    ends with a carriage return; the map has one entry per region, and only
    the one blank line the renderer appended is removed, also from a code
    that itself ends with blank lines. *)
Theorem roundtrip_render_parse origDoc mergedRanges rs sandboxText :
  generateFrom origDoc 0 mergedRanges = Some (rs, sandboxText) ->
  (forall r, r ∈ rs ->
     has_separator (originalContent r ++ [LF; LF]) = false /\
     last (originalContent r) <> Some CR) ->
  (exists parsed,
     parseSandboxText sandboxText = Some parsed /\
     size parsed = length rs /\
     forall r, r ∈ rs -> parsed !! id r = Some (originalContent r)) /\
  (forall code : jsstring,
     last code <> Some CR -> replace_blank_tail (code ++ [LF; LF]) = code).
Proof.
  intros Hg Hc. destruct (generateFrom_spec _ _ _ _ _ Hg) as [-> Hids].
  split; [by apply (roundtrip_regions rs 0%nat)|].
  apply replace_blank_tail_block.
Qed.

(** ** Merging the candidate ranges *)

Section Merge.

Implicit Types r cur a b : Range.
Implicit Types l acc : list Range.

Lemma mergeStep_nil r : mergeStep [] r = [r].
Proof. done. Qed.

Lemma mergeStep_snoc acc cur r :
  mergeStep (acc ++ [cur]) r =
  if startLine r <=? endLine cur + 2
  then acc ++ [mkRange (startLine cur) (Z.max (endLine cur) (endLine r))]
  else acc ++ [cur; r].
Proof.
  unfold mergeStep. rewrite last_snoc.
  destruct (startLine r <=? endLine cur + 2).
  - rewrite length_app. simpl.
    replace (length acc + 1 - 1)%nat with (length acc + 0)%nat by lia.
    by rewrite insert_app_r.
  - by rewrite <- app_assoc.
Qed.

Lemma foldl_mergeStep acc cur l :
  foldl mergeStep (acc ++ [cur]) l = acc ++ mergeFrom cur l.
Proof.
  revert acc cur. induction l as [|r l IH]; intros acc cur; simpl; [done|].
  rewrite mergeStep_snoc. destruct (startLine r <=? endLine cur + 2).
  - apply IH.
  - change [cur; r] with ([cur] ++ [r]). rewrite app_assoc, IH.
    by rewrite <- app_assoc.
Qed.

Lemma mergeRanges_eq ranges :
  mergeRanges ranges =
  match sortRanges ranges with
  | [] => []
  | r :: l => mergeFrom r l
  end.
Proof.
  unfold mergeRanges. destruct (sortRanges ranges) as [|r l]; [done|].
  simpl. rewrite mergeStep_nil. apply (foldl_mergeStep [] r l).
Qed.

(** The sort. *)
Lemma elem_of_insertRange x r l : x ∈ insertRange r l <-> x = r \/ x ∈ l.
Proof.
  induction l as [|y l IH]; simpl.
  - rewrite list_elem_of_singleton, elem_of_nil. tauto.
  - destruct (startLine r <=? startLine y).
    + by rewrite elem_of_cons.
    + rewrite !elem_of_cons, IH. tauto.
Qed.

Lemma elem_of_sortRanges x ranges : x ∈ sortRanges ranges <-> x ∈ ranges.
Proof.
  induction ranges as [|r l IH]; simpl; [done|].
  by rewrite elem_of_insertRange, elem_of_cons, IH.
Qed.

Lemma insertRange_sorted r l :
  StronglySorted starts_le l -> StronglySorted starts_le (insertRange r l).
Proof.
  induction 1 as [|y l Hl IH Hy]; simpl.
  - by repeat constructor.
  - destruct (Z.leb_spec (startLine r) (startLine y)) as [Hle|Hgt].
    + constructor; [by constructor|]. constructor; [done|].
      eapply Forall_impl; [exact Hy|]. unfold starts_le. intros; simpl in *; lia.
    + constructor; [done|]. apply Forall_forall. intros x Hx.
      apply elem_of_insertRange in Hx as [->|Hx].
      * unfold starts_le. lia.
      * rewrite Forall_forall in Hy. by apply Hy.
Qed.

Lemma sortRanges_sorted ranges : StronglySorted starts_le (sortRanges ranges).
Proof.
  induction ranges as [|r l IH]; simpl; [constructor|].
  by apply insertRange_sorted.
Qed.

(** The merge. *)
Lemma mergeFrom_head cur l :
  exists a rest, mergeFrom cur l = a :: rest /\ startLine a = startLine cur.
Proof.
  revert cur. induction l as [|r l IH]; intros cur; simpl; [by eexists _, _|].
  destruct (startLine r <=? endLine cur + 2); [|by eexists _, _].
  destruct (IH (mkRange (startLine cur) (Z.max (endLine cur) (endLine r))))
    as (a & rest & -> & Ha). by eexists _, _.
Qed.

Lemma mergeFrom_gaps cur l : gap_chain (mergeFrom cur l).
Proof.
  revert cur. induction l as [|r l IH]; intros cur; simpl; [done|].
  destruct (Z.leb_spec (startLine r) (endLine cur + 2)) as [Hle|Hgt]; [apply IH|].
  specialize (IH r). destruct (mergeFrom_head r l) as (a & rest & Heq & Ha).
  rewrite Heq in IH |- *. simpl. split; [lia | done].
Qed.

Lemma mergeFrom_covers cur l x :
  StronglySorted starts_le l -> Forall (starts_le cur) l ->
  within x cur \/ x ∈ l ->
  exists a, a ∈ mergeFrom cur l /\ within x a.
Proof.
  intros Hs. revert cur. induction Hs as [|r l Hs IH Hr]; intros cur Hcur Hx; simpl.
  - destruct Hx as [Hx|Hx]; [|by apply elem_of_nil in Hx].
    exists cur. by rewrite list_elem_of_singleton.
  - apply Forall_cons in Hcur as [Hcr Hcur]. unfold starts_le in Hcr.
    destruct (Z.leb_spec (startLine r) (endLine cur + 2)) as [Hle|Hgt].
    + apply IH; [done|].
      destruct Hx as [[H1 H2]|Hx]; [left; split; simpl; lia|].
      apply elem_of_cons in Hx as [->|Hx]; [|by right].
      left. split; simpl; lia.
    + destruct Hx as [Hx|Hx].
      { exists cur. split; [by left|done]. }
      destruct (IH r Hr) as (a & Ha & Hw).
      { apply elem_of_cons in Hx as [->|Hx]; [left|by right].
        split; lia. }
      exists a. split; [by right|done].
Qed.

Lemma mergeFrom_proper cur l :
  startLine cur <= endLine cur ->
  Forall (fun r => startLine r <= endLine r) l ->
  Forall (fun r => startLine r <= endLine r) (mergeFrom cur l).
Proof.
  intros Hc Hl. revert cur Hc. induction Hl as [|r l Hr Hl IH]; intros cur Hc; simpl.
  - by constructor.
  - destruct (startLine r <=? endLine cur + 2).
    + apply IH. simpl. lia.
    + constructor; [done|]. by apply IH.
Qed.

Lemma gap_chain_lookup l i a b :
  gap_chain l -> l !! i = Some a -> l !! S i = Some b ->
  endLine a + 2 < startLine b.
Proof.
  revert i. induction l as [|x l IH]; intros i Hg Ha Hb; [done|].
  destruct l as [|y l]; [done|]. destruct Hg as [Hxy Hg].
  destruct i as [|i]; simpl in *.
  - by simplify_eq.
  - by apply (IH i).
Qed.

End Merge.

(** C4: the merged ranges are separated by more than the gap threshold of
    two lines (so they ascend and do not overlap), every line of an input
    range lies in a merged range, and when every input range is proper
    (start <= end) the merged ranges are proper and strictly ascending. *)
Theorem merge_ranges_correct (ranges : list Range) :
  let merged := mergeRanges ranges in
  (forall i a b, merged !! i = Some a -> merged !! S i = Some b ->
     endLine a + 2 < startLine b) /\
  (forall r line, r ∈ ranges -> startLine r <= line <= endLine r ->
     exists a, a ∈ merged /\ startLine a <= line <= endLine a) /\
  ((forall r, r ∈ ranges -> startLine r <= endLine r) ->
   forall i a b, merged !! i = Some a -> merged !! S i = Some b ->
     startLine a <= endLine a < startLine b /\ startLine b <= endLine b).
Proof.
  intros merged. subst merged. rewrite mergeRanges_eq.
  pose proof (sortRanges_sorted ranges) as Hs.
  pose proof (elem_of_sortRanges) as Hel.
  destruct (sortRanges ranges) as [|r0 l] eqn:Hsort.
  { split; [done|]. split; [|done]. intros r line Hr.
    apply Hel in Hr. rewrite Hsort in Hr. by apply elem_of_nil in Hr. }
  apply StronglySorted_inv in Hs as [Hs Hr0].
  assert (gap_chain (mergeFrom r0 l)) as Hg by apply mergeFrom_gaps.
  split; [|split].
  - intros i a b. by apply gap_chain_lookup.
  - intros r line Hr Hline. apply Hel in Hr. rewrite Hsort in Hr.
    destruct (mergeFrom_covers r0 l r Hs Hr0) as (a & Ha & [H1 H2]).
    { apply elem_of_cons in Hr as [->|Hr]; [left; split; lia | by right]. }
    exists a. split; [done|lia].
  - intros Hwf i a b Ha Hb.
    assert (Forall (fun r => startLine r <= endLine r) (mergeFrom r0 l)) as Hp.
    { apply mergeFrom_proper.
      - apply Hwf, Hel. rewrite Hsort. by left.
      - apply Forall_forall. intros x Hx. apply Hwf, Hel. rewrite Hsort. by right. }
    rewrite Forall_forall in Hp.
    pose proof (gap_chain_lookup _ _ _ _ Hg Ha Hb).
    pose proof (Hp a (list_elem_of_lookup_2 _ _ _ Ha)).
    pose proof (Hp b (list_elem_of_lookup_2 _ _ _ Hb)). lia.
Qed.

(** ** The boundary of a candidate line *)

Lemma findSymbolAtLine_find symbols targetLine :
  findSymbolAtLine symbols targetLine =
  visitSymbol targetLine <$> List.find (encloses targetLine) symbols.
Proof.
  induction symbols as [|s l IH]; simpl; [done|].
  by destruct (encloses targetLine s).
Qed.

Lemma visitSymbol_eq targetLine symbol :
  visitSymbol targetLine symbol =
  selectMatch symbol (findSymbolAtLine (children symbol) targetLine).
Proof.
  destruct symbol as [k r chn]. cbn [visitSymbol children]. f_equal.
  induction chn as [|s l IH]; [done|]. cbn [findSymbolAtLine].
  by destruct (encloses targetLine s).
Qed.

Lemma DocumentSymbol_nested_ind (P : DocumentSymbol -> Prop) :
  (forall k r chn, Forall P chn -> P (Symbol k r chn)) -> forall s, P s.
Proof.
  intros H. fix IH 1. intros [k r chn]. apply H.
  induction chn as [|c chn IHc]; constructor; [apply IH | exact IHc].
Qed.

Lemma descent_eq targetLine symbol :
  descent targetLine symbol =
  symbol :: match List.find (encloses targetLine) (children symbol) with
            | Some c => descent targetLine c
            | None => []
            end.
Proof.
  destruct symbol as [k r chn]. cbn [descent children]. f_equal.
  induction chn as [|s l IH]; [done|]. cbn [List.find].
  by destruct (encloses targetLine s).
Qed.

Lemma selectMatch_eq symbol childMatch :
  selectMatch symbol childMatch =
  match childMatch with
  | Some c => if isValidContainer (kind c) then c else symbol
  | None => symbol
  end.
Proof.
  unfold selectMatch. destruct childMatch as [c|].
  - destruct (isValidContainer (kind c)); [done|].
    by destruct (isValidContainer (kind symbol)).
  - by destruct (isValidContainer (kind symbol)).
Qed.

Lemma last_containers_valid path x :
  last (containersOn path) = Some x -> isValidContainer (kind x) = true.
Proof.
  intros Hl. apply last_Some_elem_of in Hl.
  unfold containersOn in Hl. by apply list_elem_of_filter in Hl as [? _].
Qed.

Lemma visitSymbol_descent targetLine symbol :
  visitSymbol targetLine symbol =
  default symbol (last (containersOn (descent targetLine symbol))).
Proof.
  induction symbol as [k r chn IH] using DocumentSymbol_nested_ind.
  rewrite visitSymbol_eq, descent_eq, findSymbolAtLine_find, selectMatch_eq.
  cbn [children].
  destruct (List.find (encloses targetLine) chn) as [c|] eqn:Hf; cbn [fmap option_fmap option_map].
  - apply find_some in Hf as [Hin _]. apply list_elem_of_In in Hin.
    rewrite Forall_forall in IH. rewrite (IH c Hin).
    unfold containersOn at 3. rewrite filter_cons. fold (containersOn (descent targetLine c)).
    destruct (last (containersOn (descent targetLine c))) as [x|] eqn:Hl; cbn [from_option].
    + unfold Datatypes.id. rewrite (last_containers_valid _ _ Hl).
      case_decide; rewrite ?last_cons, Hl; done.
    + unfold Datatypes.id. apply last_None in Hl. rewrite Hl.
      assert (isValidContainer (kind c) = false) as ->.
      { rewrite descent_eq in Hl. unfold containersOn in Hl.
        rewrite filter_cons in Hl. case_decide as Hc; [done|].
        by destruct (isValidContainer (kind c)). }
      by case_decide.
  - unfold containersOn. rewrite filter_cons, filter_nil. by case_decide.
Qed.

Lemma descent_encloses targetLine symbol :
  encloses targetLine symbol = true ->
  Forall (fun s => encloses targetLine s = true) (descent targetLine symbol).
Proof.
  induction symbol as [k r chn IH] using DocumentSymbol_nested_ind.
  intros He. rewrite descent_eq. constructor; [done|]. cbn [children].
  destruct (List.find (encloses targetLine) chn) as [c|] eqn:Hf; [|constructor].
  apply find_some in Hf as [Hin Hc]. apply list_elem_of_In in Hin.
  rewrite Forall_forall in IH. by apply IH.
Qed.

Lemma last_filter_split {A} (P : A -> Prop) `{!forall x, Decision (P x)} (l : list A) :
  match last (filter P l) with
  | Some x => P x /\ exists before after,
                l = before ++ x :: after /\ Forall (fun y => ~ P y) after
  | None => Forall (fun y => ~ P y) l
  end.
Proof.
  induction l as [|a l IH]; [by constructor|].
  rewrite filter_cons. destruct (last (filter P l)) as [x|] eqn:Hl.
  - destruct IH as (Hx & before & after & -> & Ha).
    assert (last (if decide (P a) then a :: filter P (before ++ x :: after)
                  else filter P (before ++ x :: after)) = Some x) as ->.
    { case_decide; rewrite ?last_cons, Hl; done. }
    split; [done|]. by exists (a :: before), after.
  - apply last_None in Hl. rewrite Hl. case_decide as Ha.
    + split; [done|]. by exists [], l.
    + by constructor.
Qed.

(** C8 as stated fails: a line enclosed by a Variable symbol gets that
    symbol's range, not the fixed window. *)
Lemma variable_symbol_is_a_boundary :
  isValidContainer Variable_ = false /\
  findSymbolAtLine [Symbol Variable_ (mkRange 5 5) []] 5
  = Some (Symbol Variable_ (mkRange 5 5) []) /\
  lineToRange artifact [Symbol Variable_ (mkRange 5 5) []] 5 = mkRange 5 5 /\
  fallbackWindow artifact 5 = mkRange 1 9.
Proof. repeat split; vm_compute; reflexivity. Qed.

(** C8 (as amended): a symbol of kind Function, Method, Class or
    Constructor is preferred as the boundary.  The search descends from the
    first top-level symbol that encloses the line through the first
    enclosing child at each level, and every symbol on that path encloses
    the line; the result is the innermost symbol of such a kind on the path
    (no symbol deeper on the path has such a kind).  When no symbol on the
    path has such a kind the first top-level enclosing symbol itself is
    returned, whatever its kind.  The range of the result is the region;
    the fixed window is used only when no top-level symbol encloses the
    line. *)
Theorem symbol_boundary_or_raw_symbol origDoc symbols line :
  match List.find (encloses line) symbols with
  | None =>
      findSymbolAtLine symbols line = None /\
      lineToRange origDoc symbols line = fallbackWindow origDoc line
  | Some top =>
      exists sym before after,
        findSymbolAtLine symbols line = Some sym /\
        lineToRange origDoc symbols line = range sym /\
        sym = default top (last (containersOn (descent line top))) /\
        descent line top = before ++ sym :: after /\
        Forall (fun s => encloses line s = true) (descent line top) /\
        Forall (fun s => isValidContainer (kind s) = false) after /\
        (isValidContainer (kind sym) = true \/ (sym = top /\ before = [])) /\
        (isValidContainer (kind top) = true -> isValidContainer (kind sym) = true)
  end.
Proof.
  unfold lineToRange. rewrite findSymbolAtLine_find.
  destruct (List.find (encloses line) symbols) as [top|] eqn:Hfind; simpl; [|done].
  rewrite visitSymbol_descent.
  apply find_some in Hfind as [_ Henc].
  pose proof (descent_encloses line top Henc) as Hpathenc.
  pose proof (last_filter_split (fun s => isValidContainer (kind s) = true)
                (descent line top)) as Hsplit.
  fold (containersOn (descent line top)) in Hsplit.
  assert (forall l : list DocumentSymbol,
            Forall (fun y => isValidContainer (kind y) <> true) l ->
            Forall (fun s => isValidContainer (kind s) = false) l) as Hneg.
  { intros l Hl. eapply Forall_impl; [exact Hl|]. simpl.
    intros s Hs. by destruct (isValidContainer (kind s)). }
  destruct (last (containersOn (descent line top))) as [c|]; simpl.
  - destruct Hsplit as (Hc & before & after & Hpath & Hafter).
    exists c, before, after. split; [done|].
    split; [by destruct (range c)|]. split; [done|]. split; [done|].
    split; [done|]. split; [by apply Hneg|]. split; [by left|done].
  - rewrite descent_eq in Hsplit |- *. apply Hneg in Hsplit.
    apply Forall_cons in Hsplit as [Htop Hrest].
    eexists top, [], _. split; [done|].
    split; [by destruct (range top)|]. split; [done|]. split; [done|].
    split; [by rewrite <- descent_eq|]. split; [done|]. split; [by right|].
    congruence.
Qed.

(** ** The shift calculus *)

Lemma knownPrefix_all parsed rs :
  knownPrefix parsed rs = length rs <->
  forall r, r ∈ rs -> is_Some (parsed !! id r).
Proof.
  induction rs as [|r rs IH]; simpl.
  - split; [|done]. intros _ r Hr. by apply elem_of_nil in Hr.
  - destruct (parsed !! id r) as [c|] eqn:Hc.
    + split.
      * intros [= Hk] x [->|Hx]%elem_of_cons; [by rewrite Hc|]. by apply IH.
      * intros Hall. f_equal. apply IH. intros x Hx. apply Hall. by right.
    + split; [done|]. intros Hall. destruct (Hall r) as [c Hc']; [by left|].
      congruence.
Qed.

Lemma shiftCalculus_prefix parsed shift rs :
  exists rs',
    shiftCalculus parsed shift rs
    = (rs', bool_decide (knownPrefix parsed rs = length rs)) /\
    originalRange <$> rs' =
      shiftPerSpec shift (newLineCounts parsed (take (knownPrefix parsed rs) rs))
      ++ (originalRange <$> drop (knownPrefix parsed rs) rs) /\
    id <$> rs' = id <$> rs /\
    originalContent <$> rs' = originalContent <$> rs.
Proof.
  revert shift. induction rs as [|r rs IH]; intros shift.
  - by exists [].
  - cbn [shiftCalculus knownPrefix]. destruct (parsed !! id r) as [code|] eqn:Hcode.
    + destruct (IH (shift + (Z.of_nat (length (split_newlines code))
                             - (endLine (originalRange r) - startLine (originalRange r) + 1))))
        as (rs' & -> & Hr & Hi & Hc).
      eexists. split.
      { f_equal. apply bool_decide_ext. simpl. lia. }
      rewrite !fmap_cons. cbn [take drop newLineCounts shiftPerSpec fmap list_fmap app].
      rewrite Hcode. simpl. unfold newLineCounts in Hr.
      by rewrite Hr, Hi, Hc.
    + exists (r :: rs). by rewrite bool_decide_eq_false_2.
Qed.

Lemma length_shiftPerSpec shift (l : list (Range * Z)) :
  length (shiftPerSpec shift l) = length l.
Proof.
  revert shift. induction l as [|[rg n] l IH]; intros shift; simpl; [done|].
  by rewrite IH.
Qed.

Lemma shiftPerSpec_lookup shift (l : list (Range * Z)) i rg n :
  l !! i = Some (rg, n) ->
  shiftPerSpec shift l !! i =
  Some (mkRange (startLine rg + (shift + shiftBefore l i))
                (startLine rg + (shift + shiftBefore l i) + n - 1)).
Proof.
  revert shift i. induction l as [|[rg0 n0] l IH]; intros shift i; [done|].
  destruct i as [|i]; simpl.
  - intros [= -> ->]. unfold shiftBefore. simpl. do 3 f_equal; lia.
  - intros Hi. rewrite (IH _ _ Hi). unfold shiftBefore. simpl.
    do 3 f_equal; lia.
Qed.

Lemma saveSettled_heap w t l parsed mapping saved :
  tasks w !! t = Some (mkTask l parsed AwaitSave) ->
  heap w !! l = Some mapping ->
  heap (step w (SaveSettled t (Some saved))) !! l =
  Some (set_mutex false
          (set_regions (shiftCalculus parsed 0 (regions mapping)).1 mapping)).
Proof.
  intros Ht Hl. unfold step, saveSettled. rewrite Ht, Hl.
  destruct (shiftCalculus parsed 0 (regions mapping)) as [rs ok].
  unfold finishCycle, update. destruct ok; simpl;
    by rewrite !lookup_alter_eq, Hl.
Qed.

(** C1: what the shift calculus leaves in the session once [applyEdit] has
    succeeded and [save] has settled.  The regions are visited in order
    with one running shift that starts at 0; the calculus stops at the
    first region whose id has no block in the parsed map.  The regions
    before it have the ranges of the calculus as the specification words
    it (region [i] starts at its old start plus what the regions before it
    have grown by, and ends [newLineCount - 1] lines further), the others
    keep the ranges they had.  When every region has a block, that is the
    calculus of the specification on all regions: in its scenario (regions
    [0,5] and [10,18], region_0 cut from six lines to three, region_1
    unchanged at nine) one cycle gives [0,2] and [7,15].  When the second
    separator names region_7 the guard lets the buffer through, [applyEdit]
    and [save] are called, and the session is left with [0,2] and [10,18]:
    region_1 still starts on line 10, where the calculus moves it to line
    7 whatever its new number of lines. *)
Theorem shift_calculus_after_apply :
  (forall w t l parsed mapping saved,
     tasks w !! t = Some (mkTask l parsed AwaitSave) ->
     heap w !! l = Some mapping ->
     let k := knownPrefix parsed (regions mapping) in
     let counts := newLineCounts parsed (take k (regions mapping)) in
     exists rs',
       regions <$> heap (step w (SaveSettled t (Some saved))) !! l = Some rs' /\
       id <$> rs' = id <$> regions mapping /\
       originalRange <$> rs' =
         shiftPerSpec 0 counts ++ (originalRange <$> drop k (regions mapping)) /\
       (forall i rg n,
          counts !! i = Some (rg, n) ->
          (originalRange <$> rs') !! i =
          Some (mkRange (startLine rg + shiftBefore counts i)
                        (startLine rg + shiftBefore counts i + n - 1))) /\
       ((forall r, r ∈ regions mapping -> is_Some (parsed !! id r)) ->
        originalRange <$> rs' =
          shiftPerSpec 0 (newLineCounts parsed (regions mapping)))) /\
  (rangesOf liveEdited 0 = Some [mkRange 0 5; mkRange 10 18] /\
   (lineCountOf <$> parseSandboxText editedText ≫= (.!! region_id 0)) = Some 3 /\
   (lineCountOf <$> parseSandboxText editedText ≫= (.!! region_id 1)) = Some 9 /\
   rangesOf synced 0 = Some [mkRange 0 2; mkRange 7 15]) /\
  (parsed_ids unknownIdText = [region_id 0; region_id 7] /\
   log unknownAwaitingSave =
     log (liveWith unknownIdText) ++
     [OpenTextDocument artifactUri;
      ApplyEdit artifactUri
        [mkEdit 0 0 5 6 (Some shortCode); mkEdit 10 0 18 7 None];
      SaveDocument artifactUri] /\
   taskStage <$> tasks unknownAwaitingSave !! 2%nat = Some AwaitSave /\
   rangesOf unknownAwaitingSave 0 = Some [mkRange 0 5; mkRange 10 18] /\
   rangesOf (step unknownAwaitingSave (SaveSettled 2 (Some true))) 0
   = Some [mkRange 0 2; mkRange 10 18] /\
   forall n, shiftPerSpec 0 [(mkRange 0 5, 3); (mkRange 10 18, n)]
             = [mkRange 0 2; mkRange 7 (7 + n - 1)]).
Proof.
  split; [|split].
  - intros w t l parsed mapping saved Ht Hl k counts.
    destruct (shiftCalculus_prefix parsed 0 (regions mapping))
      as (rs' & Hs & Hr & Hi & _).
    exists rs'. rewrite (saveSettled_heap _ _ _ _ _ _ Ht Hl), Hs. simpl.
    split; [done|]. split; [done|]. split; [done|]. split.
    + intros i rg n Hlk. rewrite Hr, lookup_app_l.
      * rewrite (shiftPerSpec_lookup _ _ _ _ _ Hlk). do 2 f_equal; lia.
      * rewrite length_shiftPerSpec. by apply lookup_lt_Some in Hlk.
    + intros Hall. apply knownPrefix_all in Hall. rewrite Hr. subst counts k.
      by rewrite Hall, take_ge, drop_ge, fmap_nil, app_nil_r.
  - repeat split; vm_compute; reflexivity.
  - repeat split; vm_compute; reflexivity.
Qed.

(** ** The live-sync cycle and the busy flag *)

Section Cycle.

Variables (w0 : World) (l tid : nat) (live : bool).

Lemma cycleInv_over st st' w :
  tasks w !! tid = None -> cycleInv w0 l tid live st w -> cycleInv w0 l tid live st' w.
Proof.
  intros Hn (Hsm & m & Hm & Hl & Ht). split; [done|]. exists m.
  rewrite Hn in Ht |- *. done.
Qed.

Lemma finishCycle_inv st w tk threw :
  tasks w !! tid = Some tk ->
  cycleInv w0 l tid live st w ->
  cycleInv w0 l tid live None (finishCycle (Some tid) l threw w).
Proof.
  intros Htk (Hsm & m & Hm & Hl & _). split.
  - unfold finishCycle. by destruct threw.
  - exists (set_mutex false m). unfold finishCycle.
    assert (forall w', heap w' = heap w ->
      heap (with_tasks (delete tid (tasks (update l (set_mutex false) w')))
              (update l (set_mutex false) w')) !! l = Some (set_mutex false m)) as Hh.
    { intros w' Hw'. simpl. by rewrite Hw', lookup_alter_eq, Hm. }
    destruct threw; (split; [by apply Hh|]); simpl;
      by rewrite lookup_delete_eq.
Qed.

Lemma openSettled_inv w originalDoc :
  cycleInv w0 l tid live (Some AwaitOpenTextDocument) w ->
  cycleInv w0 l tid live (Some AwaitApplyEdit) (step w (OpenSettled tid originalDoc)).
Proof.
  intros Hinv. pose proof Hinv as (Hsm & m & Hm & Hl & Ht).
  unfold step, openSettled.
  destruct (tasks w !! tid) as [[l' parsed st]|] eqn:Htk;
    [|by apply (cycleInv_over (Some AwaitOpenTextDocument)); rewrite ?Htk].
  simpl in Ht. destruct Ht as (-> & [= ->] & Hmx). rewrite Hm.
  destruct (originalDoc ≫= _) as [edits|].
  - split; [done|]. exists m. simpl. rewrite lookup_insert_eq. by simpl.
  - eapply cycleInv_over; [|by eapply finishCycle_inv].
    unfold finishCycle. simpl. by rewrite lookup_delete_eq.
Qed.

Lemma applyEditSettled_inv w applied :
  cycleInv w0 l tid live (Some AwaitApplyEdit) w ->
  cycleInv w0 l tid live (Some AwaitSave) (step w (ApplyEditSettled tid applied)).
Proof.
  intros Hinv. pose proof Hinv as (Hsm & m & Hm & Hl & Ht).
  unfold step, applyEditSettled.
  destruct (tasks w !! tid) as [[l' parsed st]|] eqn:Htk;
    [|by apply (cycleInv_over (Some AwaitApplyEdit)); rewrite ?Htk].
  simpl in Ht. destruct Ht as (-> & [= ->] & Hmx). rewrite Hm.
  destruct applied as [[|]|].
  - split; [done|]. exists m. simpl. rewrite lookup_insert_eq. by simpl.
  - eapply cycleInv_over; [|by eapply finishCycle_inv].
    unfold finishCycle. simpl. by rewrite lookup_delete_eq.
  - eapply cycleInv_over; [|by eapply finishCycle_inv].
    unfold finishCycle. simpl. by rewrite lookup_delete_eq.
Qed.

Lemma update_regions_inv st w rs :
  cycleInv w0 l tid live st w -> cycleInv w0 l tid live st (update l (set_regions rs) w).
Proof.
  intros (Hsm & m & Hm & Hl & Ht). split; [done|].
  exists (set_regions rs m). simpl. rewrite lookup_alter_eq, Hm. simpl.
  split; [done|]. split; [done|]. by destruct (tasks w !! tid).
Qed.

Lemma saveSettled_inv w saved :
  cycleInv w0 l tid live (Some AwaitSave) w ->
  cycleInv w0 l tid live None (step w (SaveSettled tid saved)).
Proof.
  intros Hinv. pose proof Hinv as (Hsm & m & Hm & Hl & Ht).
  unfold step, saveSettled.
  destruct (tasks w !! tid) as [[l' parsed st]|] eqn:Htk;
    [|by apply (cycleInv_over (Some AwaitSave)); rewrite ?Htk].
  simpl in Ht. destruct Ht as (-> & [= ->] & Hmx). rewrite Hm.
  destruct saved as [saved|].
  - destruct (shiftCalculus parsed 0 (regions m)) as [rs ok].
    eapply finishCycle_inv; [simpl; exact Htk|]. by apply update_regions_inv.
  - by eapply finishCycle_inv.
Qed.

Lemma cycleInv_done w :
  cycleInv w0 l tid live None w ->
  tasks w !! tid = None /\ mutex <$> heap w !! l = Some false /\
  isLive <$> heap w !! l = Some live /\ sandboxMap w = sandboxMap w0.
Proof.
  intros (Hsm & m & Hm & Hl & Ht). rewrite Hm. simpl.
  destruct (tasks w !! tid) as [tk|]; [by destruct Ht as (_ & ? & _)|].
  by rewrite Ht, Hl.
Qed.

End Cycle.

Lemma timerCallback_busy w h l docKey mapping :
  timers w !! h = Some (l, docKey) -> heap w !! l = Some mapping ->
  mutex mapping = true ->
  step w (TimerFired h) = with_timers (delete h (timers w)) w.
Proof.
  intros Ht Hl Hm. unfold step, timerCallback. rewrite Ht. simpl. by rewrite Hl, Hm.
Qed.

Lemma timerCallback_inv w h l docKey mapping :
  timers w !! h = Some (l, docKey) -> heap w !! l = Some mapping ->
  mutex mapping = false -> tasks w !! nextId w = None ->
  cycleInv w l (nextId w) (isLive mapping) (Some AwaitOpenTextDocument)
    (step w (TimerFired h)).
Proof.
  intros Ht Hl Hm Hfresh. unfold step, timerCallback. rewrite Ht. simpl.
  rewrite Hl, Hm.
  assert (forall w', heap w' = alter (set_mutex true) l (heap w) ->
            sandboxMap w' = sandboxMap w -> tasks w' = tasks w -> forall threw,
            cycleInv w l (nextId w) (isLive mapping) (Some AwaitOpenTextDocument)
              (finishCycle None l threw w')) as Hfin.
  { intros w' Hh Hs Htk threw. split; [by destruct threw|].
    exists mapping. unfold finishCycle.
    destruct threw; simpl; rewrite Hh, Htk, Hfresh, alter_alter_eq, lookup_alter_eq, Hl;
      simpl; (split; [|done]); f_equal; destruct mapping; simpl in *; by subst. }
  destruct (parseSandboxText _) as [parsed|];
    [|exact (Hfin (update l (set_mutex true) (with_timers (delete h (timers w)) w))
               eq_refl eq_refl eq_refl true)].
  case_bool_decide;
    [exact (Hfin (emit (ShowErrorMessage SeparatorDeleted)
                    (update l (set_mutex true) (with_timers (delete h (timers w)) w)))
              eq_refl eq_refl eq_refl false)|].
  split; [done|]. exists (set_mutex true mapping). simpl.
  rewrite lookup_alter_eq, Hl, lookup_insert_eq. by simpl.
Qed.

Lemma finishCycle_over w l tid m parsed st threw m' :
  heap w !! l = Some m' -> set_mutex false m' = set_mutex false m ->
  tasks w !! tid = Some (mkTask l parsed st) ->
  log (finishCycle (Some tid) l threw w)
  = log w ++ (if threw then [ConsoleError] else []) /\
  cycleOver (finishCycle (Some tid) l threw w) l tid m.
Proof.
  intros Hh Hm' Ht. unfold finishCycle, cycleOver.
  destruct threw; simpl; rewrite ?app_nil_r, lookup_alter_eq, Hh, lookup_delete_eq;
    simpl; by rewrite Hm'.
Qed.

Section Path.

Variables (l tid : nat) (m : SandboxMapping) (parsed : gmap jsstring jsstring).

Lemma openSettled_at w originalDoc :
  cycleAt w l tid m parsed AwaitOpenTextDocument ->
  match originalDoc ≫= (fun d => buildEdit parsed d (regions m)) with
  | None =>
      log (step w (OpenSettled tid originalDoc)) = log w ++ [ConsoleError] /\
      cycleOver (step w (OpenSettled tid originalDoc)) l tid m
  | Some edits =>
      log (step w (OpenSettled tid originalDoc))
      = log w ++ [ApplyEdit (originalUri m) edits] /\
      cycleAt (step w (OpenSettled tid originalDoc)) l tid m parsed AwaitApplyEdit
  end.
Proof.
  intros [Hh Ht]. unfold step, openSettled. rewrite Ht, Hh.
  change (regions (set_mutex true m)) with (regions m).
  destruct (originalDoc ≫= _) as [edits|].
  - split; [done|]. split; simpl; [done|]. by rewrite lookup_insert_eq.
  - by apply (finishCycle_over w l tid m parsed AwaitOpenTextDocument true (set_mutex true m)).
Qed.

Lemma applyEditSettled_at w applied :
  cycleAt w l tid m parsed AwaitApplyEdit ->
  match applied with
  | Some true =>
      log (step w (ApplyEditSettled tid applied))
      = log w ++ [SaveDocument (originalUri m)] /\
      cycleAt (step w (ApplyEditSettled tid applied)) l tid m parsed AwaitSave
  | Some false =>
      log (step w (ApplyEditSettled tid applied)) = log w /\
      cycleOver (step w (ApplyEditSettled tid applied)) l tid m
  | None =>
      log (step w (ApplyEditSettled tid applied)) = log w ++ [ConsoleError] /\
      cycleOver (step w (ApplyEditSettled tid applied)) l tid m
  end.
Proof.
  intros [Hh Ht]. unfold step, applyEditSettled. rewrite Ht, Hh.
  destruct applied as [[|]|].
  - split; [done|]. split; simpl; [done|]. by rewrite lookup_insert_eq.
  - destruct (finishCycle_over w l tid m parsed AwaitApplyEdit false (set_mutex true m) Hh eq_refl Ht)
      as [Hlog Hover]. by rewrite app_nil_r in Hlog.
  - by apply (finishCycle_over w l tid m parsed AwaitApplyEdit true (set_mutex true m)).
Qed.

Lemma saveSettled_at w saved :
  cycleAt w l tid m parsed AwaitSave ->
  match saved with
  | Some _ =>
      log (step w (SaveSettled tid saved))
      = log w ++ (if (shiftCalculus parsed 0 (regions m)).2 then [] else [ConsoleError]) /\
      cycleOver (step w (SaveSettled tid saved)) l tid
        (set_regions (shiftCalculus parsed 0 (regions m)).1 m)
  | None =>
      log (step w (SaveSettled tid saved)) = log w ++ [ConsoleError] /\
      cycleOver (step w (SaveSettled tid saved)) l tid m
  end.
Proof.
  intros [Hh Ht]. unfold step, saveSettled. rewrite Ht, Hh.
  change (regions (set_mutex true m)) with (regions m).
  destruct saved as [saved|].
  - destruct (shiftCalculus parsed 0 (regions m)) as [rs ok]. cbn [fst snd].
    destruct (finishCycle_over (update l (set_regions rs) w) l tid
                (set_regions rs m) parsed AwaitSave (negb ok)
                (set_regions rs (set_mutex true m))) as [Hlog Hover].
    + simpl. by rewrite lookup_alter_eq, Hh.
    + reflexivity.
    + exact Ht.
    + split; [|done]. rewrite Hlog. by destruct ok.
  - by apply (finishCycle_over w l tid m parsed AwaitSave true (set_mutex true m)).
Qed.

End Path.

Lemma timerCallback_starts w h l docKey mapping :
  timers w !! h = Some (l, docKey) -> heap w !! l = Some mapping ->
  mutex mapping = false -> tasks w !! nextId w = None ->
  exists parsed,
    parseSandboxText (default [] (buffers w !! docKey)) = Some parsed /\
    if bool_decide (size parsed = length (regions mapping)) then
      log (step w (TimerFired h))
      = log w ++ [OpenTextDocument (originalUri mapping)] /\
      cycleAt (step w (TimerFired h)) l (nextId w) mapping parsed
        AwaitOpenTextDocument
    else
      log (step w (TimerFired h))
      = log w ++ [ShowErrorMessage SeparatorDeleted] /\
      cycleOver (step w (TimerFired h)) l (nextId w) mapping.
Proof.
  intros Ht Hl Hm Hfresh.
  destruct (parseSandboxText_total (default [] (buffers w !! docKey)))
    as [parsed Hp].
  exists parsed. split; [done|].
  unfold step, timerCallback. rewrite Ht. simpl. rewrite Hl, Hm. simpl.
  rewrite Hp. unfold cycleAt, cycleOver, finishCycle.
  case_bool_decide as Hsz.
  - rewrite bool_decide_eq_false_2 by (intros ?; done). simpl.
    by rewrite lookup_alter_eq, Hl, lookup_insert_eq.
  - rewrite bool_decide_eq_true_2 by done. simpl.
    by rewrite !lookup_alter_eq, Hl, Hfresh.
Qed.

(** C7: when the timer of a session fires while the busy flag is set, the
    callback only consumes the timer: nothing is parsed, logged, applied or
    queued, and no range changes.  Otherwise the buffer is parsed.  If the
    guard turns the blocks down, the error is shown and the session is not
    busy afterwards.  If not, the flag is set and [openTextDocument] is
    called; when it answers, the edit built from the parsed blocks and the
    current ranges is submitted; when [applyEdit] answers [true] the
    document is saved; when [save] answers, the shift calculus is run on
    the regions, and the flag is cleared.  A rejection at any of the three
    points, an edit that cannot be built, or [applyEdit] answering [false]
    ends the cycle there with the flag cleared and the mapping as it was.
    Whatever the environment answers, the flag is set exactly while the
    cycle is suspended, the cycle is over after the third answer at the
    latest, and the live flag and the registry are untouched. *)
Theorem live_cycle_busy_flag w h l docKey mapping :
  timers w !! h = Some (l, docKey) -> heap w !! l = Some mapping ->
  tasks w !! nextId w = None ->
  let tid := nextId w in
  let uri := originalUri mapping in
  let w1 := step w (TimerFired h) in
  (mutex mapping = true -> w1 = with_timers (delete h (timers w)) w) /\
  (mutex mapping = false ->
   (exists parsed,
      parseSandboxText (default [] (buffers w !! docKey)) = Some parsed /\
      (size parsed <> length (regions mapping) ->
       log w1 = log w ++ [ShowErrorMessage SeparatorDeleted] /\
       cycleOver w1 l tid mapping) /\
      (size parsed = length (regions mapping) ->
       log w1 = log w ++ [OpenTextDocument uri] /\
       cycleAt w1 l tid mapping parsed AwaitOpenTextDocument /\
       forall originalDoc,
         let w2 := step w1 (OpenSettled tid originalDoc) in
         match originalDoc ≫= (fun d => buildEdit parsed d (regions mapping)) with
         | None =>
             log w2 = log w1 ++ [ConsoleError] /\ cycleOver w2 l tid mapping
         | Some edits =>
             log w2 = log w1 ++ [ApplyEdit uri edits] /\
             cycleAt w2 l tid mapping parsed AwaitApplyEdit /\
             forall applied,
               let w3 := step w2 (ApplyEditSettled tid applied) in
               match applied with
               | None =>
                   log w3 = log w2 ++ [ConsoleError] /\
                   cycleOver w3 l tid mapping
               | Some false =>
                   log w3 = log w2 /\ cycleOver w3 l tid mapping
               | Some true =>
                   log w3 = log w2 ++ [SaveDocument uri] /\
                   cycleAt w3 l tid mapping parsed AwaitSave /\
                   forall saved,
                     let w4 := step w3 (SaveSettled tid saved) in
                     match saved with
                     | None =>
                         log w4 = log w3 ++ [ConsoleError] /\
                         cycleOver w4 l tid mapping
                     | Some _ =>
                         log w4 = log w3 ++
                           (if (shiftCalculus parsed 0 (regions mapping)).2
                            then [] else [ConsoleError]) /\
                         cycleOver w4 l tid
                           (set_regions
                              (shiftCalculus parsed 0 (regions mapping)).1 mapping)
                     end
               end
         end)) /\
   (forall originalDoc applied saved,
      let w2 := step w1 (OpenSettled tid originalDoc) in
      let w3 := step w2 (ApplyEditSettled tid applied) in
      let w4 := step w3 (SaveSettled tid saved) in
      cycleInv w l tid (isLive mapping) (Some AwaitOpenTextDocument) w1 /\
      cycleInv w l tid (isLive mapping) (Some AwaitApplyEdit) w2 /\
      cycleInv w l tid (isLive mapping) (Some AwaitSave) w3 /\
      tasks w4 !! tid = None /\
      mutex <$> heap w4 !! l = Some false /\
      isLive <$> heap w4 !! l = Some (isLive mapping) /\
      sandboxMap w4 = sandboxMap w)).
Proof.
  intros Ht Hl Hfresh tid uri w1. split.
  - intros Hm. by eapply timerCallback_busy.
  - intros Hm. split.
    + destruct (timerCallback_starts w h l docKey mapping Ht Hl Hm Hfresh)
        as (parsed & Hp & Hstart).
      exists parsed. split; [done|]. split.
      * intros Hne. by rewrite bool_decide_eq_false_2 in Hstart.
      * intros Heq. rewrite bool_decide_eq_true_2 in Hstart by done.
        destruct Hstart as [Hlog1 Hat1]. split; [done|]. split; [done|].
        intros originalDoc w2.
        pose proof (openSettled_at l tid mapping parsed w1 originalDoc Hat1) as H2.
        fold w2 in H2. destruct (originalDoc ≫= _) as [edits|]; [|done].
        destruct H2 as [Hlog2 Hat2]. split; [done|]. split; [done|].
        intros applied w3.
        pose proof (applyEditSettled_at l tid mapping parsed w2 applied Hat2) as H3.
        fold w3 in H3. destruct applied as [[|]|]; [|done|done].
        destruct H3 as [Hlog3 Hat3]. split; [done|]. split; [done|].
        intros saved w4.
        exact (saveSettled_at l tid mapping parsed w3 saved Hat3).
    + intros originalDoc applied saved w2 w3 w4.
      assert (cycleInv w l tid (isLive mapping) (Some AwaitOpenTextDocument) w1) as H1
        by (by eapply timerCallback_inv).
      assert (cycleInv w l tid (isLive mapping) (Some AwaitApplyEdit) w2) as H2
        by (by apply openSettled_inv).
      assert (cycleInv w l tid (isLive mapping) (Some AwaitSave) w3) as H3
        by (by apply applyEditSettled_inv).
      split; [done|]. split; [done|]. split; [done|].
      by apply cycleInv_done, saveSettled_inv.
Qed.

(** ** Session termination and the pending timer *)

Lemma applySandboxCmd_log w active :
  exists extra, log (step w (ApplySandbox active)) = log w ++ extra /\
                forallb (fun e => negb (isApplyEdit e)) extra = true.
Proof.
  unfold step, applySandboxCmd. destruct active as [k|]; [|exists []; by rewrite app_nil_r].
  destruct (sandboxMap w !! k) as [l|]; [|by eexists [_]].
  simpl. destruct (heap w !! l ≫= backupUri) as [b|]; simpl.
  - exists [ShowInformationMessage ChangesKept; FsDelete b; CloseActiveEditor].
    by rewrite <- !app_assoc.
  - exists [ShowInformationMessage ChangesKept; CloseActiveEditor].
    by rewrite <- !app_assoc.
Qed.

Lemma applySandboxCmd_timers w active :
  timers (step w (ApplySandbox active)) = timers w /\
  heap (step w (ApplySandbox active)) = heap w.
Proof.
  unfold step, applySandboxCmd. destruct active as [k|]; [|done].
  destruct (sandboxMap w !! k) as [l|]; [|done].
  simpl. by destruct (heap w !! l ≫= backupUri).
Qed.

Lemma discardSandboxCmd_timers w active d :
  timers (step w (DiscardSandbox active d)) = timers w /\
  heap (step w (DiscardSandbox active d)) = heap w.
Proof.
  unfold step, discardSandboxCmd. destruct active as [k|]; [|done].
  destruct (sandboxMap w !! k ≫= _) as [m|]; [|done].
  destruct (d ≫= _) as [edits|]; [|done].
  simpl. by destruct (backupUri m).
Qed.

Lemma applySandboxCmd_unregisters w k l :
  sandboxMap w !! k = Some l ->
  sandboxMap (step w (ApplySandbox (Some k))) = delete k (sandboxMap w).
Proof.
  intros Hk. unfold step, applySandboxCmd. rewrite Hk. simpl.
  by destruct (heap w !! l ≫= backupUri).
Qed.

Lemma discardSandboxCmd_unregisters w k l m d edits :
  sandboxMap w !! k = Some l -> heap w !! l = Some m ->
  buildRestore d (regions m) = Some edits ->
  sandboxMap (step w (DiscardSandbox (Some k) (Some d))) = delete k (sandboxMap w).
Proof.
  intros Hk Hl Hb. unfold step, discardSandboxCmd. rewrite Hk. simpl.
  rewrite Hl, Hb. simpl. by destruct (backupUri m).
Qed.

Lemma timerCallback_ignores_registry w sm h :
  step (with_sandboxMap sm w) (TimerFired h)
  = with_sandboxMap sm (step w (TimerFired h)).
Proof.
  unfold step, timerCallback. simpl.
  destruct (timers w !! h) as [[l k]|]; [|done]. simpl.
  destruct (heap w !! l) as [m|]; [|done].
  destruct (mutex m); [done|].
  destruct (parseSandboxText _) as [parsed|]; [|done].
  by case_bool_decide.
Qed.

(** The single-region edition, for comparison: its accept command submits
    the buffer text, and its slice persists a backup. *)
Lemma single_region_accept_writes_back mapping (text : jsstring) originalDoc
    endText applied :
  lineAt originalDoc
    (Z.min (endLine (SingleRegion.originalRange mapping)) (lineCount originalDoc - 1))
  = Some endText ->
  exists edit,
    newText edit = Some text /\
    ApplyEdit (SingleRegion.originalUri mapping) [edit]
    ∈ (SingleRegion.applySandboxCmd (Some mapping) text (Some originalDoc) applied).1.
Proof.
  intros Hl. unfold SingleRegion.applySandboxCmd, SingleRegion.replaceEdit.
  simpl. rewrite Hl. simpl.
  exists (mkEdit (startLine (SingleRegion.originalRange mapping)) 0
            (Z.min (endLine (SingleRegion.originalRange mapping))
                   (lineCount originalDoc - 1))
            (jslen endText) (Some text)).
  split; [reflexivity|]. destruct applied; simpl; by right; left.
Qed.

Lemma single_region_slice_persists_backup targetUri range content dir path :
  SingleRegion.registerWithBackup targetUri range content dir path true true
  = (SingleRegion.mkMapping targetUri range content false None (Some path) false,
     [FsCreateDirectory dir; FsWriteFile path content]).
Proof. reflexivity. Qed.

(** C10: neither the accept command nor the discard command touches the
    pending timers; both remove the session from the registry; and the
    timer callback runs the same whatever the registry holds, since it works
    on the mapping object it closed over.  In the scenario, the timer set by
    an edit is still pending after the revert (and after the accept), and
    when it fires the stale buffer text is submitted to the original
    artifact, after the revert had restored the backup text. *)
Theorem stale_timer_after_session_end :
  (forall w active, timers (step w (ApplySandbox active)) = timers w) /\
  (forall w active d, timers (step w (DiscardSandbox active d)) = timers w) /\
  (forall w k l, sandboxMap w !! k = Some l ->
     sandboxMap (step w (ApplySandbox (Some k))) = delete k (sandboxMap w)) /\
  (forall w k l m d edits,
     sandboxMap w !! k = Some l -> heap w !! l = Some m ->
     buildRestore d (regions m) = Some edits ->
     sandboxMap (step w (DiscardSandbox (Some k) (Some d))) = delete k (sandboxMap w)) /\
  (forall w sm h,
     step (with_sandboxMap sm w) (TimerFired h)
     = with_sandboxMap sm (step w (TimerFired h))) /\
  (timers liveEdited !! 1%nat = Some (0%nat, sandboxUri) /\
   buffers liveEdited !! sandboxUri = Some editedText) /\
  (sandboxMap reverted !! sandboxUri = None /\
   timers reverted !! 1%nat = Some (0%nat, sandboxUri) /\
   log reverted = log liveEdited ++
     [OpenTextDocument artifactUri; ApplyEdit artifactUri restoreEdits;
      SaveDocument artifactUri; CloseActiveEditor;
      ShowInformationMessage SandboxDiscarded] /\
   log (run reverted staleCycle) = log reverted ++
     [OpenTextDocument artifactUri; ApplyEdit artifactUri staleEdits]) /\
  (sandboxMap accepted !! sandboxUri = None /\
   timers accepted !! 1%nat = Some (0%nat, sandboxUri) /\
   log (run accepted staleCycle) = log accepted ++
     [OpenTextDocument artifactUri; ApplyEdit artifactUri staleEdits]).
Proof.
  split; [intros; apply applySandboxCmd_timers|].
  split; [intros; apply discardSandboxCmd_timers|].
  split; [apply applySandboxCmd_unregisters|].
  split; [apply discardSandboxCmd_unregisters|].
  split; [apply timerCallback_ignores_registry|].
  repeat split; vm_compute; reflexivity.
Qed.

(** ** The accept command *)

(** C5: what the accept command of the multi-region edition does.  It
    submits no edit, whatever the world: with live sync never switched on,
    the edited buffer is dropped (no timer is pending, no edit was or will
    be submitted) and the session is gone. *)
Theorem accept_performs_no_write_back :
  (forall w active,
     exists extra, log (step w (ApplySandbox active)) = log w ++ extra /\
                   forallb (fun e => negb (isApplyEdit e)) extra = true) /\
  (isLive <$> heap editedOffline !! 0%nat = Some false /\
   buffers editedOffline !! sandboxUri = Some editedText /\
   timers editedOffline = ∅ /\
   forallb (fun e => negb (isApplyEdit e)) (log editedOffline) = true) /\
  (log acceptedOffline = log editedOffline ++
     [ShowInformationMessage ChangesKept; CloseActiveEditor] /\
   sandboxMap acceptedOffline = ∅ /\ timers acceptedOffline = ∅ /\
   tasks acceptedOffline = ∅).
Proof.
  split; [apply applySandboxCmd_log|]. repeat split; vm_compute; reflexivity.
Qed.

(** ** Backups *)

Lemma openUnifiedSandbox_log w u ls d syms k :
  exists extra, log (step w (OpenFileSandbox u ls d syms k)) = log w ++ extra /\
                forallb (fun e => negb (isFsWriteFile e)) extra = true.
Proof.
  unfold step, openUnifiedSandbox.
  destruct (generateFrom _ _ _) as [[rs text]|]; [|exists []; by rewrite app_nil_r].
  exists [OpenUntitled text; ShowInformationMessage (SandboxCreated (length rs))].
  simpl. by rewrite <- !app_assoc.
Qed.

Lemma openUnifiedSandbox_registers w u ls d syms k rs text :
  generateFrom d 0 (mergeRanges (lineToRange d syms <$> ls)) = Some (rs, text) ->
  sandboxMap (step w (OpenFileSandbox u ls d syms k)) !! k = Some (nextId w) /\
  heap (step w (OpenFileSandbox u ls d syms k)) !! nextId w
  = Some (mkMapping u rs false None None false).
Proof.
  intros Hg. unfold step, openUnifiedSandbox. rewrite Hg. simpl.
  by rewrite !lookup_insert_eq.
Qed.

(** C9: what a slice does about backups.  [openUnifiedSandbox] writes no
    file, and the mapping it registers has no [backupUri]. *)
Theorem slice_writes_no_backup :
  (forall w u ls d syms k,
     exists extra, log (step w (OpenFileSandbox u ls d syms k)) = log w ++ extra /\
                   forallb (fun e => negb (isFsWriteFile e)) extra = true) /\
  (forall w u ls d syms k rs text,
     generateFrom d 0 (mergeRanges (lineToRange d syms <$> ls)) = Some (rs, text) ->
     sandboxMap (step w (OpenFileSandbox u ls d syms k)) !! k = Some (nextId w) /\
     heap (step w (OpenFileSandbox u ls d syms k)) !! nextId w
     = Some (mkMapping u rs false None None false)) /\
  (sandboxMap sliced !! sandboxUri = Some 0%nat /\
   backupUri <$> heap sliced !! 0%nat = Some None /\
   forallb (fun e => negb (isFsWriteFile e)) (log sliced) = true).
Proof.
  split; [apply openUnifiedSandbox_log|].
  split; [apply openUnifiedSandbox_registers|].
  repeat split; vm_compute; reflexivity.
Qed.

(** ** Unknown and duplicated ids *)

(** C6: what a sync does with an unknown or a duplicated id.  With as
    many distinct ids as regions the guard passes: for an unknown id the
    edit is submitted with [undefined] as the new text of the region that is
    missing, and the shift calculus then throws after it has moved the
    regions before it; for a duplicated id the last block wins and the edit
    is submitted without any error. *)
Theorem unknown_or_duplicate_id_is_applied :
  (parsed_ids unknownIdText = [region_id 0; region_id 7] /\
   log (run (liveWith unknownIdText) fullCycle) =
     log (liveWith unknownIdText) ++
     [OpenTextDocument artifactUri;
      ApplyEdit artifactUri
        [mkEdit 0 0 5 6 (Some shortCode); mkEdit 10 0 18 7 None];
      SaveDocument artifactUri; ConsoleError] /\
   rangesOf (run (liveWith unknownIdText) fullCycle) 0
   = Some [mkRange 0 2; mkRange 10 18]) /\
  (parsed_ids duplicateIdText = [region_id 0; region_id 1; region_id 1] /\
   log (run (liveWith duplicateIdText) fullCycle) =
     log (liveWith duplicateIdText) ++
     [OpenTextDocument artifactUri;
      ApplyEdit artifactUri
        [mkEdit 0 0 5 6 (Some shortCode); mkEdit 10 0 18 7 (Some (str "y"))];
      SaveDocument artifactUri] /\
   rangesOf (run (liveWith duplicateIdText) fullCycle) 0
   = Some [mkRange 0 2; mkRange 7 7]).
Proof. repeat split; vm_compute; reflexivity. Qed.





(** ** Instances of the theorems in the scenario *)

(** The edited buffer of the scenario with the separator of region_1
    deleted: the sync is turned down. *)
Lemma sync_aborts_on_delimiter_count_witness :
  sync_rejected (liveWith deletedLineText)
    (step (liveWith deletedLineText) (TimerFired 1)).
Proof.
  apply (proj2 (proj2 (proj2 (proj1 sync_aborts_on_delimiter_count
                  (liveWith deletedLineText)
                  1%nat 0%nat sandboxUri liveMapping deletedLineText
                  eq_refl eq_refl eq_refl eq_refl)))
           (regionBlock (region_id 0) shortCode)
           (separator_line (region_id 1))
           (region1Code ++ [LF; LF])).
  - right. vm_compute. reflexivity.
  - exists (region_id 1). vm_compute. reflexivity.
  - vm_compute. reflexivity.
  - reflexivity.
Defined.

(** The two regions of the scenario are read back from their rendering. *)
Lemma roundtrip_render_parse_witness :
  exists parsed,
    parseSandboxText (sandboxTextOf slicedRegions) = Some parsed /\
    size parsed = 2%nat /\
    parsed !! region_id 1 = Some region1Code.
Proof.
  destruct (roundtrip_render_parse artifact [mkRange 0 5; mkRange 10 18]
              slicedRegions (sandboxTextOf slicedRegions)) as [(parsed & Hp & Hs & Hl) _].
  - vm_compute. reflexivity.
  - intros r Hr. unfold slicedRegions in Hr.
    apply elem_of_cons in Hr as [->|Hr];
      [|apply elem_of_cons in Hr as [->|Hr]; [|by apply elem_of_nil in Hr]];
      (split; [vm_compute; reflexivity | vm_compute; discriminate]).
  - exists parsed. split; [done|]. split; [done|].
    apply (Hl (mkRegion (region_id 1) (mkRange 10 18) region1Code)).
    unfold slicedRegions. by right; left.
Defined.

(** Three candidate ranges, two of which overlap. *)
Lemma merge_ranges_correct_witness :
  mergeRanges [mkRange 10 18; mkRange 0 5; mkRange 4 7]
  = [mkRange 0 7; mkRange 10 18] /\
  (startLine (mkRange 0 7) <= endLine (mkRange 0 7) < startLine (mkRange 10 18) /\
   startLine (mkRange 10 18) <= endLine (mkRange 10 18)).
Proof.
  split; [reflexivity|].
  apply (proj2 (proj2 (merge_ranges_correct
                         [mkRange 10 18; mkRange 0 5; mkRange 4 7]))) with (i := 0%nat).
  - intros r Hr.
    repeat (apply elem_of_cons in Hr as [->|Hr]; [simpl; lia|]).
    by apply elem_of_nil in Hr.
  - reflexivity.
  - reflexivity.
Defined.

(** Line 4 of the nested symbols lies in the method on lines 3 to 8, the
    innermost container of its path; line 1 has no container on its path
    and gets the variable; line 15 of the scenario lies in the function on
    lines 10 to 18. *)
Lemma symbol_boundary_or_raw_symbol_witness :
  lineToRange artifact nestedSymbols 4 = mkRange 3 8 /\
  lineToRange artifact nestedSymbols 1 = mkRange 0 19 /\
  lineToRange artifact artifactSymbols 15 = mkRange 10 18.
Proof.
  pose proof (symbol_boundary_or_raw_symbol artifact nestedSymbols 4) as H4.
  pose proof (symbol_boundary_or_raw_symbol artifact nestedSymbols 1) as H1.
  pose proof (symbol_boundary_or_raw_symbol artifact artifactSymbols 15) as H15.
  cbn [List.find nestedSymbols artifactSymbols] in H4, H1, H15.
  destruct H4 as (s4 & _ & _ & _ & -> & -> & _).
  destruct H1 as (s1 & _ & _ & _ & -> & -> & _).
  destruct H15 as (s15 & _ & _ & _ & -> & -> & _).
  repeat split.
Defined.

(** The last step of the cycle of the scenario. *)
Lemma shift_calculus_after_apply_witness :
  exists rs',
    regions <$> heap (step awaitingSave (SaveSettled 2 (Some true))) !! 0%nat
    = Some rs' /\
    originalRange <$> rs' = [mkRange 0 2; mkRange 7 15].
Proof.
  destruct (proj1 shift_calculus_after_apply awaitingSave 2%nat 0%nat
              editedParsed (set_mutex true liveMapping) true)
    as (rs' & Hr & _ & _ & _ & Hs).
  - vm_compute. reflexivity.
  - vm_compute. reflexivity.
  - exists rs'. split; [exact Hr|]. rewrite Hs; [vm_compute; reflexivity|].
    intros r Hr'.
    apply (proj1 (knownPrefix_all editedParsed slicedRegions));
      [vm_compute; reflexivity | exact Hr'].
Defined.

(** The cycle of the scenario in which the environment accepts
    everything, and one in which [openTextDocument] rejects. *)
Lemma live_cycle_busy_flag_witness :
  (log synced = log liveEdited ++
     [OpenTextDocument artifactUri; ApplyEdit artifactUri staleEdits;
      SaveDocument artifactUri] /\
   cycleOver synced 0 2
     (set_regions [mkRegion (region_id 0) (mkRange 0 2) region0Code;
                   mkRegion (region_id 1) (mkRange 7 15) region1Code] liveMapping)) /\
  (tasks (run liveEdited [TimerFired 1; OpenSettled 2 None;
                          ApplyEditSettled 2 (Some true); SaveSettled 2 None])
     !! 2%nat = None /\
   mutex <$> heap (run liveEdited [TimerFired 1; OpenSettled 2 None;
                                   ApplyEditSettled 2 (Some true);
                                   SaveSettled 2 None]) !! 0%nat = Some false).
Proof.
  destruct (proj2 (live_cycle_busy_flag liveEdited 1%nat 0%nat sandboxUri
                     liveMapping eq_refl eq_refl eq_refl) eq_refl)
    as [(parsed & Hp & _ & Hrun) Hany].
  split.
  - assert (parseSandboxText (default [] (buffers liveEdited !! sandboxUri))
            = Some editedParsed) as Hp' by (vm_compute; reflexivity).
    rewrite Hp' in Hp. injection Hp as <-.
    destruct Hrun as (Hlog1 & _ & Hrun); [vm_compute; reflexivity|].
    specialize (Hrun (Some artifact)).
    change (Some artifact ≫= (fun d => buildEdit editedParsed d (regions liveMapping)))
      with (Some staleEdits) in Hrun.
    destruct Hrun as (Hlog2 & _ & Hrun).
    destruct (Hrun (Some true)) as (Hlog3 & _ & Hsave).
    destruct (Hsave (Some true)) as (Hlog4 & Hover).
    change (shiftCalculus editedParsed 0 (regions liveMapping))
      with ([mkRegion (region_id 0) (mkRange 0 2) region0Code;
             mkRegion (region_id 1) (mkRange 7 15) region1Code], true)
      in Hlog4, Hover.
    cbn [fst snd] in Hlog4, Hover. split; [|exact Hover].
    rewrite Hlog3, Hlog2, Hlog1, app_nil_r, <- !app_assoc in Hlog4.
    exact Hlog4.
  - destruct (Hany None (Some true) None) as (_ & _ & _ & Ht & Hm & _).
    split; [exact Ht | exact Hm].
Defined.

(** The revert of the scenario, with timer 1 pending. *)
Lemma stale_timer_after_session_end_witness :
  sandboxMap (step liveEdited (DiscardSandbox (Some sandboxUri) (Some artifact)))
  = delete sandboxUri (sandboxMap liveEdited) /\
  timers (step liveEdited (DiscardSandbox (Some sandboxUri) (Some artifact)))
  = timers liveEdited.
Proof.
  destruct stale_timer_after_session_end as (_ & Ht & _ & Hd & _).
  split; [|apply Ht].
  apply (Hd liveEdited sandboxUri 0%nat liveMapping artifact restoreEdits);
    vm_compute; reflexivity.
Defined.

(** The slice of the scenario. *)
Lemma slice_writes_no_backup_witness :
  sandboxMap sliced !! sandboxUri = Some 0%nat /\
  heap sliced !! 0%nat
  = Some (mkMapping artifactUri slicedRegions false None None false).
Proof.
  apply (proj1 (proj2 slice_writes_no_backup) initial artifactUri [2; 15]
           artifact artifactSymbols sandboxUri slicedRegions
           (sandboxTextOf slicedRegions)).
  vm_compute. reflexivity.
Defined.

(** * Further properties *)

(** ** Lines of a text *)

Lemma split_lines_from_spec (n : nat) (s cur : jsstring) :
  (length s <= n)%nat -> LF ∉ cur ->
  length (split_lines_from cur s) = S (countLF s) /\
  Forall (fun p => LF ∉ p) (split_lines_from cur s).
Proof.
  revert s cur. induction n as [|n IH]; intros s cur Hn Hcur.
  { destruct s; [|simpl in Hn; lia]. simpl. split; [done|]. by repeat constructor. }
  destruct s as [|c t]; [simpl; split; [done|by repeat constructor]|].
  simpl in Hn. assert (LF ∉ ([] : jsstring)) as Hnil by apply not_elem_of_nil.
  assert (forall x, x <> LF -> LF ∉ cur ++ [x]) as Hsnoc.
  { intros x Hx. rewrite elem_of_app, list_elem_of_singleton. intros [?|?]; [done|].
    by apply Hx. }
  cbn [split_lines_from]. unfold countLF. rewrite filter_cons.
  destruct (N.eqb_spec c LF) as [->|Hc].
  - rewrite decide_True by done. destruct (IH t [] ltac:(lia) Hnil) as [Hl Hf].
    split; [simpl; by rewrite Hl|]. by constructor.
  - rewrite decide_False by done. fold (countLF t).
    destruct (N.eqb_spec c CR) as [->|Hcr].
    + destruct t as [|d t'].
      * apply (IH [] _ ltac:(simpl; lia)). by apply Hsnoc.
      * destruct (N.eqb_spec d LF) as [->|Hd].
        -- simpl in Hn. destruct (IH t' [] ltac:(lia) Hnil) as [Hl Hf].
           unfold countLF. rewrite filter_cons, decide_True by done.
           split; [simpl; by rewrite Hl|]. by constructor.
        -- apply (IH (d :: t') _ ltac:(simpl in *; lia)). by apply Hsnoc.
    + apply (IH t _ ltac:(lia)). by apply Hsnoc.
Qed.

Lemma lineCountOf_pos (code : jsstring) : 1 <= lineCountOf code.
Proof.
  unfold lineCountOf, split_newlines.
  destruct (split_lines_from_spec (length code) code [] (le_n _) (not_elem_of_nil _))
    as [-> _]. lia.
Qed.

(** X1: [split(/\r?\n/)] cuts a text into one more piece than it has line
    feeds, and no piece holds a line feed: the new code of a region never
    counts zero lines. *)
Theorem split_newlines_count (s : jsstring) :
  length (split_newlines s) = S (countLF s) /\
  Forall (fun p => LF ∉ p) (split_newlines s) /\
  1 <= lineCountOf s.
Proof.
  destruct (split_lines_from_spec (length s) s [] (le_n _) (not_elem_of_nil _))
    as [Hl Hf].
  split; [done|]. split; [done|]. unfold lineCountOf, split_newlines. rewrite Hl. lia.
Qed.

(** ** What the parse loop reads *)

Lemma parsed_ids_valid (s : jsstring) : Forall valid_id (parsed_ids s).
Proof.
  induction s as [|s cap rest Hm IH|c t Hm IH] using split_scan_ind.
  - constructor.
  - rewrite (parsed_ids_match _ _ _ Hm). constructor; [|done].
    apply match_separator_Some in Hm as (ds & nl & Hd & _ & -> & _).
    by exists ds.
  - by rewrite (parsed_ids_nomatch _ _ Hm).
Qed.

Lemma split_length_ids (s cur : jsstring) :
  length (split_from 0 cur s) = S (2 * length (part_ids (tail (split_from 0 cur s)))).
Proof.
  destruct (split_blocks s cur) as (bs & Hbs).
  destruct (split_from_cur 0 cur s) as (p & ps & _ & Heq).
  rewrite Heq in Hbs |- *. simpl in Hbs. simpl. rewrite Hbs, part_ids_flat.
  f_equal. rewrite length_fmap. clear. induction bs as [|[i c] r IH]; simpl; [done|].
  rewrite IH. lia.
Qed.

(** X2: the parse loop never reads past the end of [parts]: the text always
    splits into an odd number of pieces, so every id has its code and a
    map is returned.  The keys of the map are the ids of the separators
    found, each of the form [region_] and digits, and the map has at most
    as many entries as ids were read. *)
Theorem parse_never_throws (sandboxText : jsstring) :
  exists parsed,
    parseSandboxText sandboxText = Some parsed /\
    dom parsed = list_to_set (parsed_ids sandboxText) /\
    (size parsed <= length (parsed_ids sandboxText))%nat /\
    Forall valid_id (parsed_ids sandboxText) /\
    length (split_SEPARATOR_REGEX sandboxText)
    = S (2 * length (parsed_ids sandboxText)).
Proof.
  destruct (parseSandboxText_total sandboxText) as [parsed Hp].
  exists parsed. split; [done|].
  pose proof (parseSandboxText_dom _ _ Hp) as Hd. split; [done|].
  split.
  - rewrite <- size_dom, Hd. clear.
    induction (parsed_ids sandboxText) as [|x l IH].
    + by rewrite list_to_set_nil, size_empty.
    + rewrite list_to_set_cons, size_union_alt, size_singleton. simpl.
      assert (size (list_to_set l ∖ {[x]} : gset jsstring)
              <= size (list_to_set l : gset jsstring))%nat.
      { by apply subseteq_size, subseteq_difference_l. }
      lia.
  - split; [apply parsed_ids_valid|]. apply split_length_ids.
Qed.

(** ** The shift calculus: order and repetition *)

Lemma shiftCalculus_cons parsed shift r rest rs' :
  shiftCalculus parsed shift (r :: rest) = (rs', true) ->
  exists code rest',
    parsed !! id r = Some code /\
    shiftCalculus parsed (shift + (lineCountOf code - spanOf r)) rest = (rest', true) /\
    rs' = mkRegion (id r)
            (mkRange (startLine (originalRange r) + shift)
                     (startLine (originalRange r) + shift + lineCountOf code - 1))
            (originalContent r) :: rest'.
Proof.
  cbn [shiftCalculus]. destruct (parsed !! id r) as [code|]; [|done].
  fold (lineCountOf code). fold (spanOf r).
  destruct (shiftCalculus parsed _ rest) as [rest' ok] eqn:Hrest.
  intros [= <- ->]. by exists code, rest'.
Qed.

Lemma shiftCalculus_fitted parsed shift rs rs' :
  shiftCalculus parsed shift rs = (rs', true) ->
  Forall (fitted parsed) rs' /\ id <$> rs' = id <$> rs /\
  originalContent <$> rs' = originalContent <$> rs.
Proof.
  revert shift rs'. induction rs as [|r rest IH]; intros shift rs'.
  - intros [= <-]. by repeat split.
  - intros (code & rest' & Hc & Hrest & ->)%shiftCalculus_cons.
    destruct (IH _ _ Hrest) as (Hf & Hi & Hco).
    split; [|by rewrite !fmap_cons, Hi, Hco].
    constructor; [|done]. exists code. split; [done|]. unfold spanOf. simpl. lia.
Qed.

Lemma shiftCalculus_head parsed shift r rest rs' :
  shiftCalculus parsed shift (r :: rest) = (rs', true) ->
  exists r' rest', rs' = r' :: rest' /\
    startLine (originalRange r') = startLine (originalRange r) + shift.
Proof.
  intros (code & rest' & _ & _ & ->)%shiftCalculus_cons. by eexists _, _.
Qed.

Lemma shiftCalculus_gaps parsed shift rs rs' i a b a' b' :
  shiftCalculus parsed shift rs = (rs', true) ->
  rs !! i = Some a -> rs !! S i = Some b ->
  rs' !! i = Some a' -> rs' !! S i = Some b' ->
  startLine (originalRange b') - endLine (originalRange a')
  = startLine (originalRange b) - endLine (originalRange a).
Proof.
  revert shift rs' i. induction rs as [|r rest IH]; intros shift rs' i Hs; [done|].
  apply shiftCalculus_cons in Hs as (code & rest' & Hc & Hrest & ->).
  destruct i as [|i]; simpl.
  - intros [= <-] Hb [= <-] Hb'. destruct rest as [|b0 rest]; [done|].
    simpl in Hb. injection Hb as ->.
    apply shiftCalculus_head in Hrest as (r' & rest'' & -> & Hst).
    simpl in Hb'. injection Hb' as ->. rewrite Hst. unfold spanOf. simpl. lia.
  - by apply (IH _ _ _ Hrest).
Qed.

Lemma shiftCalculus_noop parsed rs :
  Forall (fitted parsed) rs -> shiftCalculus parsed 0 rs = (rs, true).
Proof.
  induction 1 as [|r rest (code & Hc & Hspan) _ IH]; [done|].
  cbn [shiftCalculus]. rewrite Hc. fold (lineCountOf code). unfold spanOf in Hspan.
  replace (0 + (lineCountOf code -
       (endLine (originalRange r) - startLine (originalRange r) + 1))) with 0 by lia.
  rewrite IH. f_equal. f_equal. destruct r as [i [s e] c]. simpl in *.
  do 2 f_equal; lia.
Qed.

(** X3: when the shift calculus runs to its end, the distance between the
    end of a region and the start of the next one is what it was, every
    new range has its start before or at its end, and the first region
    starts where it started: regions that were in order and apart stay so. *)
Theorem shift_calculus_keeps_order parsed rs rs' :
  shiftCalculus parsed 0 rs = (rs', true) ->
  (forall i a b a' b',
     rs !! i = Some a -> rs !! S i = Some b ->
     rs' !! i = Some a' -> rs' !! S i = Some b' ->
     startLine (originalRange b') - endLine (originalRange a')
     = startLine (originalRange b) - endLine (originalRange a)) /\
  (forall r', r' ∈ rs' -> startLine (originalRange r') <= endLine (originalRange r')) /\
  (startLine <$> (originalRange <$> head rs')) = (startLine <$> (originalRange <$> head rs)).
Proof.
  intros Hs. split; [|split].
  - intros i a b a' b'. by apply (shiftCalculus_gaps parsed 0 rs rs').
  - intros r' Hr'. destruct (shiftCalculus_fitted _ _ _ _ Hs) as (Hf & _).
    rewrite Forall_forall in Hf. destruct (Hf _ Hr') as (code & _ & Hspan).
    unfold spanOf in Hspan. pose proof (lineCountOf_pos code). lia.
  - destruct rs as [|r rest]; [by injection Hs as <-|].
    apply shiftCalculus_head in Hs as (r' & rest' & -> & Hst). simpl.
    rewrite Hst. do 2 f_equal. lia.
Qed.

(** X4: the ranges the shift calculus leaves are a fixed point of it: a
    second cycle with the same parsed blocks moves no range. *)
Theorem shift_calculus_idempotent parsed rs rs' :
  shiftCalculus parsed 0 rs = (rs', true) ->
  shiftCalculus parsed 0 rs' = (rs', true).
Proof.
  intros Hs. apply shiftCalculus_noop. by apply (shiftCalculus_fitted parsed 0 rs).
Qed.

(** ** What holds of every world the extension can reach *)

Section Wf.

Lemma wf_initial : wf_world initial.
Proof. by split; intros *; simpl; rewrite lookup_empty. Qed.

Lemma wf_emit e w : wf_world w -> wf_world (emit e w).
Proof. intros [H1 H2 H3 H4 H5]. by split. Qed.

Lemma wf_with_buffers b w : wf_world w -> wf_world (with_buffers b w).
Proof. intros [H1 H2 H3 H4 H5]. by split. Qed.

Lemma wf_with_sandboxMap sm w :
  wf_world w -> (forall k l, sm !! k = Some l -> is_Some (heap w !! l)) ->
  wf_world (with_sandboxMap sm w).
Proof. intros [H1 H2 H3 H4 H5] Hsm. by split. Qed.

Lemma wf_delete_registry k w :
  wf_world w -> wf_world (with_sandboxMap (delete k (sandboxMap w)) w).
Proof.
  intros Hw. apply wf_with_sandboxMap; [done|].
  intros k' l [_ Hl]%lookup_delete_Some. by apply (wf_registry w Hw k').
Qed.

(** A write to a field other than [debounce] and [mutex]. *)
Lemma wf_update l f w :
  (forall m, debounce (f m) = debounce m /\ mutex (f m) = mutex m) ->
  wf_world w -> wf_world (update l f w).
Proof.
  intros Hf [H1 H2 H3 H4 H5]. split; simpl.
  - intros l' m'. rewrite lookup_alter. case_decide as Hd.
    + subst l'. destruct (heap w !! l) as [m|] eqn:Hm; [|done]. intros [= <-].
      destruct (H1 _ _ Hm) as [? Hmx]. split; [done|].
      destruct (Hf m) as [_ ->]. done.
    + apply H1.
  - intros k l' Hk. destruct (H2 _ _ Hk) as [m Hm].
    rewrite lookup_alter. case_decide; simplify_eq; rewrite Hm; by eexists.
  - intros h l' k Hh. destruct (H3 _ _ _ Hh) as (? & m & Hm & Hd). split; [done|].
    rewrite lookup_alter. case_decide; simplify_eq; rewrite Hm; simpl; eexists; split; try done.
    by destruct (Hf m) as [-> _].
  - intros t tk Ht. destruct (H4 _ _ Ht) as (? & m & Hm & Hd). split; [done|].
    rewrite lookup_alter. case_decide; simplify_eq; rewrite Hm; simpl; eexists; split; try done.
    by destruct (Hf m) as [_ ->].
  - done.
Qed.

(** The end of a cycle: the flag is cleared and the cycle forgotten. *)
Lemma wf_finishCycle t tk threw w :
  wf_world w -> tasks w !! t = Some tk ->
  wf_world (finishCycle (Some t) (taskMapping tk) threw w).
Proof.
  intros Hw Ht. unfold finishCycle.
  assert (wf_world (if threw then emit ConsoleError w else w)) as Hw'
    by (destruct threw; [by apply wf_emit|done]).
  assert (tasks (if threw then emit ConsoleError w else w) !! t = Some tk) as Ht'
    by (by destruct threw).
  revert Hw' Ht'. generalize (if threw then emit ConsoleError w else w).
  clear Hw Ht w. intros w [H1 H2 H3 H4 H5] Ht. split; simpl.
  - intros l' m'. rewrite lookup_alter. case_decide as Hd.
    + subst l'. destruct (heap w !! taskMapping tk) as [m|] eqn:Hm; [|done].
      intros [= <-]. simpl. split; [by apply (H1 _ m)|done].
    + intros Hm'. destruct (H1 _ _ Hm') as [? Hmx]. split; [done|].
      intros Htrue. destruct (Hmx Htrue) as (t' & tk' & Ht' & Hl').
      exists t', tk'. split; [|done]. rewrite lookup_delete_ne; [done|].
      intros ->. rewrite Ht in Ht'. injection Ht' as <-. done.
  - intros k l' Hk. destruct (H2 _ _ Hk) as [m Hm].
    rewrite lookup_alter. case_decide; simplify_eq; rewrite Hm; by eexists.
  - intros h l' k Hh. destruct (H3 _ _ _ Hh) as (? & m & Hm & Hd). split; [done|].
    rewrite lookup_alter. case_decide; simplify_eq; rewrite Hm; simpl; eexists; by split.
  - intros t' tk' [Hne Ht']%lookup_delete_Some.
    destruct (H4 _ _ Ht') as (? & m & Hm & Hd). split; [done|].
    rewrite lookup_alter_ne; [by exists m|].
    intros Heq. apply Hne. by apply (H5 t t' tk tk').
  - intros t1 t2 tk1 tk2 [_ Ht1]%lookup_delete_Some [_ Ht2]%lookup_delete_Some.
    by apply H5.
Qed.

Lemma wf_set_stage t tk st w :
  wf_world w -> tasks w !! t = Some tk -> wf_world (set_stage t tk st w).
Proof.
  intros [H1 H2 H3 H4 H5] Ht. split; simpl; try done.
  - intros l m Hm. destruct (H1 _ _ Hm) as [? Hmx]. split; [done|].
    intros Htrue. destruct (Hmx Htrue) as (t' & tk' & Ht' & Hl').
    destruct (decide (t' = t)) as [->|Hne].
    + rewrite Ht in Ht'. injection Ht' as <-. eexists t, _.
      by rewrite lookup_insert_eq.
    + exists t', tk'. by rewrite lookup_insert_ne.
  - intros t' tk'. rewrite lookup_insert. case_decide.
    + subst t'. intros [= <-]. simpl. by apply (H4 t tk).
    + apply H4.
  - intros t1 t2 tk1 tk2. rewrite !lookup_insert.
    repeat case_decide; subst; try done.
    + intros [= <-] Ht2. simpl. intros Heq. by apply (H5 t1 t2 tk tk2).
    + intros Ht1 [= <-]. simpl. intros Heq. by apply (H5 t1 t2 tk1 tk).
    + apply H5.
Qed.

Lemma wf_openUnifiedSandbox u ls d syms k w :
  wf_world w -> wf_world (openUnifiedSandbox u ls d syms k w).
Proof.
  intros Hw. unfold openUnifiedSandbox.
  destruct (generateFrom _ _ _) as [[rs text]|]; [|done].
  apply wf_emit. destruct Hw as [H1 H2 H3 H4 H5]. split; simpl.
  - intros l m. rewrite lookup_insert. case_decide.
    + subst l. intros [= <-]. split; [lia|done].
    + intros Hm. destruct (H1 _ _ Hm). split; [lia|done].
  - intros k' l. rewrite lookup_insert. case_decide.
    + intros [= <-]. rewrite lookup_insert_eq. by eexists.
    + intros Hk. destruct (H2 _ _ Hk) as [m Hm].
      destruct (H1 _ _ Hm) as [Hlt _].
      rewrite lookup_insert_ne by lia. by eexists.
  - intros h l k' Hh. destruct (H3 _ _ _ Hh) as (? & m & Hm & Hd).
    destruct (H1 _ _ Hm) as [Hlt _]. split; [lia|].
    exists m. by rewrite lookup_insert_ne by lia.
  - intros t tk Ht. destruct (H4 _ _ Ht) as (? & m & Hm & Hd).
    destruct (H1 _ _ Hm) as [Hlt _]. split; [lia|].
    exists m. by rewrite lookup_insert_ne by lia.
  - done.
Qed.

Lemma wf_applySandboxCmd a w : wf_world w -> wf_world (applySandboxCmd a w).
Proof.
  intros Hw. unfold applySandboxCmd. destruct a as [k|]; [|done].
  destruct (sandboxMap w !! k) as [l|]; [|by apply wf_emit].
  apply wf_emit.
  apply (wf_delete_registry k
           (match heap (emit (ShowInformationMessage ChangesKept) w) !! l ≫= backupUri with
            | Some b => emit (FsDelete b) (emit (ShowInformationMessage ChangesKept) w)
            | None => emit (ShowInformationMessage ChangesKept) w
            end)).
  destruct (_ ≫= backupUri); repeat apply wf_emit; done.
Qed.

Lemma wf_discardSandboxCmd a d w : wf_world w -> wf_world (discardSandboxCmd a d w).
Proof.
  intros Hw. unfold discardSandboxCmd. destruct a as [k|]; [|done].
  destruct (sandboxMap w !! k ≫= _) as [m|]; [|done].
  destruct (d ≫= _) as [edits|]; [|by repeat apply wf_emit].
  do 2 apply wf_emit.
  set (w1 := emit (SaveDocument _) _).
  assert (wf_world w1) as Hw1 by (by repeat apply wf_emit).
  apply (wf_delete_registry k
           (match backupUri m with Some b => emit (FsDelete b) w1 | None => w1 end)).
  destruct (backupUri m); [by apply wf_emit|done].
Qed.

Lemma wf_toggleLiveSyncCmd a w : wf_world w -> wf_world (toggleLiveSyncCmd a w).
Proof.
  intros Hw. unfold toggleLiveSyncCmd. destruct a as [k|]; [|done].
  destruct (sandboxMap w !! k ≫= _) as [[l m]|]; [|done].
  by apply wf_emit, wf_update.
Qed.

Lemma wf_changeListener k u text w :
  wf_world w -> wf_world (changeListener k u text w).
Proof.
  intros Hw. unfold changeListener.
  set (w0 := with_buffers _ w).
  assert (wf_world w0) as Hw0 by (by apply wf_with_buffers).
  clearbody w0. clear Hw w.
  destruct u; cbn [negb]; [|done].
  destruct (sandboxMap w0 !! k ≫= _) as [[l m]|] eqn:Hreg; [|done].
  destruct (isLive m); cbn [negb]; [|done].
  assert (heap w0 !! l = Some m) as Hm.
  { destruct (sandboxMap w0 !! k) as [l0|]; simpl in Hreg; [|done].
    destruct (heap w0 !! l0) as [m0|] eqn:Hm0; simpl in Hreg; [|done].
    by simplify_eq. }
  clear Hreg. destruct Hw0 as [H1 H2 H3 H4 H5].
  set (w1 := match debounce m with
             | Some h => with_timers (delete h (timers w0)) w0
             | None => w0
             end).
  assert (heap w1 = heap w0 /\ tasks w1 = tasks w0 /\ nextId w1 = nextId w0 /\
          sandboxMap w1 = sandboxMap w0 /\
          forall h l' k', timers w1 !! h = Some (l', k') ->
            timers w0 !! h = Some (l', k') /\ l' <> l) as (Eh & Et & En & Es & Htm).
  { subst w1. destruct (debounce m) as [h0|] eqn:Hd; simpl; repeat split; try done.
    - by apply lookup_delete_Some in H as [_ ?].
    - intros ->. apply lookup_delete_Some in H as [Hne Hh].
      destruct (H3 _ _ _ Hh) as (_ & m' & Hm' & Hd'). simplify_eq.
    - intros ->. destruct (H3 _ _ _ H) as (_ & m' & Hm' & Hd'). simplify_eq. }
  clearbody w1. split; simpl; rewrite ?Eh, ?Et, ?En, ?Es.
  - intros l' m'. rewrite lookup_alter. case_decide.
    + subst l'. rewrite Hm. intros [= <-]. destruct (H1 _ _ Hm). split; [lia|done].
    + intros Hm'. destruct (H1 _ _ Hm'). split; [lia|done].
  - intros k' l' Hk. destruct (H2 _ _ Hk) as [m' Hm'].
    rewrite lookup_alter. case_decide; [subst|]; rewrite Hm'; by eexists.
  - intros h l' k'. rewrite lookup_insert. case_decide.
    + subst h. intros [= <- <-]. split; [lia|].
      rewrite lookup_alter_eq, Hm. by eexists.
    + intros Hh. destruct (Htm _ _ _ Hh) as [Hh0 Hne].
      destruct (H3 _ _ _ Hh0) as (? & m' & Hm' & Hd'). split; [lia|].
      exists m'. by rewrite lookup_alter_ne.
  - intros t tk Ht. destruct (H4 _ _ Ht) as (? & m' & Hm' & Hd'). split; [lia|].
    rewrite lookup_alter. case_decide; [subst|]; rewrite Hm'; simpl; by eexists.
  - done.
Qed.

Lemma wf_delete_timer h w :
  wf_world w -> wf_world (with_timers (delete h (timers w)) w).
Proof.
  intros [H1 H2 H3 H4 H5]. split; simpl; try done.
  intros h' l k [_ Hh]%lookup_delete_Some. by apply (H3 h' l k).
Qed.

(** A cycle that ends in the step in which it began. *)
Lemma wf_cycle_aborted l m threw w w' :
  wf_world w -> heap w !! l = Some m -> mutex m = false ->
  heap w' = alter (set_mutex true) l (heap w) ->
  sandboxMap w' = sandboxMap w -> timers w' = timers w -> tasks w' = tasks w ->
  nextId w' = nextId w ->
  wf_world (finishCycle None l threw w').
Proof.
  intros [H1 H2 H3 H4 H5] Hm Hmx Eh Es Etm Et En.
  assert (heap (finishCycle None l threw w') = heap w) as Eh'.
  { unfold finishCycle. destruct threw; simpl; rewrite Eh;
      by apply (mutex_set_and_cleared _ _ m). }
  split; unfold finishCycle in *; destruct threw; simpl in *;
    rewrite ?Eh', ?Es, ?Etm, ?Et, ?En; done.
Qed.

Lemma wf_timerCallback h w : wf_world w -> wf_world (timerCallback h w).
Proof.
  intros Hw. unfold timerCallback.
  destruct (timers w !! h) as [[l k]|] eqn:Hh; [|done].
  pose proof (wf_delete_timer h w Hw) as Hw1.
  set (w1 := with_timers (delete h (timers w)) w) in *.
  destruct (heap w1 !! l) as [m|] eqn:Hm; [|done].
  destruct (mutex m) eqn:Hmx; [done|].
  destruct (parseSandboxText _) as [parsed|];
    [|by apply (wf_cycle_aborted l m true w1)].
  case_bool_decide; [by apply (wf_cycle_aborted l m false w1)|].
  clearbody w1. destruct Hw1 as [H1 H2 H3 H4 H5].
  assert (forall t tk, tasks w1 !! t = Some tk -> taskMapping tk <> l) as Hnot.
  { intros t tk Ht Heq. destruct (H4 _ _ Ht) as (_ & m' & Hm' & Hd').
    rewrite Heq, Hm in Hm'. simplify_eq. congruence. }
  split; simpl.
  - intros l' m'. rewrite lookup_alter. case_decide.
    + subst l'. rewrite Hm. intros [= <-]. destruct (H1 _ _ Hm). split; [lia|].
      intros _. eexists (nextId w1), _. by rewrite lookup_insert_eq.
    + intros Hm'. destruct (H1 _ _ Hm') as [? Hmx']. split; [lia|].
      intros Htrue. destruct (Hmx' Htrue) as (t & tk & Ht & Hl).
      destruct (H4 _ _ Ht) as [Hlt _].
      exists t, tk. by rewrite lookup_insert_ne by lia.
  - intros k' l' Hk. destruct (H2 _ _ Hk) as [m' Hm'].
    rewrite lookup_alter. case_decide; [subst|]; rewrite Hm'; by eexists.
  - intros h' l' k' Hh'. destruct (H3 _ _ _ Hh') as (? & m' & Hm' & Hd'). split; [lia|].
    rewrite lookup_alter. case_decide; [subst|]; rewrite Hm'; simpl; by eexists.
  - intros t tk. rewrite lookup_insert. case_decide.
    + subst t. intros [= <-]. simpl. split; [lia|].
      rewrite lookup_alter_eq, Hm. by eexists.
    + intros Ht. destruct (H4 _ _ Ht) as (? & m' & Hm' & Hd'). split; [lia|].
      exists m'. rewrite lookup_alter_ne; [done|]. intros Heq.
      by apply (Hnot _ _ Ht).
  - intros t1 t2 tk1 tk2. rewrite !lookup_insert.
    repeat case_decide; subst; try done.
    + intros [= <-] Ht2. simpl. intros Heq. by destruct (Hnot _ _ Ht2).
    + intros Ht1 [= <-]. simpl. intros Heq. by destruct (Hnot _ _ Ht1).
    + apply H5.
Qed.

Lemma wf_openSettled t d w : wf_world w -> wf_world (openSettled t d w).
Proof.
  intros Hw. unfold openSettled.
  destruct (tasks w !! t) as [[l parsed []]|] eqn:Ht; try done.
  destruct (heap w !! l) as [m|]; [|done].
  destruct (d ≫= _) as [edits|].
  - apply wf_set_stage; [by apply wf_emit|done].
  - by apply (wf_finishCycle t (mkTask l parsed AwaitOpenTextDocument)).
Qed.

Lemma wf_applyEditSettled t a w : wf_world w -> wf_world (applyEditSettled t a w).
Proof.
  intros Hw. unfold applyEditSettled.
  destruct (tasks w !! t) as [[l parsed []]|] eqn:Ht; try done.
  destruct (heap w !! l) as [m|]; [|done].
  destruct a as [[|]|].
  - apply wf_set_stage; [by apply wf_emit|done].
  - by apply (wf_finishCycle t (mkTask l parsed AwaitApplyEdit)).
  - by apply (wf_finishCycle t (mkTask l parsed AwaitApplyEdit)).
Qed.

Lemma wf_saveSettled t s w : wf_world w -> wf_world (saveSettled t s w).
Proof.
  intros Hw. unfold saveSettled.
  destruct (tasks w !! t) as [[l parsed []]|] eqn:Ht; try done.
  destruct (heap w !! l) as [m|]; [|done].
  destruct s as [s|].
  - destruct (shiftCalculus parsed 0 (regions m)) as [rs ok].
    apply (wf_finishCycle t (mkTask l parsed AwaitSave)); [|done].
    by apply wf_update.
  - by apply (wf_finishCycle t (mkTask l parsed AwaitSave)).
Qed.

Lemma wf_step w e : wf_world w -> wf_world (step w e).
Proof.
  intros Hw. destruct e; simpl.
  - by apply wf_openUnifiedSandbox.
  - by apply wf_applySandboxCmd.
  - by apply wf_discardSandboxCmd.
  - by apply wf_toggleLiveSyncCmd.
  - by apply wf_changeListener.
  - by apply wf_timerCallback.
  - by apply wf_openSettled.
  - by apply wf_applyEditSettled.
  - by apply wf_saveSettled.
  - apply wf_with_sandboxMap; [done|]. intros k l. by rewrite lookup_empty.
Qed.

Lemma wf_run w es : wf_world w -> wf_world (run w es).
Proof.
  revert w. induction es as [|e es IH]; intros w Hw; [done|].
  apply IH. by apply wf_step.
Qed.

End Wf.

(** X5: debouncing.  In every world the extension reaches from its start,
    a session has at most one pending timer, and it is the one recorded in
    the [debounce] field of its mapping object. *)
Theorem one_pending_timer_per_session es h1 h2 l k1 k2 :
  timers (run initial es) !! h1 = Some (l, k1) ->
  timers (run initial es) !! h2 = Some (l, k2) ->
  h1 = h2 /\ debounce <$> heap (run initial es) !! l = Some (Some h1).
Proof.
  intros Hh1 Hh2. pose proof (wf_run initial es wf_initial) as Hw.
  destruct (wf_timers _ Hw _ _ _ Hh1) as (_ & m1 & Hm1 & Hd1).
  destruct (wf_timers _ Hw _ _ _ Hh2) as (_ & m2 & Hm2 & Hd2).
  rewrite Hm1 in Hm2 |- *. simplify_eq. split; [congruence|]. simpl. by rewrite Hd1.
Qed.

(** X6: mutual exclusion.  In every world the extension reaches from its
    start, a session has at most one suspended live-sync cycle, and its
    busy flag is set exactly when it has one. *)
Theorem busy_flag_is_the_running_cycle es :
  let w := run initial es in
  (forall t1 t2 tk1 tk2,
     tasks w !! t1 = Some tk1 -> tasks w !! t2 = Some tk2 ->
     taskMapping tk1 = taskMapping tk2 -> t1 = t2) /\
  (forall l m, heap w !! l = Some m ->
     (mutex m = true <-> exists t tk, tasks w !! t = Some tk /\ taskMapping tk = l)).
Proof.
  intros w. pose proof (wf_run initial es wf_initial) as Hw. fold w in Hw.
  split; [apply (wf_single w Hw)|].
  intros l m Hm. split; [apply (wf_heap w Hw l m Hm)|].
  intros (t & tk & Ht & <-). destruct (wf_tasks w Hw t tk Ht) as (_ & m' & Hm' & Hx).
  congruence.
Qed.

(** ** What a session keeps for its whole life *)

Section Identity.

Lemma keepsSessions_refl h : keepsSessions h h.
Proof. intros l m Hm. by exists m. Qed.

Lemma keepsSessions_trans h1 h2 h3 :
  keepsSessions h1 h2 -> keepsSessions h2 h3 -> keepsSessions h1 h3.
Proof.
  intros H12 H23 l m Hm. destruct (H12 _ _ Hm) as (m2 & Hm2 & E2).
  destruct (H23 _ _ Hm2) as (m3 & Hm3 & E3). exists m3. split; [done|congruence].
Qed.

Lemma keepsSessions_alter f l h :
  (forall m, h !! l = Some m -> sessionIdentity (f m) = sessionIdentity m) ->
  keepsSessions h (alter f l h).
Proof.
  intros Hf l' m Hm. rewrite lookup_alter. case_decide.
  - subst l'. rewrite Hm. exists (f m). split; [done|]. by apply Hf.
  - by exists m.
Qed.

Lemma keepsSessions_insert l x (h : gmap nat SandboxMapping) :
  h !! l = None -> keepsSessions h (<[l := x]> h).
Proof.
  intros Hl l' m Hm. exists m. split; [|done].
  rewrite lookup_insert_ne; [done|]. intros ->. congruence.
Qed.

(** The shift calculus keeps ids and backup texts, also when it throws. *)
Lemma shiftCalculus_identity parsed shift rs :
  id <$> (shiftCalculus parsed shift rs).1 = id <$> rs /\
  originalContent <$> (shiftCalculus parsed shift rs).1 = originalContent <$> rs.
Proof.
  revert shift. induction rs as [|r rest IH]; intros shift; [done|].
  cbn [shiftCalculus]. destruct (parsed !! id r) as [code|]; [|done].
  specialize (IH (shift + (Z.of_nat (length (split_newlines code)) -
      (endLine (originalRange r) - startLine (originalRange r) + 1)))).
  destruct (shiftCalculus parsed _ rest) as [rest' ok]. simpl in *.
  destruct IH as [Hi Hc]. split; f_equal; assumption.
Qed.

Lemma keepsSessions_finishCycle tid l threw w :
  keepsSessions (heap w) (heap (finishCycle tid l threw w)).
Proof.
  unfold finishCycle. destruct threw, tid; simpl;
    by apply keepsSessions_alter; intros [] _.
Qed.

Lemma keepsSessions_step w e :
  wf_world w -> keepsSessions (heap w) (heap (step w e)).
Proof.
  intros Hw. destruct e as [u ls d syms k|a|a d|a|k u text|h|t d|t a|t s|].
  - simpl. unfold openUnifiedSandbox. destruct (generateFrom _ _ _) as [[rs text]|];
      [|apply keepsSessions_refl]. simpl. apply keepsSessions_insert.
    destruct (heap w !! nextId w) as [m|] eqn:Hm; [|done].
    destruct (wf_heap w Hw _ _ Hm). lia.
  - rewrite (proj2 (applySandboxCmd_timers w a)). apply keepsSessions_refl.
  - rewrite (proj2 (discardSandboxCmd_timers w a d)). apply keepsSessions_refl.
  - simpl. unfold toggleLiveSyncCmd. destruct a as [k|]; [|apply keepsSessions_refl].
    destruct (sandboxMap w !! k ≫= _) as [[l m]|]; [|apply keepsSessions_refl].
    simpl. by apply keepsSessions_alter; intros [] _.
  - simpl. unfold changeListener. destruct u; cbn [negb]; [|apply keepsSessions_refl].
    destruct (sandboxMap _ !! k ≫= _) as [[l m]|]; [|apply keepsSessions_refl].
    destruct (isLive m); cbn [negb]; [|apply keepsSessions_refl].
    destruct (debounce m); simpl; by apply keepsSessions_alter; intros [] _.
  - simpl. unfold timerCallback. destruct (timers w !! h) as [[l k]|]; [|apply keepsSessions_refl].
    simpl. destruct (heap w !! l) as [m|]; [|apply keepsSessions_refl].
    destruct (mutex m); [apply keepsSessions_refl|].
    assert (keepsSessions (heap w) (alter (set_mutex true) l (heap w))) as H1
      by (by apply keepsSessions_alter; intros [] _).
    destruct (parseSandboxText _) as [parsed|].
    + case_bool_decide; [|done].
      eapply keepsSessions_trans; [exact H1|].
      apply (keepsSessions_finishCycle None l false
               (emit (ShowErrorMessage SeparatorDeleted)
                  (update l (set_mutex true) (with_timers (delete h (timers w)) w)))).
    + eapply keepsSessions_trans; [exact H1|].
      apply (keepsSessions_finishCycle None l true
               (update l (set_mutex true) (with_timers (delete h (timers w)) w))).
  - simpl. unfold openSettled.
    destruct (tasks w !! t) as [[l parsed []]|]; try apply keepsSessions_refl.
    destruct (heap w !! l) as [m|]; [|apply keepsSessions_refl].
    destruct (d ≫= _); [apply keepsSessions_refl|apply keepsSessions_finishCycle].
  - simpl. unfold applyEditSettled.
    destruct (tasks w !! t) as [[l parsed []]|]; try apply keepsSessions_refl.
    destruct (heap w !! l) as [m|]; [|apply keepsSessions_refl].
    destruct a as [[|]|];
      [apply keepsSessions_refl|apply keepsSessions_finishCycle..].
  - simpl. unfold saveSettled.
    destruct (tasks w !! t) as [[l parsed []]|]; try apply keepsSessions_refl.
    destruct (heap w !! l) as [m|] eqn:Hm; [|apply keepsSessions_refl].
    destruct s as [s|]; [|apply keepsSessions_finishCycle].
    pose proof (shiftCalculus_identity parsed 0 (regions m)) as [Hi Hc].
    destruct (shiftCalculus parsed 0 (regions m)) as [rs ok]. simpl in Hi, Hc.
    eapply keepsSessions_trans; [|apply keepsSessions_finishCycle].
    simpl. apply keepsSessions_alter. intros m0 Hm0. rewrite Hm in Hm0.
    injection Hm0 as <-. unfold sessionIdentity. simpl. by rewrite Hi, Hc.
  - apply keepsSessions_refl.
Qed.

Lemma keepsSessions_run w es :
  wf_world w -> keepsSessions (heap w) (heap (run w es)).
Proof.
  revert w. induction es as [|e es IH]; intros w Hw; [apply keepsSessions_refl|].
  eapply keepsSessions_trans; [by apply keepsSessions_step|].
  apply IH. by apply wf_step.
Qed.

End Identity.

(** X7: whatever happens after a mapping object was created, the object
    stays in the heap with the same artifact, the same region ids in the
    same order, the same backup texts and the same backup uri: only the
    ranges and the flags of a session ever change. *)
Theorem session_identity_is_kept es es' l m :
  heap (run initial es) !! l = Some m ->
  exists m',
    heap (run initial (es ++ es')) !! l = Some m' /\
    originalUri m' = originalUri m /\
    id <$> regions m' = id <$> regions m /\
    originalContent <$> regions m' = originalContent <$> regions m /\
    backupUri m' = backupUri m.
Proof.
  intros Hm. unfold run. rewrite foldl_app.
  destruct (keepsSessions_run (run initial es) es' (wf_run _ _ wf_initial) l m Hm)
    as (m' & Hm' & E).
  exists m'. split; [done|]. unfold sessionIdentity in E. by simplify_eq.
Qed.

Section Quiet.

Lemma neverLive_initial : neverLive initial.
Proof. repeat split. intros l m. simpl. by rewrite lookup_empty. Qed.

Lemma neverLive_step w e : quiet e = true -> neverLive w -> neverLive (step w e).
Proof.
  intros Hq (Htm & Htk & Hlive & Hlog).
  destruct e as [u ls d syms k|a|a d|a|k u text|h|t d|t a|t s|]; try done; simpl.
  - unfold openUnifiedSandbox. destruct (generateFrom _ _ _) as [[rs text]|]; [|done].
    repeat split; simpl; try done.
    + intros l m. rewrite lookup_insert. case_decide; [by intros [= <-]|apply Hlive].
    + rewrite !forallb_app, Hlog. done.
  - destruct (applySandboxCmd_log w a) as (extra & Hl & Hx).
    destruct (applySandboxCmd_timers w a) as [Ht Hh].
    unfold step in Hl, Ht, Hh. repeat split.
    + by rewrite Ht.
    + unfold applySandboxCmd. destruct a as [k|]; [|done].
      destruct (sandboxMap w !! k) as [l|]; [|done]. simpl.
      by destruct (heap w !! l ≫= backupUri).
    + by rewrite Hh.
    + by rewrite Hl, forallb_app, Hlog, Hx.
  - unfold changeListener. destruct u; cbn [negb]; [|done].
    destruct (sandboxMap _ !! k ≫= _) as [[l m]|] eqn:Hreg; [|done].
    assert (isLive m = false) as ->; [|done].
    simpl in Hreg. destruct (sandboxMap w !! k) as [l0|]; simpl in Hreg; [|done].
    destruct (heap w !! l0) as [m0|] eqn:Hm0; simpl in Hreg; [|done].
    injection Hreg as <- <-. by apply (Hlive l0).
  - unfold timerCallback. by rewrite Htm, lookup_empty.
  - unfold openSettled. by rewrite Htk, lookup_empty.
  - unfold applyEditSettled. by rewrite Htk, lookup_empty.
  - unfold saveSettled. by rewrite Htk, lookup_empty.
Qed.

Lemma neverLive_run w es :
  forallb quiet es = true -> neverLive w -> neverLive (run w es).
Proof.
  revert w. induction es as [|e es IH]; intros w Hq Hw; [done|].
  simpl in Hq. apply andb_true_iff in Hq as [He Hes].
  apply IH; [done|]. by apply neverLive_step.
Qed.

End Quiet.

(** X8: as long as live sync is never switched and nothing is reverted, no
    edit is submitted to the artifact, no timer is set and no cycle is
    started, whatever is sliced, edited in the sandbox or accepted. *)
Theorem nothing_written_without_live_sync es :
  forallb quiet es = true ->
  forallb (fun e => negb (isApplyEdit e)) (log (run initial es)) = true /\
  timers (run initial es) = ∅ /\ tasks (run initial es) = ∅.
Proof.
  intros Hq. destruct (neverLive_run initial es Hq neverLive_initial)
    as (Htm & Htk & _ & Hlog). done.
Qed.

(** ** The region of a candidate line *)

Section Extraction.

Lemma visitSymbol_encloses targetLine symbol :
  encloses targetLine symbol = true ->
  encloses targetLine (visitSymbol targetLine symbol) = true.
Proof.
  induction symbol as [k r chn IH] using DocumentSymbol_nested_ind.
  intros He. rewrite visitSymbol_eq, findSymbolAtLine_find, selectMatch_eq.
  cbn [children].
  destruct (List.find (encloses targetLine) chn) as [c|] eqn:Hf; simpl; [|done].
  apply find_some in Hf as [Hin Hc]. apply list_elem_of_In in Hin.
  rewrite Forall_forall in IH.
  destruct (isValidContainer (kind (visitSymbol targetLine c))); [|done].
  by apply IH.
Qed.

Lemma findSymbolAtLine_encloses symbols targetLine sym :
  findSymbolAtLine symbols targetLine = Some sym ->
  encloses targetLine sym = true.
Proof.
  rewrite findSymbolAtLine_find.
  destruct (List.find (encloses targetLine) symbols) as [top|] eqn:Hf; [|done].
  intros [= <-]. apply find_some in Hf as [_ He]. by apply visitSymbol_encloses.
Qed.

Lemma encloses_contains targetLine sym :
  encloses targetLine sym = true -> contains (range sym) targetLine.
Proof. unfold encloses, contains. intros [H1 H2]%andb_true_iff. lia. Qed.

Lemma lineToRange_contains origDoc symbols line :
  is_Some (findSymbolAtLine symbols line) \/ onLine origDoc line ->
  contains (lineToRange origDoc symbols line) line.
Proof.
  unfold lineToRange. destruct (findSymbolAtLine symbols line) as [sym|] eqn:Hf.
  - intros _. apply findSymbolAtLine_encloses, encloses_contains in Hf.
    by destruct (range sym).
  - intros [[? ?]|Hl]; [done|]. unfold contains, onLine in *. simpl. lia.
Qed.

(** ** Where the merged ranges come from *)

Lemma length_insertRange r l : length (insertRange r l) = S (length l).
Proof.
  induction l as [|y l IH]; simpl; [done|].
  destruct (startLine r <=? startLine y); simpl; [done|]. by rewrite IH.
Qed.

Lemma length_sortRanges l : length (sortRanges l) = length l.
Proof. induction l as [|r l IH]; simpl; [done|]. by rewrite length_insertRange, IH. Qed.

Lemma length_mergeFrom cur l : (length (mergeFrom cur l) <= S (length l))%nat.
Proof.
  revert cur. induction l as [|r l IH]; intros cur; simpl; [done|].
  destruct (startLine r <=? endLine cur + 2); simpl.
  - etrans; [apply IH|]. lia.
  - specialize (IH r). lia.
Qed.

Lemma mergeFrom_bounds inputs cur l :
  boundsFrom inputs cur -> Forall (boundsFrom inputs) l ->
  Forall (boundsFrom inputs) (mergeFrom cur l).
Proof.
  intros Hc Hl. revert cur Hc. induction Hl as [|r l Hr Hl IH]; intros cur Hc; simpl.
  - by constructor.
  - destruct (startLine r <=? endLine cur + 2).
    + apply IH. destruct Hc as [Hs He], Hr as [_ Hre]. split; [done|]. simpl.
      destruct (Z.max_spec (endLine cur) (endLine r)) as [[_ ->]|[_ ->]]; done.
    + constructor; [done|]. by apply IH.
Qed.

Lemma mergeRanges_bounds ranges :
  Forall (boundsFrom ranges) (mergeRanges ranges).
Proof.
  rewrite mergeRanges_eq.
  assert (Forall (boundsFrom ranges) (sortRanges ranges)) as Hall.
  { apply Forall_forall. intros r Hr.
    apply (proj1 (elem_of_sortRanges r ranges)) in Hr.
    split; exists r; split; [exact Hr|reflexivity|exact Hr|reflexivity]. }
  destruct (sortRanges ranges) as [|r0 l]; [constructor|].
  apply Forall_cons in Hall as [H0 Hl]. by apply mergeFrom_bounds.
Qed.

Lemma mergeRanges_covers ranges r :
  r ∈ ranges -> exists a, a ∈ mergeRanges ranges /\ within r a.
Proof.
  intros Hr. rewrite mergeRanges_eq.
  pose proof (sortRanges_sorted ranges) as Hs.
  apply (proj2 (elem_of_sortRanges r ranges)) in Hr.
  destruct (sortRanges ranges) as [|r0 l]; [by apply elem_of_nil in Hr|].
  apply StronglySorted_inv in Hs as [Hs Hr0].
  apply (mergeFrom_covers r0 l r Hs Hr0).
  apply elem_of_cons in Hr as [->|Hr]; [left; split; lia | by right].
Qed.

(** ** When step 4 succeeds *)


Lemma generateFrom_ranges origDoc idx mergedRanges rs text :
  generateFrom origDoc idx mergedRanges = Some (rs, text) ->
  originalRange <$> rs = mergedRanges.
Proof.
  revert idx rs text. induction mergedRanges as [|rg rest IH]; intros idx rs text.
  - by intros [= <- <-].
  - cbn [generateFrom]. destruct (regionContent origDoc rg) as [c|]; [|done].
    simpl. destruct (generateFrom origDoc (S idx) rest) as [[rs' t']|] eqn:Hg; [|done].
    simpl. intros [= <- <-]. rewrite fmap_cons. simpl. f_equal.
    exact (IH _ _ _ Hg).
Qed.


End Extraction.

(** X9: the symbol found for a line encloses the line, and so does the
    range chosen for a candidate line, when a symbol is found or the line
    is a line of the document. *)
Theorem region_of_line_contains_line origDoc symbols line :
  is_Some (findSymbolAtLine symbols line) \/ onLine origDoc line ->
  (forall sym, findSymbolAtLine symbols line = Some sym ->
     contains (range sym) line) /\
  contains (lineToRange origDoc symbols line) line.
Proof.
  intros H. split; [|by apply lineToRange_contains].
  intros sym Hf. by apply encloses_contains, (findSymbolAtLine_encloses symbols).
Qed.

(** X10: the merge invents no line: every merged range starts where some
    candidate range starts and ends where some candidate range ends; there
    are at most as many merged ranges as candidates, and none exactly when
    there is no candidate. *)
Theorem merged_bounds_come_from_input (ranges : list Range) :
  (forall a, a ∈ mergeRanges ranges -> boundsFrom ranges a) /\
  (length (mergeRanges ranges) <= length ranges)%nat /\
  (mergeRanges ranges = [] <-> ranges = []).
Proof.
  split; [|split].
  - apply Forall_forall, mergeRanges_bounds.
  - rewrite mergeRanges_eq, <- (length_sortRanges ranges).
    destruct (sortRanges ranges) as [|r0 l]; [done|]. apply length_mergeFrom.
  - split; [|by intros ->]. intros Hm. destruct ranges as [|r l]; [done|].
    destruct (mergeRanges_covers (r :: l) r) as (a & Ha & _); [by left|].
    rewrite Hm in Ha. by apply elem_of_nil in Ha.
Qed.


(** ** The text of a region *)

Section Content.

Variable eol : jsstring.

Lemma join_cons_cons x y (l : list jsstring) :
  join eol (x :: y :: l) = x ++ eol ++ join eol (y :: l).
Proof. done. Qed.

Lemma join_withEol (A B : list jsstring) :
  B <> [] -> join eol (A ++ B) = withEol eol A ++ join eol B.
Proof.
  intros HB. induction A as [|a A IH]; [done|].
  unfold withEol. rewrite fmap_cons. cbn [concat]. fold (withEol eol A).
  rewrite <- !app_assoc, <- IH. simpl.
  destruct (A ++ B) as [|y l] eqn:Heq; [|done].
  apply app_eq_nil in Heq as [_ ?]. done.
Qed.

Lemma join_before (M C : list jsstring) :
  M <> [] ->
  join eol (M ++ C) =
  join eol M ++ match C with [] => [] | _ :: _ => eol ++ join eol C end.
Proof.
  induction M as [|m M IH]; [done|]. intros _.
  destruct M as [|m' M].
  - destruct C as [|c C]; simpl; [by rewrite app_nil_r|done].
  - change ((m :: m' :: M) ++ C) with (m :: m' :: (M ++ C)).
    rewrite !join_cons_cons.
    change (m' :: M ++ C) with ((m' :: M) ++ C). rewrite IH by done.
    by rewrite <- !app_assoc.
Qed.

Lemma prefix_length (A : list jsstring) :
  foldr (fun l acc => jslen l + jslen eol + acc) 0 A = jslen (withEol eol A).
Proof.
  unfold withEol, jslen. induction A as [|a A IH]; [done|].
  rewrite fmap_cons. cbn [foldr concat]. rewrite IH, !length_app. lia.
Qed.

Lemma withEol_app (A B : list jsstring) :
  withEol eol (A ++ B) = withEol eol A ++ withEol eol B.
Proof. unfold withEol. by rewrite fmap_app, concat_app. Qed.

End Content.

Lemma substring_middle (P J T : jsstring) :
  substring (P ++ J ++ T) (jslen P) (jslen P + jslen J) = J.
Proof.
  unfold substring.
  assert (jslen (P ++ J ++ T) = jslen P + jslen J + jslen T) as Hn
    by (unfold jslen; rewrite !length_app; lia).
  assert (0 <= jslen P /\ 0 <= jslen J /\ 0 <= jslen T) as (HP & HJ & HT)
    by (unfold jslen; lia).
  replace (Z.max 0 (Z.min (jslen P) (jslen (P ++ J ++ T)))) with (jslen P) by lia.
  replace (Z.max 0 (Z.min (jslen P + jslen J) (jslen (P ++ J ++ T))))
    with (jslen P + jslen J) by lia.
  replace (Z.min (jslen P) (jslen P + jslen J)) with (jslen P) by lia.
  replace (Z.max (jslen P) (jslen P + jslen J)) with (jslen P + jslen J) by lia.
  replace (Z.to_nat (jslen P + jslen J - jslen P)) with (length J)
    by (unfold jslen; lia).
  replace (Z.to_nat (jslen P)) with (length P) by (unfold jslen; lia).
  by rewrite drop_app_length, take_app_length.
Qed.

Lemma offsetAt_line (d : TextDocument) (line character : Z) (text : jsstring) :
  0 <= line < lineCount d -> docLines d !! Z.to_nat line = Some text ->
  0 <= character <= jslen text ->
  offsetAt d line character =
  jslen (withEol (docEol d) (take (Z.to_nat line) (docLines d))) + character.
Proof.
  intros Hl Ht Hc. unfold offsetAt.
  replace (Z.max 0 (Z.min line (lineCount d - 1))) with line by lia.
  rewrite Ht. cbn [fmap option_fmap option_map from_option]. unfold Datatypes.id.
  rewrite !bool_decide_eq_false_2 by lia.
  replace (Z.max 0 (Z.min character (jslen text))) with character by lia.
  by rewrite prefix_length.
Qed.

Lemma regionContent_lines (d : TextDocument) (r : Range) :
  0 <= startLine r <= endLine r -> endLine r < lineCount d ->
  regionContent d r = Some (join (docEol d) (linesOf d r)).
Proof.
  destruct r as [s e]. unfold linesOf. cbn [startLine endLine].
  intros Hse He. unfold regionContent, lineAt. cbn [startLine endLine].
  rewrite bool_decide_eq_true_2 by lia.
  set (L := docLines d) in *. set (E := docEol d) in *.
  assert (Z.of_nat (length L) = lineCount d) as HLc by done.
  destruct (L !! Z.to_nat e) as [endText|] eqn:Hend;
    [|apply lookup_ge_None in Hend; lia].
  destruct (L !! Z.to_nat s) as [startText|] eqn:Hst;
    [|apply lookup_ge_None in Hst; lia].
  cbn [mbind option_bind]. f_equal.
  rewrite (offsetAt_line d s 0 startText); [|lia|done|unfold jslen; lia].
  rewrite (offsetAt_line d e (jslen endText) endText); [|lia|done|unfold jslen; lia].
  fold L E. unfold getText. fold L E.
  set (a := Z.to_nat s). set (n := Z.to_nat (e - s)).
  replace (Z.to_nat e) with (a + n)%nat in * by lia.
  replace (Z.to_nat (e - s + 1)) with (S n) by lia.
  assert (take (S n) (drop a L) = take n (drop a L) ++ [endText]) as HM.
  { rewrite (take_S_r _ _ endText); [done|]. by rewrite lookup_drop. }
  assert (L = take a L ++ (take n (drop a L) ++ [endText]) ++ drop (S n) (drop a L))
    as HL.
  { by rewrite <- HM, !take_drop. }
  rewrite HM, <- take_take_drop, withEol_app. rewrite HL at 1.
  rewrite join_withEol by (by destruct (take n (drop a L))).
  rewrite join_before by (by destruct (take n (drop a L))).
  rewrite (join_withEol E (take n (drop a L)) [endText]) by done.
  cbn [join].
  replace (jslen (withEol E (take a L) ++ withEol E (take n (drop a L)))
           + jslen endText)
    with (jslen (withEol E (take a L))
          + jslen (withEol E (take n (drop a L)) ++ endText))
    by (unfold jslen; rewrite !length_app; lia).
  rewrite Z.add_0_r. apply substring_middle.
Qed.

Lemma length_linesOf (d : TextDocument) (r : Range) :
  0 <= startLine r <= endLine r -> endLine r < lineCount d ->
  Z.of_nat (length (linesOf d r)) = endLine r - startLine r + 1.
Proof.
  unfold linesOf, lineCount. intros Hse He.
  rewrite length_take, length_drop. lia.
Qed.

(** X12: for a range that lies within the document, the text cut out of
    the document between the two offsets is exactly the lines of the
    range, joined by the end-of-line sequence of the document. *)
Theorem region_content_is_its_lines (d : TextDocument) (r : Range) :
  0 <= startLine r <= endLine r -> endLine r < lineCount d ->
  regionContent d r = Some (join (docEol d) (linesOf d r)) /\
  Z.of_nat (length (linesOf d r)) = endLine r - startLine r + 1 /\
  forall i : nat,
    (Z.of_nat i <= endLine r - startLine r) ->
    linesOf d r !! i = docLines d !! (Z.to_nat (startLine r) + i)%nat.
Proof.
  intros Hse He. split; [by apply regionContent_lines|].
  split; [by apply length_linesOf|].
  intros i Hi. unfold linesOf. rewrite lookup_take_lt by lia. apply lookup_drop.
Qed.

(** ** A sync of the unedited buffer *)

Section Unedited.

Lemma countLF_app (a b : jsstring) : countLF (a ++ b) = (countLF a + countLF b)%nat.
Proof. unfold countLF. by rewrite filter_app, length_app. Qed.

Lemma countLF_none (a : jsstring) : LF ∉ a -> countLF a = 0%nat.
Proof.
  unfold countLF. induction a as [|c a IH]; [done|].
  intros [Hc Ha]%not_elem_of_cons. rewrite filter_cons_False by done. by apply IH.
Qed.

Lemma countLF_join (eol : jsstring) (ls : list jsstring) :
  eol = [LF] \/ eol = [CR; LF] -> Forall (fun l => LF ∉ l) ls ->
  S (countLF (join eol ls)) = Nat.max 1 (length ls).
Proof.
  intros Heol Hls.
  assert (countLF eol = 1%nat) as He by (by destruct Heol as [-> | ->]).
  induction Hls as [|x ls Hx Hls IH]; [done|].
  destruct ls as [|y ls].
  - simpl. by rewrite countLF_none.
  - rewrite join_cons_cons, !countLF_app, He, countLF_none by done.
    simpl in *. lia.
Qed.

Lemma lineCountOf_join (eol : jsstring) (ls : list jsstring) :
  eol = [LF] \/ eol = [CR; LF] -> Forall (fun l => LF ∉ l) ls -> ls <> [] ->
  lineCountOf (join eol ls) = Z.of_nat (length ls).
Proof.
  intros Heol Hls Hne. unfold lineCountOf.
  destruct (split_lines_from_spec (length (join eol ls)) (join eol ls) []
              (le_n _) (not_elem_of_nil _)) as [Hl _].
  unfold split_newlines. rewrite Hl, (countLF_join eol ls Heol Hls).
  destruct ls; [done|]. simpl. lia.
Qed.

Lemma generateFrom_content origDoc idx mergedRanges rs text :
  generateFrom origDoc idx mergedRanges = Some (rs, text) ->
  Forall (fun r => regionContent origDoc (originalRange r)
                   = Some (originalContent r)) rs.
Proof.
  revert idx rs text. induction mergedRanges as [|rg rest IH]; intros idx rs text.
  - intros [= <- <-]. constructor.
  - cbn [generateFrom]. destruct (regionContent origDoc rg) as [c|] eqn:Hc; [|done].
    simpl. destruct (generateFrom origDoc (S idx) rest) as [[rs' t']|] eqn:Hg; [|done].
    simpl. intros [= <- <-]. constructor; [done|]. by apply (IH _ _ _ Hg).
Qed.

End Unedited.

(** X13: slicing followed by a sync of the unedited sandbox.  For a
    document with [\n] or [\r\n] line ends, merged ranges within it, and
    region texts that hold no separator and do not end with a carriage
    return, the blocks parsed from the rendered text are the region texts,
    each with as many lines as its range, and the shift calculus leaves
    every range as it is. *)
Theorem unedited_sync_keeps_ranges origDoc mergedRanges rs sandboxText :
  docEol origDoc = [LF] \/ docEol origDoc = [CR; LF] ->
  Forall (fun l => LF ∉ l) (docLines origDoc) ->
  Forall (fun r => 0 <= startLine r <= endLine r /\ endLine r < lineCount origDoc)
    mergedRanges ->
  generateFrom origDoc 0 mergedRanges = Some (rs, sandboxText) ->
  (forall r, r ∈ rs ->
     has_separator (originalContent r ++ [LF; LF]) = false /\
     last (originalContent r) <> Some CR) ->
  exists parsed,
    parseSandboxText sandboxText = Some parsed /\
    size parsed = length rs /\
    (forall r, r ∈ rs ->
       parsed !! id r = Some (originalContent r) /\
       originalContent r = join (docEol origDoc) (linesOf origDoc (originalRange r)) /\
       lineCountOf (originalContent r)
       = endLine (originalRange r) - startLine (originalRange r) + 1) /\
    shiftCalculus parsed 0 rs = (rs, true).
Proof.
  intros Heol Hlines Hranges Hg Hc.
  destruct (generateFrom_spec _ _ _ _ _ Hg) as [-> Hids].
  destruct (roundtrip_regions rs 0%nat Hids Hc) as (parsed & Hp & Hsz & Hlk).
  pose proof (generateFrom_content _ _ _ _ _ Hg) as Hcontent.
  pose proof (generateFrom_ranges _ _ _ _ _ Hg) as Hrs.
  rewrite Forall_forall in Hcontent.
  assert (forall r, r ∈ rs ->
            originalContent r = join (docEol origDoc) (linesOf origDoc (originalRange r)) /\
            lineCountOf (originalContent r)
            = endLine (originalRange r) - startLine (originalRange r) + 1) as Hfit.
  { intros r Hr.
    assert (originalRange r ∈ mergedRanges) as Hin.
    { rewrite <- Hrs. by apply list_elem_of_fmap_2. }
    rewrite Forall_forall in Hranges. destruct (Hranges _ Hin) as [Hse He].
    pose proof (Hcontent r Hr) as Hrc.
    rewrite (regionContent_lines _ _ Hse He) in Hrc. injection Hrc as Hrc.
    split; [done|]. rewrite <- Hrc, lineCountOf_join; [by apply length_linesOf|done| |].
    - unfold linesOf. rewrite Forall_forall in Hlines |- *. intros l Hl.
      apply Hlines. by apply subseteq_take, subseteq_drop in Hl.
    - intros Hnil. pose proof (length_linesOf _ _ Hse He) as Hlen.
      rewrite Hnil in Hlen. simpl in Hlen. lia. }
  exists parsed. split; [done|]. split; [done|]. split.
  - intros r Hr. split; [by apply Hlk|]. by apply Hfit.
  - apply shiftCalculus_noop, Forall_forall. intros r Hr.
    exists (originalContent r). split; [by apply Hlk|].
    unfold spanOf. by rewrite (proj2 (Hfit r Hr)).
Qed.

Section SingleRegionSymbols.

Lemma single_findSymbolAtLine_find symbols targetLine :
  SingleRegion.findSymbolAtLine symbols targetLine =
  SingleRegion.visitSymbol targetLine <$> List.find (encloses targetLine) symbols.
Proof.
  induction symbols as [|s l IH]; simpl; [done|].
  by destruct (encloses targetLine s).
Qed.

Lemma single_visitSymbol_eq targetLine symbol :
  SingleRegion.visitSymbol targetLine symbol =
  default symbol (SingleRegion.findSymbolAtLine (children symbol) targetLine).
Proof.
  destruct symbol as [k r chn]. cbn [SingleRegion.visitSymbol children].
  assert ((fix find (symbols : list DocumentSymbol) : option DocumentSymbol :=
             match symbols with
             | [] => None
             | s :: rest =>
                 if encloses targetLine s then Some (SingleRegion.visitSymbol targetLine s)
                 else find rest
             end) chn = SingleRegion.findSymbolAtLine chn targetLine) as ->.
  { induction chn as [|s l IH]; [done|]. cbn [SingleRegion.findSymbolAtLine].
    by destruct (encloses targetLine s). }
  by destruct (SingleRegion.findSymbolAtLine chn targetLine).
Qed.

Lemma single_visitSymbol_last targetLine symbol :
  last (descent targetLine symbol) = Some (SingleRegion.visitSymbol targetLine symbol).
Proof.
  induction symbol as [k r chn IH] using DocumentSymbol_nested_ind.
  rewrite single_visitSymbol_eq, descent_eq, single_findSymbolAtLine_find. cbn [children].
  destruct (List.find (encloses targetLine) chn) as [c|] eqn:Hf; simpl; [|done].
  apply find_some in Hf as [Hin _]. apply list_elem_of_In in Hin.
  rewrite Forall_forall in IH. rewrite <- (IH c Hin).
  rewrite (descent_eq targetLine c). done.
Qed.

Lemma descent_last_no_child targetLine symbol sym :
  last (descent targetLine symbol) = Some sym ->
  List.find (encloses targetLine) (children sym) = None.
Proof.
  induction symbol as [k r chn IH] using DocumentSymbol_nested_ind.
  rewrite descent_eq. cbn [children].
  destruct (List.find (encloses targetLine) chn) as [c|] eqn:Hf.
  - apply find_some in Hf as [Hin _]. apply list_elem_of_In in Hin.
    rewrite Forall_forall in IH. rewrite (descent_eq targetLine c), last_cons_cons.
    rewrite <- (descent_eq targetLine c). by apply IH.
  - simpl. by intros [= <-].
Qed.

Lemma symbol_path symbols targetLine top :
  List.find (encloses targetLine) symbols = Some top ->
  exists multi before after,
    findSymbolAtLine symbols targetLine = Some multi /\
    descent targetLine top = before ++ multi :: after.
Proof.
  intros Hfind. rewrite findSymbolAtLine_find, Hfind. simpl.
  rewrite visitSymbol_descent.
  pose proof (last_filter_split (fun s => isValidContainer (kind s) = true)
                (descent targetLine top)) as Hsplit.
  fold (containersOn (descent targetLine top)) in Hsplit.
  destruct (last (containersOn (descent targetLine top))) as [c|]; simpl.
  - destruct Hsplit as (_ & before & after & Hpath & _). by exists c, before, after.
  - rewrite descent_eq. by eexists top, [], _.
Qed.

End SingleRegionSymbols.

(** X14: [findSymbolAtLine] of the single-region edition returns the last
    symbol of the path that descends from the first top-level symbol
    enclosing the line through the first enclosing child at each level:
    it encloses the line and none of its children does.  The symbol the
    multi-region edition returns lies on the same path, at or above it. *)
Theorem single_region_symbol_is_innermost symbols targetLine :
  match List.find (encloses targetLine) symbols with
  | None => SingleRegion.findSymbolAtLine symbols targetLine = None
  | Some top =>
      exists sym,
        SingleRegion.findSymbolAtLine symbols targetLine = Some sym /\
        last (descent targetLine top) = Some sym /\
        encloses targetLine sym = true /\
        List.find (encloses targetLine) (children sym) = None /\
        exists multi before after,
          findSymbolAtLine symbols targetLine = Some multi /\
          descent targetLine top = before ++ multi :: after /\
          last (multi :: after) = Some sym
  end.
Proof.
  rewrite single_findSymbolAtLine_find.
  destruct (List.find (encloses targetLine) symbols) as [top|] eqn:Hfind; [|done].
  pose proof (symbol_path symbols targetLine top Hfind) as Hmulti.
  exists (SingleRegion.visitSymbol targetLine top). split; [done|].
  pose proof (single_visitSymbol_last targetLine top) as Hlast. split; [done|].
  apply find_some in Hfind as [_ Henc].
  pose proof (descent_encloses targetLine top Henc) as Hall.
  rewrite Forall_forall in Hall. split.
  { apply Hall. by apply last_Some_elem_of. }
  split; [by apply (descent_last_no_child targetLine top)|].
  destruct Hmulti as (multi & before & after & Hm & Hpath).
  exists multi, before, after. split; [done|]. split; [done|].
  rewrite Hpath in Hlast. by rewrite last_app_cons in Hlast.
Qed.

Lemma single_snippet_lines (d : TextDocument) (r : Range) :
  0 <= startLine r <= endLine r -> endLine r < lineCount d ->
  SingleRegion.snippet d r = Some (join [LF] (linesOf d r)).
Proof.
  intros Hse He. unfold SingleRegion.snippet.
  assert (mapM (lineAt d) (SingleRegion.lineNumbers (startLine r) (endLine r))
          = Some (linesOf d r)) as ->; [|done].
  apply mapM_Some, Forall2_same_length_lookup. split.
  - unfold SingleRegion.lineNumbers. rewrite length_fmap, length_seq.
    pose proof (length_linesOf d r Hse He). lia.
  - intros i x y Hx Hy. unfold SingleRegion.lineNumbers in Hx.
    rewrite list_lookup_fmap in Hx.
    destruct (seq 0 (Z.to_nat (endLine r - startLine r + 1)) !! i) as [j|] eqn:Hj;
      [|done].
    apply lookup_seq in Hj as [-> Hlt]. simpl in Hx. injection Hx as <-.
    unfold lineAt. rewrite bool_decide_eq_true_2 by lia.
    unfold linesOf in Hy. rewrite lookup_take_lt, lookup_drop in Hy by lia.
    rewrite <- Hy. f_equal. lia.
Qed.

(** X15: in the single-region edition, for a range within the document,
    the snippet shown in the sandbox is the lines of the range joined by
    [\n], and the backup text is the same lines joined by the end-of-line
    sequence of the document: they are equal for a document with [\n] line
    ends. *)
Theorem single_region_snippet_and_backup (d : TextDocument) (r : Range) :
  0 <= startLine r <= endLine r -> endLine r < lineCount d ->
  SingleRegion.snippet d r = Some (join [LF] (linesOf d r)) /\
  regionContent d r = Some (join (docEol d) (linesOf d r)) /\
  (docEol d = [LF] -> SingleRegion.snippet d r = regionContent d r).
Proof.
  intros Hse He.
  pose proof (single_snippet_lines d r Hse He) as Hs.
  pose proof (regionContent_lines d r Hse He) as Hc.
  split; [done|]. split; [done|]. intros Heol. by rewrite Hs, Hc, Heol.
Qed.

(** ** Instances of the further properties in the scenario *)

Lemma shift_calculus_keeps_order_witness :
  startLine (mkRange 7 15) - endLine (mkRange 0 2)
  = startLine (mkRange 10 18) - endLine (mkRange 0 5).
Proof.
  apply (proj1 (shift_calculus_keeps_order editedParsed slicedRegions
                  syncedRegions ltac:(vm_compute; reflexivity)) 0%nat
           (mkRegion (region_id 0) (mkRange 0 5) region0Code)
           (mkRegion (region_id 1) (mkRange 10 18) region1Code)
           (mkRegion (region_id 0) (mkRange 0 2) region0Code)
           (mkRegion (region_id 1) (mkRange 7 15) region1Code)); reflexivity.
Defined.

Lemma shift_calculus_idempotent_witness :
  shiftCalculus editedParsed 0 syncedRegions = (syncedRegions, true).
Proof.
  apply (shift_calculus_idempotent editedParsed slicedRegions syncedRegions).
  vm_compute. reflexivity.
Defined.

Lemma one_pending_timer_per_session_witness :
  1%nat = 1%nat /\
  debounce <$> heap (run initial liveEvents) !! 0%nat = Some (Some 1%nat).
Proof.
  apply (one_pending_timer_per_session liveEvents 1 1 0 sandboxUri sandboxUri);
    vm_compute; reflexivity.
Defined.

Lemma session_identity_is_kept_witness :
  exists m',
    heap (run initial (liveEvents ++ fullCycle)) !! 0%nat = Some m' /\
    originalUri m' = originalUri liveMapping /\
    id <$> regions m' = id <$> regions liveMapping /\
    originalContent <$> regions m' = originalContent <$> regions liveMapping /\
    backupUri m' = backupUri liveMapping.
Proof.
  apply (session_identity_is_kept liveEvents fullCycle 0 liveMapping).
  vm_compute. reflexivity.
Defined.

Lemma nothing_written_without_live_sync_witness :
  forallb (fun e => negb (isApplyEdit e)) (log (run initial offlineEvents)) = true /\
  timers (run initial offlineEvents) = ∅ /\ tasks (run initial offlineEvents) = ∅.
Proof. apply (nothing_written_without_live_sync offlineEvents). reflexivity. Defined.

Lemma region_of_line_contains_line_witness :
  contains (lineToRange artifact artifactSymbols 15) 15 /\
  contains (lineToRange artifact [] 1) 1.
Proof.
  split.
  - apply (region_of_line_contains_line artifact artifactSymbols 15).
    left. eexists. vm_compute. reflexivity.
  - apply (region_of_line_contains_line artifact [] 1).
    right. unfold onLine. change (lineCount artifact) with 20. lia.
Defined.


Lemma region_content_is_its_lines_witness :
  regionContent artifact (mkRange 0 5) = Some region0Code.
Proof.
  destruct (region_content_is_its_lines artifact (mkRange 0 5)) as (Hc & _).
  - simpl. lia.
  - simpl. change (lineCount artifact) with 20. lia.
  - rewrite Hc. vm_compute. reflexivity.
Defined.

Lemma unedited_sync_keeps_ranges_witness :
  exists parsed,
    parseSandboxText (sandboxTextOf slicedRegions) = Some parsed /\
    shiftCalculus parsed 0 slicedRegions = (slicedRegions, true).
Proof.
  destruct (unedited_sync_keeps_ranges artifact [mkRange 0 5; mkRange 10 18]
              slicedRegions (sandboxTextOf slicedRegions))
    as (parsed & Hp & _ & _ & Hs).
  - by left.
  - apply (bool_decide_unpack _). vm_compute. reflexivity.
  - constructor; [|constructor; [|constructor]];
      (simpl; change (lineCount artifact) with 20; lia).
  - vm_compute. reflexivity.
  - intros r Hr. unfold slicedRegions in Hr.
    apply elem_of_cons in Hr as [->|Hr];
      [|apply elem_of_cons in Hr as [->|Hr]; [|by apply elem_of_nil in Hr]];
      (split; [vm_compute; reflexivity | vm_compute; discriminate]).
  - exists parsed. split; [exact Hp | exact Hs].
Defined.

Lemma single_region_snippet_and_backup_witness :
  SingleRegion.snippet artifact (mkRange 0 5) = regionContent artifact (mkRange 0 5).
Proof.
  apply (proj2 (proj2 (single_region_snippet_and_backup artifact (mkRange 0 5)
                  ltac:(simpl; lia)
                  ltac:(simpl; change (lineCount artifact) with 20; lia)))).
  reflexivity.
Defined.
